(** * Visited-section progress tracking of script.js

    A shallow embedding of the progress tracker of the documentation
    portal script ([markSectionVisited], [updateProgressDisplay],
    [saveUserProgress], [loadUserProgress], the section observer of
    [initializeProgressTracking] and the part of the [DOMContentLoaded]
    handler that concerns them), together with the parts of the
    JavaScript platform these functions call: strings, Numbers, [Set],
    [JSON.stringify], [JSON.parse], [Math.round] and [localStorage]
    (whose [setItem] can reject a write).

    Layout: the platform model ([Module JS] and [Module Number]), the
    program ([Module Script] for the tracker, [Module Portal] for theme,
    navigation, sidebar, throttling, scroll bar and key sequence), the
    vocabulary of the statements ([Module Spec] and [Module Props]),
    then the lemmas and the main theorems, C1 to C10, and the further
    properties X1 to X21. *)

From Stdlib Require Import Floats ZArith NArith String Ascii Lia QArith Qpower Lqa.
From stdpp Require Import gmap list.

Set Default Proof Using "Type".
Set Warnings "-register-all,-clear-no-such-hyp".

(** ** The JavaScript platform *)

Module JS.

(** A string is a sequence of UTF-16 code units. *)
Abbreviation jsstring := (list N).

(** The code units of an ASCII literal. *)
Definition str (s : string) : jsstring :=
  List.map N_of_ascii (list_ascii_of_string s).

(** The values that [JSON.parse] produces.  A Number is a double.  An
    object is the list of its own properties in the order in which they
    are enumerated, each key once, as [own_properties] builds it. *)
Inductive value : Type :=
| VNull
| VBool (b : bool)
| VNum (x : float)
| VStr (s : jsstring)
| VArr (elements : list value)
| VObj (properties : list (jsstring * value)).

(** [undefined] is kept apart from the JSON values. *)
Definition undefined : option value := None.

(** The exceptions that reach this program: the two of the language, and
    the [DOMException] named [QuotaExceededError] that
    [localStorage.setItem] throws when the store does not take the
    value. *)
Inductive js_error : Type := SyntaxError | TypeError | QuotaExceededError.

(** The completion of an evaluation that may throw. *)
Inductive completion (A : Type) : Type :=
| Normal (a : A)
| Throw (e : js_error).
Arguments Normal {A} a.
Arguments Throw {A} e.

Definition cbind {A B} (m : completion A) (k : A → completion B) : completion B :=
  match m with
  | Normal a => k a
  | Throw e => Throw e
  end.

(** *** Strings *)

Definition jsstring_eqb (s t : jsstring) : bool := bool_decide (s = t).

Definition is_high_surrogate (c : N) : bool := ((55296 <=? c) && (c <=? 56319))%N.
Definition is_low_surrogate (c : N) : bool := ((56320 <=? c) && (c <=? 57343))%N.

(** The string iterator yields code points: a surrogate pair is one
    element, every other code unit is an element of its own. *)
Fixpoint code_points (s : jsstring) : list jsstring :=
  match s with
  | [] => []
  | c :: s' =>
      if is_high_surrogate c then
        match s' with
        | d :: s'' =>
            if is_low_surrogate d then [c; d] :: code_points s''
            else [c] :: code_points s'
        | [] => [c] :: code_points s'
        end
      else [c] :: code_points s'
  end.

(** *** Numbers *)

Definition is_digit (c : N) : bool := ((48 <=? c) && (c <=? 57))%N.

Fixpoint span_digits (s : jsstring) : jsstring * jsstring :=
  match s with
  | c :: s' =>
      if is_digit c then
        match span_digits s' with
        | (ds, rest) => (c :: ds, rest)
        end
      else ([], s)
  | [] => ([], [])
  end.

(** The integer that a run of decimal digits denotes. *)
Definition digits_value (ds : jsstring) : Z :=
  fold_left (λ acc d, 10 * acc + (Z.of_N d - 48))%Z ds 0%Z.

(** The double nearest to [num / den], for positive integers, the even
    one at a tie; beyond the largest double it is an infinity. *)
Definition round_ratio (negative : bool) (num den : Z) : float :=
  SF2Prim
    match SFdiv_core_binary prec emax num 0 den 0 with
    | (q, e, l) => binary_round_aux prec emax negative q e l
    end.

(** The Number value of [d * 10^k] for [d >= 0].  The two tests on
    [Z.log2 d] only spare the computation of a huge power of ten: there
    the value is at least 2^1024, or below 2^-1075. *)
Definition Number_of_decimal (negative : bool) (d k : Z) : float :=
  if (d =? 0)%Z then (if negative then PrimFloat.neg_zero else PrimFloat.zero)
  else if (0 <=? k)%Z then
    if (1024 <=? Z.log2 d + 3 * k)%Z
    then (if negative then PrimFloat.neg_infinity else PrimFloat.infinity)
    else round_ratio negative (d * 10 ^ k) 1
  else
    if (Z.log2 d + 1 + 3 * k <=? -1075)%Z
    then (if negative then PrimFloat.neg_zero else PrimFloat.zero)
    else round_ratio negative d (10 ^ (- k)).

(** The exponent part of a number literal, when there is one. *)
Definition exponent_value (s : jsstring) : Z :=
  match s with
  | c :: s' =>
      if ((c =? 101) || (c =? 69))%N then
        match s' with
        | g :: s'' =>
            if (g =? 43)%N then digits_value s''
            else if (g =? 45)%N then (- digits_value s'')%Z
            else digits_value s'
        | [] => 0%Z
        end
      else 0%Z
  | [] => 0%Z
  end.

(** The Number that a JSON number literal denotes: its mathematical
    value, rounded to the nearest double. *)
Definition Number_of_literal (lit : jsstring) : float :=
  let negative := match lit with c :: _ => (c =? 45)%N | [] => false end in
  let body := if negative then List.tl lit else lit in
  match span_digits body with
  | (int_digits, r1) =>
      match (match r1 with
             | c :: r => if (c =? 46)%N then span_digits r else ([], r1)
             | [] => ([], [])
             end) with
      | (frac_digits, r2) =>
          Number_of_decimal negative
            (digits_value (int_digits ++ frac_digits))
            (exponent_value r2 - Z.of_nat (length frac_digits))
      end
  end.

(** The decimal digits of a natural number. *)
Fixpoint decimal_digits_aux (fuel : nat) (n : Z) (acc : jsstring) : jsstring :=
  match fuel with
  | O => acc
  | S fuel' =>
      if (n <? 10)%Z then Z.to_N (48 + n) :: acc
      else decimal_digits_aux fuel' (n / 10)%Z (Z.to_N (48 + n mod 10) :: acc)
  end.

Definition decimal_digits (n : Z) : jsstring :=
  decimal_digits_aux (S (Z.to_nat (Z.log2 n))) n [].

(** [Number::toString] prints the shortest decimal [s * 10^t] that
    rounds to the double.  For the double [m * 2^e], [candidate m e t]
    is the integer [s], if there is one, for which [s * 10^t] lies in
    the interval of the reals that round to the double, the one closest
    to the double when there are several.  The interval ends halfway to
    the neighbouring doubles and contains its ends when [m] is even. *)
Definition candidate (m : positive) (e t : Z) : option Z :=
  let x := (4 * Z.pos m)%Z in
  let hi := (x + 2)%Z in
  let lo := (if (Z.pos m =? 2 ^ 52) && (-1074 <? e) then x - 1 else x - 2)%Z in
  let E := (e - 2)%Z in
  let q := (10 ^ Z.max t 0 * 2 ^ Z.max (- E) 0)%Z in
  let scale := (2 ^ Z.max E 0 * 10 ^ Z.max (- t) 0)%Z in
  let even := Z.even (Z.pos m) in
  let s_lo := (if even then (lo * scale + q - 1) / q else lo * scale / q + 1)%Z in
  let s_hi := (if even then hi * scale / q else (hi * scale + q - 1) / q - 1)%Z in
  if ((s_lo <=? s_hi) && (1 <=? s_hi))%Z then
    let c0 := ((2 * x * scale + q) / (2 * q))%Z in
    let c := (if ((2 * x * scale + q) mod (2 * q) =? 0) && Z.odd c0
              then c0 - 1 else c0)%Z in
    Some (Z.max s_lo (Z.min s_hi c))
  else None.

(** The largest [t] with a candidate gives the fewest digits. *)
Fixpoint shortest_search (fuel : nat) (m : positive) (e t : Z) : Z * Z :=
  match fuel with
  | O => (0, 0)%Z
  | S fuel' =>
      match candidate m e t with
      | Some s => (s, t)
      | None => shortest_search fuel' m e (t - 1)%Z
      end
  end.

(** The search starts above the decimal exponent of the double and
    ends within some twenty steps. *)
Definition shortest_decimal (m : positive) (e : Z) : Z * Z :=
  let L := (Z.log2 (4 * Z.pos m + 2) + 1 + (e - 2))%Z in
  shortest_search 40 m e (L * 30103 / 100000 + 2)%Z.

Definition zeros (n : Z) : jsstring := repeat 48%N (Z.to_nat n).

(** The notation that [Number::toString] chooses for [k] digits and the
    decimal point after the [n]-th of them. *)
Definition format_decimal (s t : Z) : jsstring :=
  let digits := decimal_digits s in
  let k := Z.of_nat (length digits) in
  let n := (k + t)%Z in
  if ((k <=? n) && (n <=? 21))%Z then digits ++ zeros (n - k)
  else if ((0 <? n) && (n <=? 21))%Z then
    take (Z.to_nat n) digits ++ 46%N :: drop (Z.to_nat n) digits
  else if ((-6 <? n) && (n <=? 0))%Z then
    48%N :: 46%N :: zeros (- n) ++ digits
  else
    let exponent :=
      (if (n - 1 <? 0)%Z then 45%N else 43%N) :: decimal_digits (Z.abs (n - 1)) in
    match digits with
    | [d] => d :: 101%N :: exponent
    | d :: ds => d :: 46%N :: ds ++ 101%N :: exponent
    | [] => []
    end.

Definition Number_toString (x : float) : jsstring :=
  match Prim2SF x with
  | S754_zero _ => [48%N]
  | S754_nan => [78; 97; 78]%N
  | S754_infinity s =>
      (if s then [45%N] else []) ++ [73; 110; 102; 105; 110; 105; 116; 121]%N
  | S754_finite s m e =>
      match shortest_decimal m e with
      | (d, t) => (if s then [45%N] else []) ++ format_decimal d t
      end
  end.

(** *** Truthiness and SameValueZero *)

Definition truthy (v : value) : bool :=
  match v with
  | VNull => false
  | VBool b => b
  | VNum x => negb (PrimFloat.is_zero x || PrimFloat.is_nan x)
  | VStr s => negb (jsstring_eqb s [])
  | VArr _ | VObj _ => true
  end.

(** Two Numbers are the same value when they are equal as doubles (so
    are the two zeros) or both NaN.  Arrays and objects are compared by
    reference.  Every array or object in this program is a fresh result
    of [JSON.parse] that is handed to a [Set] once, so two of them are
    never the same reference. *)
Definition sameValueZero (a b : value) : bool :=
  match a, b with
  | VNull, VNull => true
  | VBool x, VBool y => Bool.eqb x y
  | VNum x, VNum y => (x =? y)%float || (PrimFloat.is_nan x && PrimFloat.is_nan y)
  | VStr x, VStr y => jsstring_eqb x y
  | _, _ => false
  end.

(** *** Set: the elements in insertion order *)

Definition Set_has (s : list value) (v : value) : bool :=
  existsb (sameValueZero v) s.

(** [Set.prototype.add] stores the positive zero for the negative one. *)
Definition Set_key (v : value) : value :=
  match v with
  | VNum x => if PrimFloat.is_zero x then VNum PrimFloat.zero else v
  | _ => v
  end.

Definition Set_add (s : list value) (v : value) : list value :=
  if Set_has s v then s else s ++ [Set_key v].

Definition Set_size (s : list value) : nat := length s.

Definition Array_from (s : list value) : list value := s.

(** [new Set(iterable)] for an iterable that is a JSON value: arrays and
    strings are iterable, the other values that reach it are not. *)
Definition new_Set (iterable : value) : completion (list value) :=
  match iterable with
  | VArr l => Normal (fold_left Set_add l [])
  | VStr s => Normal (fold_left Set_add (List.map VStr (code_points s)) [])
  | VNull => Normal []
  | VBool _ | VNum _ | VObj _ => Throw TypeError
  end.

(** The own properties of an object are kept in the order in which the
    language lists them: first the array indices (the canonical numerals
    up to 2^32 - 2) in ascending order, then the other names in the
    order of their creation.  Defining a property that exists replaces
    its value where it stands. *)
Definition is_array_index (k : jsstring) : bool :=
  match k with
  | [] => false
  | c :: rest =>
      forallb is_digit k
      && (negb (c =? 48)%N || match rest with [] => true | _ :: _ => false end)
      && (digits_value k <=? 4294967294)%Z
  end.

Definition has_property (props : list (jsstring * value)) (k : jsstring) : bool :=
  existsb (λ kv, jsstring_eqb kv.1 k) props.

Fixpoint replace_property (props : list (jsstring * value)) (k : jsstring) (v : value)
    : list (jsstring * value) :=
  match props with
  | [] => []
  | (k', v') :: props' =>
      if jsstring_eqb k' k then (k', v) :: props'
      else (k', v') :: replace_property props' k v
  end.

Fixpoint insert_index (props : list (jsstring * value)) (k : jsstring) (v : value)
    : list (jsstring * value) :=
  match props with
  | [] => [(k, v)]
  | (k', v') :: props' =>
      if is_array_index k' && (digits_value k' <? digits_value k)%Z
      then (k', v') :: insert_index props' k v
      else (k, v) :: (k', v') :: props'
  end.

Definition define_property (props : list (jsstring * value)) (k : jsstring) (v : value)
    : list (jsstring * value) :=
  if has_property props k then replace_property props k v
  else if is_array_index k then insert_index props k v
  else props ++ [(k, v)].

(** The properties of the object that an object literal of JSON text
    creates, from its members in the order of the text. *)
Definition own_properties (members : list (jsstring * value)) : list (jsstring * value) :=
  fold_left (λ props kv, define_property props kv.1 kv.2) members [].

(** Property read [v.key]: [null] has no properties; an object answers
    with its own property of that name; the primitives and arrays have
    no own or inherited property of the names used here. *)
Fixpoint last_binding (key : jsstring) (kvs : list (jsstring * value)) : option value :=
  match kvs with
  | [] => None
  | (k, v) :: kvs' =>
      match last_binding key kvs' with
      | Some v' => Some v'
      | None => if jsstring_eqb k key then Some v else None
      end
  end.

Definition get_property (v : value) (key : jsstring) : completion (option value) :=
  match v with
  | VNull => Throw TypeError
  | VObj kvs => Normal (last_binding key kvs)
  | _ => Normal undefined
  end.

(** [x || d] *)
Definition or_else (x : option value) (d : value) : value :=
  match x with
  | Some v => if truthy v then v else d
  | None => d
  end.

(** *** JSON.stringify *)

Definition hex_digit (d : N) : N := (if d <? 10 then 48 + d else 87 + d)%N.

Definition unicode_escape (c : N) : jsstring :=
  [92; 117; hex_digit (c / 4096); hex_digit ((c / 256) mod 16);
   hex_digit ((c / 16) mod 16); hex_digit (c mod 16)]%N.

(** One code unit that is not the first half of a surrogate pair. *)
Definition quote_unit (c : N) : jsstring :=
  (if c =? 8 then [92; 98]
   else if c =? 9 then [92; 116]
   else if c =? 10 then [92; 110]
   else if c =? 12 then [92; 102]
   else if c =? 13 then [92; 114]
   else if c =? 34 then [92; 34]
   else if c =? 92 then [92; 92]
   else if (c <? 32) || is_high_surrogate c || is_low_surrogate c then unicode_escape c
   else [c])%N.

Fixpoint quote_units (s : jsstring) : jsstring :=
  match s with
  | [] => []
  | c :: s' =>
      if is_high_surrogate c then
        match s' with
        | d :: s'' =>
            if is_low_surrogate d then c :: d :: quote_units s''
            else quote_unit c ++ quote_units s'
        | [] => quote_unit c ++ quote_units s'
        end
      else quote_unit c ++ quote_units s'
  end.

Definition QuoteJSONString (s : jsstring) : jsstring :=
  34%N :: quote_units s ++ [34%N].

Fixpoint join_comma (parts : list jsstring) : jsstring :=
  match parts with
  | [] => []
  | [p] => p
  | p :: parts' => p ++ 44%N :: join_comma parts'
  end.

(** A Number that is not finite is printed as [null]. *)
Fixpoint JSON_stringify (v : value) : jsstring :=
  match v with
  | VNull => str "null"
  | VBool true => str "true"
  | VBool false => str "false"
  | VNum x =>
      if PrimFloat.is_nan x || PrimFloat.is_infinity x then str "null"
      else Number_toString x
  | VStr s => QuoteJSONString s
  | VArr l => 91%N :: join_comma (List.map JSON_stringify l) ++ [93%N]
  | VObj kvs =>
      123%N ::
      join_comma
        (List.map (λ kv, match kv with
                         | (k, x) => QuoteJSONString k ++ 58%N :: JSON_stringify x
                         end) kvs)
      ++ [125%N]
  end.

(** *** JSON.parse *)

Definition is_ws (c : N) : bool :=
  ((c =? 9) || (c =? 10) || (c =? 13) || (c =? 32))%N.

Fixpoint skip_ws (s : jsstring) : jsstring :=
  match s with
  | c :: s' => if is_ws c then skip_ws s' else s
  | [] => []
  end.

Definition hex_val (c : N) : option N :=
  (if (48 <=? c) && (c <=? 57) then Some (c - 48)
   else if (65 <=? c) && (c <=? 70) then Some (c - 55)
   else if (97 <=? c) && (c <=? 102) then Some (c - 87)
   else None)%N.

Definition hex4 (a b c d : N) : option N :=
  match hex_val a, hex_val b, hex_val c, hex_val d with
  | Some x, Some y, Some z, Some w => Some (((x * 16 + y) * 16 + z) * 16 + w)%N
  | _, _, _, _ => None
  end.

Definition simple_escape (e : N) : option N :=
  (if e =? 34 then Some 34
   else if e =? 92 then Some 92
   else if e =? 47 then Some 47
   else if e =? 98 then Some 8
   else if e =? 102 then Some 12
   else if e =? 110 then Some 10
   else if e =? 114 then Some 13
   else if e =? 116 then Some 9
   else None)%N.

Definition prepend (c : N) (r : option (jsstring * jsstring)) : option (jsstring * jsstring) :=
  match r with
  | Some (s, rest) => Some (c :: s, rest)
  | None => None
  end.

(** The characters of a string literal after its opening quote, up to
    and including the closing quote: the string and the rest of the input. *)
Fixpoint parse_chars (s : jsstring) : option (jsstring * jsstring) :=
  match s with
  | [] => None
  | c :: s1 =>
      if (c =? 34)%N then Some ([], s1)
      else if (c =? 92)%N then
        match s1 with
        | [] => None
        | e :: s2 =>
            if (e =? 117)%N then
              match s2 with
              | h1 :: h2 :: h3 :: h4 :: s3 =>
                  match hex4 h1 h2 h3 h4 with
                  | Some u => prepend u (parse_chars s3)
                  | None => None
                  end
              | _ => None
              end
            else
              match simple_escape e with
              | Some u => prepend u (parse_chars s2)
              | None => None
              end
        end
      else if (c <? 32)%N then None
      else prepend c (parse_chars s1)
  end.

(** A number literal: an optional minus sign; an integer part that is
    a single zero or starts with a non-zero digit; an optional fraction
    of a dot and at least one digit; an optional exponent of e or E, an
    optional sign and at least one digit.  Each part returns the text it
    read and the rest of the input. *)
Definition parse_int_part (s : jsstring) : option (jsstring * jsstring) :=
  match s with
  | c :: s' =>
      if (c =? 48)%N then Some ([c], s')
      else if is_digit c then
        match span_digits s' with
        | (ds, rest) => Some (c :: ds, rest)
        end
      else None
  | [] => None
  end.

Definition parse_frac_part (s : jsstring) : option (jsstring * jsstring) :=
  match s with
  | c :: s' =>
      if (c =? 46)%N then
        match span_digits s' with
        | ([], _) => None
        | (ds, rest) => Some (c :: ds, rest)
        end
      else Some ([], s)
  | [] => Some ([], [])
  end.

Definition parse_exp_digits (pre : jsstring) (s : jsstring) : option (jsstring * jsstring) :=
  match span_digits s with
  | ([], _) => None
  | (ds, rest) => Some (pre ++ ds, rest)
  end.

Definition parse_exp_part (s : jsstring) : option (jsstring * jsstring) :=
  match s with
  | c :: s' =>
      if ((c =? 101) || (c =? 69))%N then
        match s' with
        | g :: s'' =>
            if ((g =? 43) || (g =? 45))%N then parse_exp_digits [c; g] s''
            else parse_exp_digits [c] s'
        | [] => None
        end
      else Some ([], s)
  | [] => Some ([], [])
  end.

Definition parse_unsigned (s : jsstring) : option (jsstring * jsstring) :=
  match parse_int_part s with
  | Some (i, s1) =>
      match parse_frac_part s1 with
      | Some (f, s2) =>
          match parse_exp_part s2 with
          | Some (e, s3) => Some (i ++ f ++ e, s3)
          | None => None
          end
      | None => None
      end
  | None => None
  end.

Definition parse_number (s : jsstring) : option (jsstring * jsstring) :=
  match s with
  | c :: s' =>
      if (c =? 45)%N then
        match parse_unsigned s' with
        | Some (lit, rest) => Some (c :: lit, rest)
        | None => None
        end
      else parse_unsigned s
  | [] => None
  end.

(** [expect w s]: the input after the word [w], when [s] starts with it. *)
Fixpoint expect (w s : jsstring) : option jsstring :=
  match w with
  | [] => Some s
  | c :: w' =>
      match s with
      | d :: s' => if (c =? d)%N then expect w' s' else None
      | [] => None
      end
  end.

Inductive parsed (A : Type) : Type :=
| Parsed (a : A) (rest : jsstring)
| Malformed
| OutOfFuel.
Arguments Parsed {A} a rest.
Arguments Malformed {A}.
Arguments OutOfFuel {A}.

(** Recursive descent.  [parse_value] reads one value after optional
    white space; [parse_elements] reads the elements of a non-empty array
    up to and including [']']; [parse_members] the members of a non-empty
    object, in the order of the text, up to and including ['}']. *)
Fixpoint parse_value (fuel : nat) (s : jsstring) {struct fuel} : parsed value :=
  match fuel with
  | O => OutOfFuel
  | S fuel' =>
      match skip_ws s with
      | [] => Malformed
      | c :: s1 =>
          if (c =? 91)%N then
            match skip_ws s1 with
            | d :: s2 =>
                if (d =? 93)%N then Parsed (VArr []) s2
                else
                  match parse_elements fuel' s1 with
                  | Parsed l rest => Parsed (VArr l) rest
                  | Malformed => Malformed
                  | OutOfFuel => OutOfFuel
                  end
            | [] => Malformed
            end
          else if (c =? 123)%N then
            match skip_ws s1 with
            | d :: s2 =>
                if (d =? 125)%N then Parsed (VObj []) s2
                else
                  match parse_members fuel' s1 with
                  | Parsed kvs rest => Parsed (VObj (own_properties kvs)) rest
                  | Malformed => Malformed
                  | OutOfFuel => OutOfFuel
                  end
            | [] => Malformed
            end
          else if (c =? 34)%N then
            match parse_chars s1 with
            | Some (x, rest) => Parsed (VStr x) rest
            | None => Malformed
            end
          else if (c =? 116)%N then
            match expect (str "rue") s1 with
            | Some rest => Parsed (VBool true) rest
            | None => Malformed
            end
          else if (c =? 102)%N then
            match expect (str "alse") s1 with
            | Some rest => Parsed (VBool false) rest
            | None => Malformed
            end
          else if (c =? 110)%N then
            match expect (str "ull") s1 with
            | Some rest => Parsed VNull rest
            | None => Malformed
            end
          else
            match parse_number (c :: s1) with
            | Some (lit, rest) => Parsed (VNum (Number_of_literal lit)) rest
            | None => Malformed
            end
      end
  end

with parse_elements (fuel : nat) (s : jsstring) {struct fuel} : parsed (list value) :=
  match fuel with
  | O => OutOfFuel
  | S fuel' =>
      match parse_value fuel' s with
      | Parsed v r =>
          match skip_ws r with
          | c :: r' =>
              if (c =? 44)%N then
                match parse_elements fuel' r' with
                | Parsed l rest => Parsed (v :: l) rest
                | Malformed => Malformed
                | OutOfFuel => OutOfFuel
                end
              else if (c =? 93)%N then Parsed [v] r'
              else Malformed
          | [] => Malformed
          end
      | Malformed => Malformed
      | OutOfFuel => OutOfFuel
      end
  end

with parse_members (fuel : nat) (s : jsstring) {struct fuel} : parsed (list (jsstring * value)) :=
  match fuel with
  | O => OutOfFuel
  | S fuel' =>
      match skip_ws s with
      | q :: s1 =>
          if (q =? 34)%N then
            match parse_chars s1 with
            | Some (k, s2) =>
                match skip_ws s2 with
                | colon :: s3 =>
                    if (colon =? 58)%N then
                      match parse_value fuel' s3 with
                      | Parsed v r =>
                          match skip_ws r with
                          | c :: r' =>
                              if (c =? 44)%N then
                                match parse_members fuel' r' with
                                | Parsed kvs rest => Parsed ((k, v) :: kvs) rest
                                | Malformed => Malformed
                                | OutOfFuel => OutOfFuel
                                end
                              else if (c =? 125)%N then Parsed [(k, v)] r'
                              else Malformed
                          | [] => Malformed
                          end
                      | Malformed => Malformed
                      | OutOfFuel => OutOfFuel
                      end
                    else Malformed
                | [] => Malformed
                end
            | None => Malformed
            end
          else Malformed
      | [] => Malformed
      end
  end.

(** Fuel that never runs out (lemma [parse_fuel_enough]). *)
Definition parse_fuel (text : jsstring) : nat := S (2 * length text).

(** [JSON.parse text]: one value, white space around it, nothing else;
    anything else throws a [SyntaxError]. *)
Definition JSON_parse (text : jsstring) : completion value :=
  match parse_value (parse_fuel text) text with
  | Parsed v rest =>
      match skip_ws rest with
      | [] => Normal v
      | _ :: _ => Throw SyntaxError
      end
  | Malformed | OutOfFuel => Throw SyntaxError
  end.

End JS.

Import JS.

(** *** Numbers and Math.round *)

Module Number.

(** A count (a [size] or a [length]) as a Number; exact below 2^53. *)
Definition of_nat (n : nat) : float :=
  PrimFloat.of_uint63 (Uint63.of_Z (Z.of_nat n)).

(** An integer of magnitude at most 2^53 as a Number. *)
Definition of_Z (z : Z) : float :=
  if (0 <=? z)%Z then PrimFloat.of_uint63 (Uint63.of_Z z)
  else (- PrimFloat.of_uint63 (Uint63.of_Z (- z)))%float.

(** [Math.round x]: [x] itself when it is not finite or is integral
    already, otherwise the integer closest to [x], the larger one at a
    tie; a result of zero keeps the sign of [x].  For a finite
    [x = ± m * 2^e] with [e < 0] that integer is [floor (x + 1/2)],
    computed here on integers. *)
Definition Math_round (x : float) : float :=
  match Prim2SF x with
  | S754_finite s m e =>
      if (0 <=? e)%Z then x
      else
        let numerator := (if s then - (2 * Z.pos m) else 2 * Z.pos m)%Z in
        let r := ((numerator + 2 ^ (- e)) / 2 ^ (1 - e))%Z in
        if (r =? 0)%Z then (if s then (- 0)%float else 0%float)
        else of_Z r
  | _ => x
  end.

(** The integer that a Number is, when it is one. *)
Definition to_Z (x : float) : option Z :=
  match Prim2SF x with
  | S754_zero _ => Some 0%Z
  | S754_finite s m e =>
      let n := if s then Z.neg m else Z.pos m in
      if (0 <=? e)%Z then Some (n * 2 ^ e)%Z
      else if (Z.pos m mod 2 ^ (- e) =? 0)%Z then Some (n / 2 ^ (- e))%Z
      else None
  | _ => None
  end.

End Number.

(** ** The program *)

Module Script.

Inductive log_entry : Type :=
| LogLoaded (visited : nat)        (* console.log(`Loaded progress: ${n} sections visited`) *)
| LogError (e : js_error).         (* console.error('Error loading progress:', e) *)

(** What the progress tracker reads and writes: the [state] and
    [elements] objects of the script, [localStorage], the console and the
    clock. *)
Record World : Type := mkWorld {
  (** [state.visitedSections] *)
  visitedSections : list value;
  (** [localStorage], and the calls of [setItem] so far, oldest first *)
  localStorage : gmap (list N) (list N);
  storage_writes : list (list N * list N);
  (** [elements.sections.length] *)
  sections_length : nat;
  (** The [textContent] of [elements.completedSections],
      [elements.progressPercentage] (the number before the percent sign)
      and [elements.totalSections]; [None] until the script writes it. *)
  completedSections_text : option nat;
  progressPercentage_text : option float;
  totalSections_text : option nat;
  (** The intervals that [animateNumber] has started *)
  intervals : nat;
  console : list log_entry;
  (** [new Date().toISOString()]: the n-th call answers [Date_oracle n] *)
  Date_oracle : nat → list N;
  Date_calls : nat;
  (** [localStorage.setItem]: the n-th call (the first is call 0) is
      rejected with a [QuotaExceededError] when [quota_exceeded n] *)
  quota_exceeded : nat → bool
}.

Definition set_visitedSections (x : list value) (w : World) : World :=
  mkWorld x (localStorage w) (storage_writes w) (sections_length w)
    (completedSections_text w) (progressPercentage_text w) (totalSections_text w)
    (intervals w) (console w) (Date_oracle w) (Date_calls w) (quota_exceeded w).

Definition set_storage (m : gmap (list N) (list N)) (log : list (list N * list N))
    (w : World) : World :=
  mkWorld (visitedSections w) m log (sections_length w)
    (completedSections_text w) (progressPercentage_text w) (totalSections_text w)
    (intervals w) (console w) (Date_oracle w) (Date_calls w) (quota_exceeded w).

Definition set_completedSections_text (n : nat) (w : World) : World :=
  mkWorld (visitedSections w) (localStorage w) (storage_writes w) (sections_length w)
    (Some n) (progressPercentage_text w) (totalSections_text w)
    (intervals w) (console w) (Date_oracle w) (Date_calls w) (quota_exceeded w).

Definition set_progressPercentage_text (p : float) (w : World) : World :=
  mkWorld (visitedSections w) (localStorage w) (storage_writes w) (sections_length w)
    (completedSections_text w) (Some p) (totalSections_text w)
    (intervals w) (console w) (Date_oracle w) (Date_calls w) (quota_exceeded w).

Definition set_totalSections_text (n : nat) (w : World) : World :=
  mkWorld (visitedSections w) (localStorage w) (storage_writes w) (sections_length w)
    (completedSections_text w) (progressPercentage_text w) (Some n)
    (intervals w) (console w) (Date_oracle w) (Date_calls w) (quota_exceeded w).

Definition set_intervals (n : nat) (w : World) : World :=
  mkWorld (visitedSections w) (localStorage w) (storage_writes w) (sections_length w)
    (completedSections_text w) (progressPercentage_text w) (totalSections_text w)
    n (console w) (Date_oracle w) (Date_calls w) (quota_exceeded w).

Definition set_console (c : list log_entry) (w : World) : World :=
  mkWorld (visitedSections w) (localStorage w) (storage_writes w) (sections_length w)
    (completedSections_text w) (progressPercentage_text w) (totalSections_text w)
    (intervals w) c (Date_oracle w) (Date_calls w) (quota_exceeded w).

Definition set_Date_calls (n : nat) (w : World) : World :=
  mkWorld (visitedSections w) (localStorage w) (storage_writes w) (sections_length w)
    (completedSections_text w) (progressPercentage_text w) (totalSections_text w)
    (intervals w) (console w) (Date_oracle w) n (quota_exceeded w).

(** The page as the script finds it: [state.visitedSections] is
    [new Set()], nothing is written yet. *)
Definition initial_World (total : nat) (storage : gmap (list N) (list N))
    (oracle : nat → list N) (quota : nat → bool) : World :=
  mkWorld [] storage [] total None None None 0 [] oracle 0 quota.

(** A store that takes every write. *)
Definition unlimited : nat → bool := λ _, false.

(** A statement or call: it runs in a world, changes it, and completes
    normally with a result or throws. *)
Definition JS (A : Type) : Type := World → World * completion A.

Definition ret {A} (a : A) : JS A := λ w, (w, Normal a).

Definition bind {A B} (m : JS A) (k : A → JS B) : JS B :=
  λ w, match m w with
       | (w', Normal a) => k a w'
       | (w', Throw e) => (w', Throw e)
       end.

Definition lift {A} (c : completion A) : JS A := λ w, (w, c).

Definition throw {A} (e : js_error) : JS A := λ w, (w, Throw e).

Definition get {A} (f : World → A) : JS A := λ w, (w, Normal (f w)).

Definition modify (f : World → World) : JS unit := λ w, (f w, Normal tt).

(** [try { body } catch (e) { handler e }] *)
Definition try_catch {A} (body : JS A) (handler : js_error → JS A) : JS A :=
  λ w, match body w with
       | (w', Normal a) => (w', Normal a)
       | (w', Throw e) => handler e w'
       end.

Notation "'let*' x := m 'in' k" := (bind m (λ x, k))
  (at level 10, x name, m at level 100, k at level 200, only parsing).
Notation "m >> k" := (bind m (λ _, k))
  (at level 100, k at level 200, right associativity, only parsing).


(** *** Platform objects in the world *)

Definition localStorage_getItem (key : list N) : JS (option (list N)) :=
  get (λ w, localStorage w !! key).

(** [setItem] either takes the value or throws and leaves the store as
    it was. *)
Definition localStorage_setItem (key text : list N) : JS unit :=
  let* rejected := get (λ w, quota_exceeded w (length (storage_writes w))) in
  if rejected then
    modify (λ w, set_storage (localStorage w) (storage_writes w ++ [(key, text)]) w) >>
    throw QuotaExceededError
  else
    modify (λ w, set_storage (<[key := text]> (localStorage w))
                   (storage_writes w ++ [(key, text)]) w).

Definition new_Date_toISOString : JS (list N) :=
  let* now := get (λ w, Date_oracle w (Date_calls w)) in
  modify (λ w, set_Date_calls (S (Date_calls w)) w) >>
  ret now.

Definition console_log (n : nat) : JS unit :=
  modify (λ w, set_console (console w ++ [LogLoaded n]) w).

Definition console_error (e : js_error) : JS unit :=
  modify (λ w, set_console (console w ++ [LogError e]) w).

(** [CONFIG.STORAGE_KEYS.PROGRESS] *)
Definition PROGRESS : list N := str "webdev-docs-progress".

(** *** Functions of script.js *)

(** [animateNumber(element, target)] on [elements.completedSections]:
    [current] is [parseInt(element.textContent) || 0]; an interval is
    started only when it differs from [target]. *)
Definition animateNumber (target : nat) : JS (option value) :=
  let* text := get completedSections_text in
  let current := match text with Some n => n | None => 0 end in
  if negb (current =? target) then
    modify (λ w, set_intervals (S (intervals w)) w) >>
    ret undefined
  else ret undefined.

Definition updateProgressDisplay : JS (option value) :=
  let* completedCount := get (λ w, Set_size (visitedSections w)) in
  let* totalCount := get sections_length in
  let percentage :=
    Number.Math_round
      (Number.of_nat completedCount / Number.of_nat totalCount * 100)%float in
  modify (set_completedSections_text completedCount) >>
  modify (set_progressPercentage_text percentage) >>
  animateNumber completedCount >>
  ret undefined.

Definition saveUserProgress : JS (option value) :=
  let* elems := get (λ w, Array_from (visitedSections w)) in
  let* now := new_Date_toISOString in
  let progress :=
    VObj [(str "visitedSections", VArr elems); (str "lastVisited", VStr now)] in
  localStorage_setItem PROGRESS (JSON_stringify progress) >>
  ret undefined.

Definition loadUserProgress : JS (option value) :=
  let* savedProgress := localStorage_getItem PROGRESS in
  match savedProgress with
  | Some text =>
      if negb (jsstring_eqb text []) then
        try_catch
          (let* progress := lift (JSON_parse text) in
           let* sections := lift (get_property progress (str "visitedSections")) in
           let* loaded := lift (new_Set (or_else sections (VArr []))) in
           modify (set_visitedSections loaded) >>
           updateProgressDisplay >>
           let* size := get (λ w, Set_size (visitedSections w)) in
           console_log size >>
           ret undefined)
          (λ e, console_error e >> ret undefined)
      else ret undefined
  | None => ret undefined
  end.

Definition markSectionVisited (sectionId : value) : JS (option value) :=
  let* has := get (λ w, Set_has (visitedSections w) sectionId) in
  if negb has then
    modify (λ w, set_visitedSections (Set_add (visitedSections w) sectionId) w) >>
    updateProgressDisplay >>
    saveUserProgress >>
    ret undefined
  else ret undefined.


Definition attribute_value (a : option (list N)) : value :=
  match a with
  | Some s => VStr s
  | None => VNull
  end.


(** The [DOMContentLoaded] handler, as far as it touches the world of the
    tracker: the initialisers before [loadUserProgress] only read the page
    and register listeners and observers. *)
Definition DOMContentLoaded : JS (option value) :=
  loadUserProgress >>
  let* total := get sections_length in
  modify (set_totalSections_text total) >>
  ret undefined.

(** A sequence of calls [markSectionVisited(id)], each from an event of
    its own: a call that throws ends its own event and the later calls
    run all the same.  The completion is that of the first call that
    threw, and normal when none did. *)
Fixpoint mark_all (ids : list value) : JS (option value) :=
  match ids with
  | [] => ret undefined
  | x :: rest =>
      λ w, match markSectionVisited x w with
           | (w', r) =>
               match mark_all rest w' with
               | (w'', r') =>
                   (w'', match r with
                         | Throw e => Throw e
                         | Normal _ => r'
                         end)
               end
           end
  end.

End Script.

Import Script.

(** ** Vocabulary for the statements *)

Module Spec.

(** A value that can be a section identifier in this program: the [id]
    attribute of an element or the tail of an [href], so a string, or
    [null] for a missing attribute. *)
Definition identifier (v : value) : Prop :=
  match v with
  | VNull | VStr _ => True
  | _ => False
  end.

(** The number that [updateProgressDisplay] writes for [completed]
    visited sections out of [total]. *)
Definition percentage (completed total : nat) : float :=
  Number.Math_round (Number.of_nat completed / Number.of_nat total * 100)%float.

(** The rational number [m * 2^e], the value of a finite double with
    mantissa [m] and exponent [e]; and the bound [2^-52] on the relative
    error of one operation on normal doubles. *)
Definition dyadic (m e : Z) : Q := (inject_Z m * 2 ^ e)%Q.

Definition ulp_bound : Q := (1 # 2 ^ 52)%Q.



(** The world after [updateProgressDisplay]. *)
Definition displayed (w : World) : World :=
  set_progressPercentage_text
    (percentage (length (visitedSections w)) (sections_length w))
    (set_completedSections_text (length (visitedSections w)) w).

(** The text that [saveUserProgress] stores for a set and a date. *)
Definition record_text (sections : list value) (now : list N) : list N :=
  JSON_stringify
    (VObj [(str "visitedSections", VArr sections); (str "lastVisited", VStr now)]).

(** The store takes the next write, and every write. *)
Definition write_accepted (w : World) : Prop :=
  quota_exceeded w (length (storage_writes w)) = false.

Definition store_accepts (w : World) : Prop := ∀ n, quota_exceeded w n = false.

(** The world after [saveUserProgress], and its completion. *)
Definition saved (w : World) : World :=
  let text := record_text (visitedSections w) (Date_oracle w (Date_calls w)) in
  set_storage
    (if quota_exceeded w (length (storage_writes w)) then localStorage w
     else <[PROGRESS := text]> (localStorage w))
    (storage_writes w ++ [(PROGRESS, text)])
    (set_Date_calls (S (Date_calls w)) w).

Definition save_completion (w : World) : completion (option value) :=
  if quota_exceeded w (length (storage_writes w)) then Throw QuotaExceededError
  else Normal undefined.

(** What the [try] block of [loadUserProgress] computes from the stored
    text before it touches the state. *)
Definition decode (text : list N) : completion (list value) :=
  cbind (JSON_parse text) (λ progress,
  cbind (get_property progress (str "visitedSections")) (λ sections,
  new_Set (or_else sections (VArr [])))).


(** The [visitedSections] field of a parsed value: [undefined] unless
    the value is an object that has it. *)
Definition visitedSections_field (progress : value) : option value :=
  match progress with
  | VObj kvs => last_binding (str "visitedSections") kvs
  | _ => undefined
  end.

(** The world after the [try] block has replaced the set, and the world
    after the [catch] block. *)
Definition loaded (sections : list value) (w : World) : World :=
  let w' := displayed (set_visitedSections sections w) in
  set_console (console w' ++ [LogLoaded (length sections)]) w'.

Definition load_failed (e : js_error) (w : World) : World :=
  set_console (console w ++ [LogError e]) w.

(** A JSON text written with apostrophes for its double quotes. *)
Definition json_text (s : string) : list N :=
  List.map (λ c, if (c =? 39)%N then 34%N else c) (str s).




(** The operations of the specification's ProgressTracker that act on an
    initialised tracker, and the functions of the script that play them. *)
Inductive operation : Type :=
| markVisited (sectionId : value)
| save
| completionPercentage.

Definition run (op : operation) : JS (option value) :=
  match op with
  | markVisited sectionId => markSectionVisited sectionId
  | save => saveUserProgress
  | completionPercentage => updateProgressDisplay
  end.

End Spec.

Import Spec.
(** ** The rest of the page: theme, navigation, sidebar, keyboard *)

Module Portal.

(** An element of the document: its [id] attribute ([None] when it has
    none), whether it matches [.section], and its layout box. *)
Record Element : Type := mkElement {
  id_attribute : option (list N);
  is_section : bool;
  offsetTop : Z;
  offsetHeight : Z
}.

(** A link of [elements.navLinks]: its [href] attribute and whether its
    class list has [active]. *)
Record NavLink : Type := mkNavLink {
  href : option (list N);
  link_active : bool
}.

(** The callbacks that the modelled functions hand to [setTimeout]. *)
Inductive timer : Type :=
| ResetThemeTransform      (* elements.themeToggle.style.transform = '' *)
| ClearBodyAnimation.      (* document.body.style.animation = '' *)

Record Page : Type := mkPage {
  (** the tracker's part of the page: [state.visitedSections], [localStorage], the progress display *)
  world : World;
  (** [state.currentTheme] *)
  currentTheme : list N;
  (** [document.body.className] *)
  body_className : list N;
  (** the [textContent] of the [.theme-icon] element; [None] until the script writes it *)
  theme_icon : option (list N);
  (** [elements.themeToggle.style.transform] *)
  themeToggle_transform : list N;
  (** [state.currentSection] *)
  currentSection : list N;
  (** [elements.navLinks] *)
  navLinks : list NavLink;
  (** the [top] of each [window.scrollTo] so far, oldest first *)
  scrollTo_calls : list Z;
  (** the URL of each [history.pushState] so far, oldest first *)
  pushState_calls : list (list N);
  (** [state.isSidebarOpen] *)
  isSidebarOpen : bool;
  (** whether [elements.sidebar.classList] has [active] *)
  sidebar_active : bool;
  (** the [konamiCode] array *)
  konamiCode : list (list N);
  (** [document.body.style.animation] *)
  body_animation : list N;
  (** how often [activateEasterEgg] has logged its message *)
  egg_activations : nat;
  (** the [setTimeout] calls so far, each with its delay, oldest first *)
  timeouts : list (timer * nat);
  (** the number of the last valid percentage that the script has assigned to
      [elements.progressBar.style.width]; [None] until there is one *)
  progressBar_width : option float;
  (** the elements of the document, in tree order *)
  document_elements : list Element;
  (** [window.scrollY] *)
  window_scrollY : float;
  (** [window.innerWidth] *)
  window_innerWidth : Z;
  (** [window.innerHeight] *)
  window_innerHeight : Z;
  (** [document.documentElement.scrollHeight] *)
  scrollHeight : Z
}.

Definition set_world (x : World) (p : Page) : Page :=
  mkPage x (currentTheme p) (body_className p) (theme_icon p)
    (themeToggle_transform p) (currentSection p) (navLinks p)
    (scrollTo_calls p) (pushState_calls p) (isSidebarOpen p)
    (sidebar_active p) (konamiCode p) (body_animation p) (egg_activations p)
    (timeouts p) (progressBar_width p) (document_elements p)
    (window_scrollY p) (window_innerWidth p) (window_innerHeight p)
    (scrollHeight p).

Definition set_currentTheme (x : list N) (p : Page) : Page :=
  mkPage (world p) x (body_className p) (theme_icon p)
    (themeToggle_transform p) (currentSection p) (navLinks p)
    (scrollTo_calls p) (pushState_calls p) (isSidebarOpen p)
    (sidebar_active p) (konamiCode p) (body_animation p) (egg_activations p)
    (timeouts p) (progressBar_width p) (document_elements p)
    (window_scrollY p) (window_innerWidth p) (window_innerHeight p)
    (scrollHeight p).

Definition set_body_className (x : list N) (p : Page) : Page :=
  mkPage (world p) (currentTheme p) x (theme_icon p) (themeToggle_transform p)
    (currentSection p) (navLinks p) (scrollTo_calls p) (pushState_calls p)
    (isSidebarOpen p) (sidebar_active p) (konamiCode p) (body_animation p)
    (egg_activations p) (timeouts p) (progressBar_width p)
    (document_elements p) (window_scrollY p) (window_innerWidth p)
    (window_innerHeight p) (scrollHeight p).

Definition set_theme_icon (x : option (list N)) (p : Page) : Page :=
  mkPage (world p) (currentTheme p) (body_className p) x
    (themeToggle_transform p) (currentSection p) (navLinks p)
    (scrollTo_calls p) (pushState_calls p) (isSidebarOpen p)
    (sidebar_active p) (konamiCode p) (body_animation p) (egg_activations p)
    (timeouts p) (progressBar_width p) (document_elements p)
    (window_scrollY p) (window_innerWidth p) (window_innerHeight p)
    (scrollHeight p).

Definition set_themeToggle_transform (x : list N) (p : Page) : Page :=
  mkPage (world p) (currentTheme p) (body_className p) (theme_icon p) x
    (currentSection p) (navLinks p) (scrollTo_calls p) (pushState_calls p)
    (isSidebarOpen p) (sidebar_active p) (konamiCode p) (body_animation p)
    (egg_activations p) (timeouts p) (progressBar_width p)
    (document_elements p) (window_scrollY p) (window_innerWidth p)
    (window_innerHeight p) (scrollHeight p).

Definition set_currentSection (x : list N) (p : Page) : Page :=
  mkPage (world p) (currentTheme p) (body_className p) (theme_icon p)
    (themeToggle_transform p) x (navLinks p) (scrollTo_calls p)
    (pushState_calls p) (isSidebarOpen p) (sidebar_active p) (konamiCode p)
    (body_animation p) (egg_activations p) (timeouts p) (progressBar_width p)
    (document_elements p) (window_scrollY p) (window_innerWidth p)
    (window_innerHeight p) (scrollHeight p).

Definition set_navLinks (x : list NavLink) (p : Page) : Page :=
  mkPage (world p) (currentTheme p) (body_className p) (theme_icon p)
    (themeToggle_transform p) (currentSection p) x (scrollTo_calls p)
    (pushState_calls p) (isSidebarOpen p) (sidebar_active p) (konamiCode p)
    (body_animation p) (egg_activations p) (timeouts p) (progressBar_width p)
    (document_elements p) (window_scrollY p) (window_innerWidth p)
    (window_innerHeight p) (scrollHeight p).

Definition set_scrollTo_calls (x : list Z) (p : Page) : Page :=
  mkPage (world p) (currentTheme p) (body_className p) (theme_icon p)
    (themeToggle_transform p) (currentSection p) (navLinks p) x
    (pushState_calls p) (isSidebarOpen p) (sidebar_active p) (konamiCode p)
    (body_animation p) (egg_activations p) (timeouts p) (progressBar_width p)
    (document_elements p) (window_scrollY p) (window_innerWidth p)
    (window_innerHeight p) (scrollHeight p).

Definition set_pushState_calls (x : list (list N)) (p : Page) : Page :=
  mkPage (world p) (currentTheme p) (body_className p) (theme_icon p)
    (themeToggle_transform p) (currentSection p) (navLinks p)
    (scrollTo_calls p) x (isSidebarOpen p) (sidebar_active p) (konamiCode p)
    (body_animation p) (egg_activations p) (timeouts p) (progressBar_width p)
    (document_elements p) (window_scrollY p) (window_innerWidth p)
    (window_innerHeight p) (scrollHeight p).

Definition set_isSidebarOpen (x : bool) (p : Page) : Page :=
  mkPage (world p) (currentTheme p) (body_className p) (theme_icon p)
    (themeToggle_transform p) (currentSection p) (navLinks p)
    (scrollTo_calls p) (pushState_calls p) x (sidebar_active p) (konamiCode p)
    (body_animation p) (egg_activations p) (timeouts p) (progressBar_width p)
    (document_elements p) (window_scrollY p) (window_innerWidth p)
    (window_innerHeight p) (scrollHeight p).

Definition set_sidebar_active (x : bool) (p : Page) : Page :=
  mkPage (world p) (currentTheme p) (body_className p) (theme_icon p)
    (themeToggle_transform p) (currentSection p) (navLinks p)
    (scrollTo_calls p) (pushState_calls p) (isSidebarOpen p) x (konamiCode p)
    (body_animation p) (egg_activations p) (timeouts p) (progressBar_width p)
    (document_elements p) (window_scrollY p) (window_innerWidth p)
    (window_innerHeight p) (scrollHeight p).

Definition set_konamiCode (x : list (list N)) (p : Page) : Page :=
  mkPage (world p) (currentTheme p) (body_className p) (theme_icon p)
    (themeToggle_transform p) (currentSection p) (navLinks p)
    (scrollTo_calls p) (pushState_calls p) (isSidebarOpen p)
    (sidebar_active p) x (body_animation p) (egg_activations p) (timeouts p)
    (progressBar_width p) (document_elements p) (window_scrollY p)
    (window_innerWidth p) (window_innerHeight p) (scrollHeight p).

Definition set_body_animation (x : list N) (p : Page) : Page :=
  mkPage (world p) (currentTheme p) (body_className p) (theme_icon p)
    (themeToggle_transform p) (currentSection p) (navLinks p)
    (scrollTo_calls p) (pushState_calls p) (isSidebarOpen p)
    (sidebar_active p) (konamiCode p) x (egg_activations p) (timeouts p)
    (progressBar_width p) (document_elements p) (window_scrollY p)
    (window_innerWidth p) (window_innerHeight p) (scrollHeight p).

Definition set_egg_activations (x : nat) (p : Page) : Page :=
  mkPage (world p) (currentTheme p) (body_className p) (theme_icon p)
    (themeToggle_transform p) (currentSection p) (navLinks p)
    (scrollTo_calls p) (pushState_calls p) (isSidebarOpen p)
    (sidebar_active p) (konamiCode p) (body_animation p) x (timeouts p)
    (progressBar_width p) (document_elements p) (window_scrollY p)
    (window_innerWidth p) (window_innerHeight p) (scrollHeight p).

Definition set_timeouts (x : list (timer * nat)) (p : Page) : Page :=
  mkPage (world p) (currentTheme p) (body_className p) (theme_icon p)
    (themeToggle_transform p) (currentSection p) (navLinks p)
    (scrollTo_calls p) (pushState_calls p) (isSidebarOpen p)
    (sidebar_active p) (konamiCode p) (body_animation p) (egg_activations p) x
    (progressBar_width p) (document_elements p) (window_scrollY p)
    (window_innerWidth p) (window_innerHeight p) (scrollHeight p).

Definition set_progressBar_width (x : option float) (p : Page) : Page :=
  mkPage (world p) (currentTheme p) (body_className p) (theme_icon p)
    (themeToggle_transform p) (currentSection p) (navLinks p)
    (scrollTo_calls p) (pushState_calls p) (isSidebarOpen p)
    (sidebar_active p) (konamiCode p) (body_animation p) (egg_activations p)
    (timeouts p) x (document_elements p) (window_scrollY p)
    (window_innerWidth p) (window_innerHeight p) (scrollHeight p).

Definition set_document_elements (x : list Element) (p : Page) : Page :=
  mkPage (world p) (currentTheme p) (body_className p) (theme_icon p)
    (themeToggle_transform p) (currentSection p) (navLinks p)
    (scrollTo_calls p) (pushState_calls p) (isSidebarOpen p)
    (sidebar_active p) (konamiCode p) (body_animation p) (egg_activations p)
    (timeouts p) (progressBar_width p) x (window_scrollY p)
    (window_innerWidth p) (window_innerHeight p) (scrollHeight p).

Definition set_window_scrollY (x : float) (p : Page) : Page :=
  mkPage (world p) (currentTheme p) (body_className p) (theme_icon p)
    (themeToggle_transform p) (currentSection p) (navLinks p)
    (scrollTo_calls p) (pushState_calls p) (isSidebarOpen p)
    (sidebar_active p) (konamiCode p) (body_animation p) (egg_activations p)
    (timeouts p) (progressBar_width p) (document_elements p) x
    (window_innerWidth p) (window_innerHeight p) (scrollHeight p).

Definition set_window_innerWidth (x : Z) (p : Page) : Page :=
  mkPage (world p) (currentTheme p) (body_className p) (theme_icon p)
    (themeToggle_transform p) (currentSection p) (navLinks p)
    (scrollTo_calls p) (pushState_calls p) (isSidebarOpen p)
    (sidebar_active p) (konamiCode p) (body_animation p) (egg_activations p)
    (timeouts p) (progressBar_width p) (document_elements p)
    (window_scrollY p) x (window_innerHeight p) (scrollHeight p).

Definition set_window_innerHeight (x : Z) (p : Page) : Page :=
  mkPage (world p) (currentTheme p) (body_className p) (theme_icon p)
    (themeToggle_transform p) (currentSection p) (navLinks p)
    (scrollTo_calls p) (pushState_calls p) (isSidebarOpen p)
    (sidebar_active p) (konamiCode p) (body_animation p) (egg_activations p)
    (timeouts p) (progressBar_width p) (document_elements p)
    (window_scrollY p) (window_innerWidth p) x (scrollHeight p).

Definition set_scrollHeight (x : Z) (p : Page) : Page :=
  mkPage (world p) (currentTheme p) (body_className p) (theme_icon p)
    (themeToggle_transform p) (currentSection p) (navLinks p)
    (scrollTo_calls p) (pushState_calls p) (isSidebarOpen p)
    (sidebar_active p) (konamiCode p) (body_animation p) (egg_activations p)
    (timeouts p) (progressBar_width p) (document_elements p)
    (window_scrollY p) (window_innerWidth p) (window_innerHeight p) x.

(** A statement or call on the page. *)
Definition PageJS (A : Type) : Type := Page → Page * completion A.

Definition pret {A} (a : A) : PageJS A := λ p, (p, Normal a).

Definition pbind {A B} (m : PageJS A) (k : A → PageJS B) : PageJS B :=
  λ p, match m p with
       | (p', Normal a) => k a p'
       | (p', Throw e) => (p', Throw e)
       end.

Definition pthrow {A} (e : js_error) : PageJS A := λ p, (p, Throw e).

Definition pget {A} (f : Page → A) : PageJS A := λ p, (p, Normal (f p)).

Definition pmodify (f : Page → Page) : PageJS unit := λ p, (f p, Normal tt).

(** A function of the tracker, run on the tracker's part of the page. *)
Definition in_world {A} (m : JS A) : PageJS A :=
  λ p, match m (world p) with
       | (w', r) => (set_world w' p, r)
       end.

Notation "'let+' x := m 'in' k" := (pbind m (λ x, k))
  (at level 10, x name, m at level 100, k at level 200, only parsing).
Notation "m >>> k" := (pbind m (λ _, k))
  (at level 100, k at level 200, right associativity, only parsing).

Fixpoint pforEach {A} (l : list A) (f : A → PageJS (option value)) : PageJS (option value) :=
  match l with
  | [] => pret undefined
  | x :: l' => f x >>> pforEach l' f
  end.

Definition setTimeout (callback : timer) (delay : nat) : PageJS unit :=
  pmodify (λ p, set_timeouts (timeouts p ++ [(callback, delay)]) p).

(** *** Constants of the script *)

Definition THEME : list N := str "webdev-docs-theme".
Definition DARK : list N := str "dark-theme".
Definition LIGHT : list N := str "light-theme".
Definition ANIMATION_DURATION : nat := 300.
Definition SCROLL_OFFSET : Z := 100.

(** The crescent moon (U+1F319) and the sun with its variation selector
    (U+2600 U+FE0F), in UTF-16. *)
Definition MOON : list N := [55356; 57113]%N.
Definition SUN : list N := [9728; 65039]%N.

(** *** Theme *)

Definition updateThemeIcon : PageJS (option value) :=
  let+ current := pget currentTheme in
  pmodify (set_theme_icon (Some (if jsstring_eqb current DARK then MOON else SUN))) >>>
  pret undefined.

Definition initializeTheme : PageJS (option value) :=
  let+ stored := in_world (localStorage_getItem THEME) in
  let savedTheme :=
    match stored with
    | Some s => if jsstring_eqb s [] then DARK else s
    | None => DARK
    end in
  pmodify (set_currentTheme savedTheme) >>>
  pmodify (set_body_className savedTheme) >>>
  updateThemeIcon >>>
  pret undefined.

Definition toggleTheme : PageJS (option value) :=
  let+ current := pget currentTheme in
  pmodify (set_currentTheme (if jsstring_eqb current DARK then LIGHT else DARK)) >>>
  let+ current := pget currentTheme in
  pmodify (set_body_className current) >>>
  in_world (localStorage_setItem THEME current) >>>
  updateThemeIcon >>>
  pmodify (set_themeToggle_transform (str "scale(1.2) rotate(360deg)")) >>>
  setTimeout ResetThemeTransform ANIMATION_DURATION >>>
  pret undefined.

(** *** Sidebar *)

Definition toggleSidebar : PageJS (option value) :=
  pmodify (λ p, set_isSidebarOpen (negb (isSidebarOpen p)) p) >>>
  let+ open := pget isSidebarOpen in
  (if open then pmodify (set_sidebar_active true)
   else pmodify (set_sidebar_active false)) >>>
  pret undefined.

Definition closeSidebar : PageJS (option value) :=
  pmodify (set_isSidebarOpen false) >>>
  pmodify (set_sidebar_active false) >>>
  pret undefined.

(** *** Navigation *)

(** [elements.sections]: the elements that match [.section], in tree order. *)
Definition sections (p : Page) : list Element :=
  List.filter is_section (document_elements p).

(** [element.id]: the attribute, or the empty string. *)
Definition id_property (e : Element) : list N :=
  match id_attribute e with
  | Some s => s
  | None => []
  end.

(** [document.getElementById(id)]: the first element with that [id]
    attribute; no element has the empty id. *)
Definition getElementById (id : list N) (p : Page) : option Element :=
  if jsstring_eqb id [] then None
  else List.find (λ e, match id_attribute e with
                       | Some s => jsstring_eqb s id
                       | None => false
                       end) (document_elements p).

Definition scrollToSection (sectionId : list N) : PageJS (option value) :=
  let+ section := pget (getElementById sectionId) in
  match section with
  | Some element =>
      let top := (offsetTop element - SCROLL_OFFSET)%Z in
      pmodify (λ p, set_scrollTo_calls (scrollTo_calls p ++ [top]) p) >>>
      pmodify (set_currentSection sectionId) >>>
      pret undefined
  | None => pret undefined
  end.

(** [array.findIndex(f)], with -1 for no match. *)
Fixpoint findIndex {A} (f : A → bool) (l : list A) : Z :=
  match l with
  | [] => (-1)%Z
  | x :: l' =>
      if f x then 0%Z
      else match findIndex f l' with
           | Z.neg _ => (-1)%Z
           | i => (i + 1)%Z
           end
  end.

(** [array[i]] for a Number [i]; [None] stands for [NaN] and for every
    index that is not one of the array's. *)
Definition at_index {A} (l : list A) (i : option Z) : option A :=
  match i with
  | Some z => if (0 <=? z)%Z then l !! Z.to_nat z else None
  | None => None
  end.

Definition navigateSection (direction : list N) : PageJS (option value) :=
  let+ all := pget sections in
  let+ current := pget currentSection in
  let currentIndex := findIndex (λ section, jsstring_eqb (id_property section) current) all in
  let length := Z.of_nat (List.length all) in
  let newIndex :=
    if jsstring_eqb direction (str "next") then
      (if (length =? 0)%Z then None else Some ((currentIndex + 1) mod length))%Z
    else
      Some (if (currentIndex - 1 <? 0) then length - 1 else currentIndex - 1)%Z in
  match at_index all newIndex with
  | Some newSection => scrollToSection (id_property newSection)
  | None => pret undefined
  end.


(** The band of scroll positions that [updateActiveNavLink] gives to a
    section. *)
Definition in_band (scrollY : float) (section : Element) : bool :=
  let sectionTop := (offsetTop section - SCROLL_OFFSET - 50)%Z in
  let sectionBottom := (sectionTop + offsetHeight section)%Z in
  ((Number.of_Z sectionTop <=? scrollY) && (scrollY <? Number.of_Z sectionBottom))%float.

(** The local [currentSection] of [updateActiveNavLink] after the loop:
    it starts as the empty string and takes [getAttribute('id')] of every
    section whose band holds the scroll position. *)
Definition section_at (scrollY : float) (all : list Element) : value :=
  fold_left (λ current section,
               if in_band scrollY section then attribute_value (id_attribute section)
               else current) all (VStr []).

Definition updateActiveNavLink : PageJS (option value) :=
  let+ all := pget sections in
  let+ scrollY := pget window_scrollY in
  let currentSection' := section_at scrollY all in
  let+ previous := pget currentSection in
  match currentSection' with
  | VStr id =>
      if negb (jsstring_eqb id []) && negb (jsstring_eqb id previous) then
        pmodify (set_currentSection id) >>>
        pmodify (λ p, set_navLinks
                        (List.map (λ l, mkNavLink (href l)
                                          (match href l with
                                           | Some h => jsstring_eqb h (35%N :: id)
                                           | None => false
                                           end)) (navLinks p)) p) >>>
        in_world (markSectionVisited (VStr id))
      else pret undefined
  | _ => pret undefined
  end.

(** [throttle(func, delay)]: the returned function, called with [args]
    when the clock reads [now]; its closure holds [lastCall]. *)
Definition throttle {S A} (func : A → S → S * completion (option value)) (delay : Z)
    (now : Z) (args : A) (state : Z * S) : (Z * S) * completion (option value) :=
  match state with
  | (lastCall, s) =>
      if (now - lastCall <? delay)%Z then ((lastCall, s), Normal undefined)
      else match func args s with
           | (s', r) => ((now, s'), r)
           end
  end.

(** *** Scroll progress bar *)

(** What an assignment to [style.width] of the text of a Number and a
    percent sign does: a width is a percentage that is not negative, so
    the texts "NaN%", "Infinity%" and those with a minus sign are no
    value of the property and the assignment is dropped; the negative
    zero is printed as "0". *)
Definition valid_width (x : float) : bool :=
  ((0 <=? x) && (x <? PrimFloat.infinity))%float.

Definition assign_width (x : float) : PageJS unit :=
  if valid_width x then
    pmodify (set_progressBar_width (Some (if PrimFloat.is_zero x then 0%float else x)))
  else pret tt.

Definition updateScrollProgress : PageJS (option value) :=
  let+ windowHeight := pget window_innerHeight in
  let+ total := pget scrollHeight in
  let documentHeight := (total - windowHeight)%Z in
  let+ scrollTop := pget window_scrollY in
  let scrollPercentage := (scrollTop / Number.of_Z documentHeight * 100)%float in
  assign_width scrollPercentage >>>
  pret undefined.

(** *** The key sequence *)

Definition konamiSequence : list (list N) :=
  [str "ArrowUp"; str "ArrowUp"; str "ArrowDown"; str "ArrowDown"; str "ArrowLeft";
   str "ArrowRight"; str "ArrowLeft"; str "ArrowRight"; str "b"; str "a"].

(** [array.slice(-n)]: the last [n] elements. *)
Definition slice_last {A} (n : nat) (l : list A) : list A :=
  drop (List.length l - n) l.

Definition activateEasterEgg : PageJS (option value) :=
  pmodify (set_body_animation (str "rainbow 2s ease infinite")) >>>
  setTimeout ClearBodyAnimation 5000 >>>
  pmodify (λ p, set_egg_activations (S (egg_activations p)) p) >>>
  pret undefined.

(** The second [keydown] listener of the document, for a key [e.key]. *)
Definition konami_keydown (key : list N) : PageJS (option value) :=
  pmodify (λ p, set_konamiCode (konamiCode p ++ [key]) p) >>>
  pmodify (λ p, set_konamiCode (slice_last 10 (konamiCode p)) p) >>>
  let+ code := pget konamiCode in
  if jsstring_eqb (join_comma code) (join_comma konamiSequence) then
    activateEasterEgg >>>
    pmodify (set_konamiCode []) >>>
    pret undefined
  else pret undefined.

(** The page as the script finds it. *)
Definition initial_Page (w : World) (elements : list Element) (links : list NavLink) : Page :=
  mkPage w (str "dark-theme") [] None [] (str "introduction") links [] [] false false
    [] [] 0 [] None elements 0%float 1024 768 768.

End Portal.

Import Portal.
(** ** Vocabulary for the further properties *)

Module Props.

(** Visits of the page, one after the other: each starts a fresh page
    on the storage that the visit before left, runs the
    [DOMContentLoaded] handler and then marks the identifiers of the
    visit.  The result is the world after the handler of one last
    visit. *)
Fixpoint revisit (total : nat) (oracle : nat → list N) (quota : nat → bool)
    (storage : gmap (list N) (list N)) (visits : list (list value)) : World :=
  match visits with
  | [] => (DOMContentLoaded (initial_World total storage oracle quota)).1
  | ids :: rest =>
      revisit total oracle quota
        (localStorage
           (mark_all ids
              (DOMContentLoaded (initial_World total storage oracle quota)).1).1)
        rest
  end.

(** The storage holds the record of the set [s], or nothing when [s] is
    empty. *)
Definition stored_for (s : list value) (storage : gmap (list N) (list N)) : Prop :=
  (storage !! PROGRESS = None ∧ s = [])
  ∨ ∃ now, storage !! PROGRESS = Some (record_text s now).

(** No two elements of the list are the same value for a [Set]. *)
Definition Set_wf (s : list value) : Prop :=
  ∀ i j x y, s !! i = Some x → s !! j = Some y → i ≠ j → sameValueZero x y = false.

(** The progress display shows the size of the set and its percentage. *)
Definition display_in_sync (w : World) : Prop :=
  completedSections_text w = Some (Set_size (visitedSections w))
  ∧ progressPercentage_text w
    = Some (percentage (Set_size (visitedSections w)) (sections_length w)).

(** A function that only records the argument of each of its runs. *)
Definition record_run (t : Z) (log : list Z) : list Z * completion (option value) :=
  (log ++ [t], Normal undefined).

(** The throttled [record_run], called once at each of the given clock
    readings with that reading as its argument: the closure's
    [lastCall] and the log afterwards. *)
Fixpoint throttled_calls (delay : Z) (times : list Z) (state : Z * list Z) : Z * list Z :=
  match times with
  | [] => state
  | now :: rest =>
      throttled_calls delay rest (throttle record_run delay now now state).1
  end.

(** Each element is at least [delay] after the one before it, the first
    at least [delay] after [start]. *)
Fixpoint spaced (delay start : Z) (times : list Z) : Prop :=
  match times with
  | [] => True
  | t :: rest => (delay <= t - start)%Z ∧ spaced delay t rest
  end.

(** A sequence of key presses, handled one after the other. *)
Definition type_keys (keys : list (list N)) : PageJS (option value) :=
  pforEach keys konami_keydown.

(** State, body class, stored value and icon agree on a theme. *)
Definition theme_in_sync (p : Page) : Prop :=
  body_className p = currentTheme p
  ∧ localStorage (world p) !! THEME = Some (currentTheme p)
  ∧ theme_icon p
    = Some (if jsstring_eqb (currentTheme p) DARK then MOON else SUN).

(** Every section of the page has a non-empty [id]. *)
Definition sections_have_ids (p : Page) : Prop :=
  Forall (λ e, id_property e ≠ []) (sections p).

(** The theme that [toggleTheme] switches to. *)
Definition other_theme (theme : list N) : list N :=
  if jsstring_eqb theme DARK then LIGHT else DARK.

Definition icon_of (theme : list N) : list N :=
  if jsstring_eqb theme DARK then MOON else SUN.

(** The page after a [toggleTheme] whose write the store takes. *)
Definition toggled (p : Page) : Page :=
  set_timeouts (timeouts p ++ [(ResetThemeTransform, ANIMATION_DURATION)])
    (set_themeToggle_transform (str "scale(1.2) rotate(360deg)")
       (set_theme_icon (Some (icon_of (other_theme (currentTheme p))))
          (set_world
             (set_storage
                (<[THEME := other_theme (currentTheme p)]> (localStorage (world p)))
                (storage_writes (world p) ++ [(THEME, other_theme (currentTheme p))])
                (world p))
             (set_body_className (other_theme (currentTheme p))
                (set_currentTheme (other_theme (currentTheme p)) p))))).

(** The page after a [toggleTheme] whose write the store rejects: the
    function has ended at [setItem]. *)
Definition toggle_rejected (p : Page) : Page :=
  set_world
    (set_storage (localStorage (world p))
       (storage_writes (world p) ++ [(THEME, other_theme (currentTheme p))])
       (world p))
    (set_body_className (other_theme (currentTheme p))
       (set_currentTheme (other_theme (currentTheme p)) p)).

(** The theme that [initializeTheme] takes from storage. *)
Definition saved_theme (storage : gmap (list N) (list N)) : list N :=
  match storage !! THEME with
  | Some s => if jsstring_eqb s [] then DARK else s
  | None => DARK
  end.

(** The page after [initializeTheme]. *)
Definition themed (p : Page) : Page :=
  set_theme_icon (Some (icon_of (saved_theme (localStorage (world p)))))
    (set_body_className (saved_theme (localStorage (world p)))
       (set_currentTheme (saved_theme (localStorage (world p))) p)).

(** The index that [navigateSection] computes for the current section,
    and the indices it moves to. *)
Definition current_index (p : Page) : Z :=
  findIndex (λ section, jsstring_eqb (id_property section) (currentSection p))
    (sections p).

Definition next_index (i n : Z) : Z := ((i + 1) mod n)%Z.

Definition prev_index (i n : Z) : Z := (if i - 1 <? 0 then n - 1 else i - 1)%Z.

(** The [id] properties of the sections, in order. *)
Definition section_ids (p : Page) : list (list N) := id_property <$> sections p.

(** The page after a [scrollToSection] that found [element]. *)
Definition scrolled_to (sectionId : list N) (element : Element) (p : Page) : Page :=
  set_currentSection sectionId
    (set_scrollTo_calls (scrollTo_calls p ++ [(offsetTop element - SCROLL_OFFSET)%Z]) p).

(** The page after [closeSidebar]. *)
Definition closed (p : Page) : Page :=
  set_sidebar_active false (set_isSidebarOpen false p).


(** The page that [updateActiveNavLink] has made for the section [id]
    when it reaches the call of [markSectionVisited]. *)
Definition activated (id : list N) (p : Page) : Page :=
  set_navLinks
    (List.map (λ l, mkNavLink (href l)
                      (match href l with
                       | Some h => jsstring_eqb h (35%N :: id)
                       | None => false
                       end)) (navLinks p))
    (set_currentSection id p).

(** A small page: a sidebar, three sections, four links (one to an
    anchor that does not exist, one without [href]). *)
Definition sample_elements : list Element :=
  [mkElement (Some (str "sidebar")) false 0 900;
   mkElement (Some (str "introduction")) true 0 600;
   mkElement (Some (str "setup")) true 600 400;
   mkElement (Some (str "css-basics")) true 1000 800].

Definition sample_links : list NavLink :=
  [mkNavLink (Some (str "#introduction")) true;
   mkNavLink (Some (str "#setup")) false;
   mkNavLink (Some (str "#missing")) false;
   mkNavLink None false].

Definition sample_page : Page :=
  initial_Page (initial_World 3 ∅ (λ _, str "2024-01-15T10:30:00.000Z") unlimited)
    sample_elements sample_links.

(** The same page with a store that takes no write. *)
Definition full_store : nat → bool := λ _, true.

Definition sample_page_full : Page :=
  initial_Page (initial_World 3 ∅ (λ _, str "2024-01-15T10:30:00.000Z") full_store)
    sample_elements sample_links.

(** No comma among the code units of a key. *)
Definition comma_free (key : list N) : Prop := 44%N ∉ key.

(** The page after [activateEasterEgg] and the reset of the key buffer. *)
Definition egg_fired (p : Page) : Page :=
  set_konamiCode []
    (set_egg_activations (S (egg_activations p))
       (set_timeouts (timeouts p ++ [(ClearBodyAnimation, 5000)])
          (set_body_animation (str "rainbow 2s ease infinite") p))).

End Props.

Import Props.

(** ** Sets *)

Lemma jsstring_eqb_eq (s t : list N) : jsstring_eqb s t = true ↔ s = t.
Proof. unfold jsstring_eqb. apply bool_decide_eq_true. Qed.

Lemma sameValueZero_eq (a b : value) :
  identifier a → sameValueZero a b = true → a = b.
Proof.
  destruct a, b; simpl; try discriminate; try done.
  intros _ H%jsstring_eqb_eq. by subst.
Qed.

Lemma sameValueZero_refl (a : value) : identifier a → sameValueZero a a = true.
Proof.
  destruct a; simpl; intros H; try done. by apply jsstring_eqb_eq.
Qed.

Lemma Set_key_identifier (v : value) : identifier v → Set_key v = v.
Proof. by destruct v. Qed.

Lemma Set_has_elem (s : list value) (v : value) :
  identifier v → Set_has s v = true → v ∈ s.
Proof.
  unfold Set_has. rewrite existsb_exists. intros Hid (x & Hx & Hv).
  apply sameValueZero_eq in Hv; [|done]. subst. by apply list_elem_of_In.
Qed.

Lemma Set_has_identifier (s : list value) (v : value) :
  identifier v → Set_has s v = true ↔ v ∈ s.
Proof.
  intros Hp. split; [by apply Set_has_elem|].
  intros Hin. unfold Set_has. rewrite existsb_exists.
  exists v. split; [by apply list_elem_of_In | by apply sameValueZero_refl].
Qed.

Lemma Set_has_fresh (s : list value) (v : value) :
  identifier v → v ∉ s → Set_has s v = false.
Proof.
  intros Hid Hnot. destruct (Set_has s v) eqn:E; [|done].
  by apply Set_has_elem in E.
Qed.

Lemma Set_add_subseteq (s : list value) (v : value) : s ⊆ Set_add s v.
Proof.
  unfold Set_add. destruct (Set_has s v); [done|].
  intros x Hx. apply elem_of_app. by left.
Qed.

Lemma elem_of_Set_add (s : list value) (v x : value) :
  identifier v → x ∈ Set_add s v ↔ x ∈ s ∨ x = v.
Proof.
  intros Hp. unfold Set_add. destruct (Set_has s v) eqn:Hhas.
  - apply Set_has_elem in Hhas; [|done]. split; [by left | by intros [?| ->]].
  - rewrite (Set_key_identifier _ Hp), elem_of_app, list_elem_of_singleton. done.
Qed.

Lemma Set_add_NoDup (s : list value) (v : value) :
  identifier v → NoDup s → NoDup (Set_add s v).
Proof.
  intros Hp Hs. unfold Set_add. destruct (Set_has s v) eqn:Hhas; [done|].
  rewrite (Set_key_identifier _ Hp).
  apply NoDup_app. split_and!; [done | | apply NoDup_singleton].
  intros x Hx Hx'. apply list_elem_of_singleton in Hx'. subst.
  apply (Set_has_identifier _ _ Hp) in Hx. congruence.
Qed.

Lemma Set_add_fresh (s : list value) (v : value) :
  Set_has s v = false → Set_add s v = s ++ [Set_key v].
Proof. unfold Set_add. by intros ->. Qed.

Lemma Set_has_add (s : list value) (v : value) :
  identifier v → Set_has (Set_add s v) v = true.
Proof. intros Hp. apply (Set_has_identifier _ _ Hp), elem_of_Set_add; auto. Qed.

(** A list without duplicates of identifiers is the [Set] built from
    it, in the same order. *)
Lemma fold_Set_add_app (l s : list value) :
  Forall identifier l → NoDup (s ++ l) → fold_left Set_add l s = s ++ l.
Proof.
  revert s. induction l as [|v l IH]; intros s Hp Hnd; simpl.
  - by rewrite app_nil_r.
  - apply Forall_cons in Hp as [Hv Hl].
    assert (Set_has s v = false) as Hfresh.
    { apply Set_has_fresh; [done|]. intros E.
      apply NoDup_app in Hnd as (_ & Hd & _). apply (Hd v E). left. }
    rewrite (Set_add_fresh _ _ Hfresh), (Set_key_identifier _ Hv).
    rewrite IH; [by rewrite <- app_assoc | done | by rewrite <- app_assoc].
Qed.

Lemma Set_of_NoDup (l : list value) :
  Forall identifier l → NoDup l → fold_left Set_add l [] = l.
Proof. intros Hp Hnd. by rewrite fold_Set_add_app. Qed.

(** ** The functions of the script, as world transformers *)

Lemma updateProgressDisplay_eq (w : World) :
  updateProgressDisplay w = (displayed w, Normal undefined).
Proof.
  unfold updateProgressDisplay, animateNumber, bind, get, modify, ret. simpl.
  by rewrite Nat.eqb_refl.
Qed.

Lemma saveUserProgress_eq (w : World) :
  saveUserProgress w = (saved w, save_completion w).
Proof.
  unfold saveUserProgress, saved, save_completion, localStorage_setItem,
    new_Date_toISOString, bind, get, modify, throw, ret.
  cbv beta iota zeta.
  change (quota_exceeded (set_Date_calls ?n w)) with (quota_exceeded w).
  change (storage_writes (set_Date_calls ?n w)) with (storage_writes w).
  destruct (quota_exceeded w (length (storage_writes w))); reflexivity.
Qed.

Lemma markSectionVisited_member (x : value) (w : World) :
  Set_has (visitedSections w) x = true →
  markSectionVisited x w = (w, Normal undefined).
Proof.
  intros H. unfold markSectionVisited, bind, get. simpl. by rewrite H.
Qed.

(** A call that adds [x]: the set and the display are updated, then the
    record is written; the completion is that of the write. *)
Lemma markSectionVisited_fresh (x : value) (w : World) :
  Set_has (visitedSections w) x = false →
  markSectionVisited x w =
    (saved (displayed (set_visitedSections (visitedSections w ++ [Set_key x]) w)),
     save_completion w).
Proof.
  intros H. unfold markSectionVisited, bind at 1, get at 1. rewrite H. cbn [negb].
  unfold bind at 1, modify at 1. rewrite (Set_add_fresh _ _ H).
  unfold bind at 1. rewrite updateProgressDisplay_eq.
  unfold bind at 1. rewrite saveUserProgress_eq.
  unfold save_completion, displayed.
  change (quota_exceeded (set_progressPercentage_text ?a (set_completedSections_text ?b
            (set_visitedSections ?c w)))) with (quota_exceeded w).
  change (storage_writes (set_progressPercentage_text ?a (set_completedSections_text ?b
            (set_visitedSections ?c w)))) with (storage_writes w).
  destruct (quota_exceeded w (length (storage_writes w))); reflexivity.
Qed.

(** The fields of the world after a call that added an element. *)
Lemma added_fields (s : list value) (w : World) :
  visitedSections (saved (displayed (set_visitedSections s w))) = s
  ∧ completedSections_text (saved (displayed (set_visitedSections s w)))
    = Some (length s)
  ∧ progressPercentage_text (saved (displayed (set_visitedSections s w)))
    = Some (percentage (length s) (sections_length w))
  ∧ storage_writes (saved (displayed (set_visitedSections s w)))
    = storage_writes w ++ [(PROGRESS, record_text s (Date_oracle w (Date_calls w)))]
  ∧ localStorage (saved (displayed (set_visitedSections s w)))
    = (if quota_exceeded w (length (storage_writes w)) then localStorage w
       else <[PROGRESS := record_text s (Date_oracle w (Date_calls w))]> (localStorage w))
  ∧ Date_calls (saved (displayed (set_visitedSections s w))) = S (Date_calls w)
  ∧ intervals (saved (displayed (set_visitedSections s w))) = intervals w
  ∧ sections_length (saved (displayed (set_visitedSections s w))) = sections_length w
  ∧ quota_exceeded (saved (displayed (set_visitedSections s w))) = quota_exceeded w
  ∧ console (saved (displayed (set_visitedSections s w))) = console w
  ∧ Date_oracle (saved (displayed (set_visitedSections s w))) = Date_oracle w
  ∧ totalSections_text (saved (displayed (set_visitedSections s w)))
    = totalSections_text w.
Proof. split_and!; reflexivity. Qed.

Lemma markSectionVisited_sections (x : value) (w : World) :
  visitedSections (markSectionVisited x w).1 = Set_add (visitedSections w) x.
Proof.
  destruct (Set_has (visitedSections w) x) eqn:H.
  - rewrite (markSectionVisited_member _ _ H). unfold Set_add. by rewrite H.
  - rewrite (markSectionVisited_fresh _ _ H). by rewrite (Set_add_fresh _ _ H).
Qed.

(** The only exception of [markSectionVisited] is the one of the
    store, and only a call that adds to the set can meet it. *)
Lemma markSectionVisited_completion (x : value) (w : World) :
  (markSectionVisited x w).2
  = if Set_has (visitedSections w) x then Normal undefined else save_completion w.
Proof.
  destruct (Set_has (visitedSections w) x) eqn:H.
  - by rewrite (markSectionVisited_member _ _ H).
  - by rewrite (markSectionVisited_fresh _ _ H).
Qed.

Lemma markSectionVisited_quota (x : value) (w : World) :
  quota_exceeded (markSectionVisited x w).1 = quota_exceeded w.
Proof.
  destruct (Set_has (visitedSections w) x) eqn:H.
  - by rewrite (markSectionVisited_member _ _ H).
  - by rewrite (markSectionVisited_fresh _ _ H).
Qed.

Lemma markSectionVisited_completes (x : value) (w : World) :
  store_accepts w → (markSectionVisited x w).2 = Normal undefined.
Proof.
  intros Hq. rewrite markSectionVisited_completion. unfold save_completion.
  rewrite Hq. by destruct (Set_has _ _).
Qed.

Lemma mark_all_step (x : value) (ids : list value) (w : World) :
  mark_all (x :: ids) w
  = ((mark_all ids (markSectionVisited x w).1).1,
     match (markSectionVisited x w).2 with
     | Throw e => Throw e
     | Normal _ => (mark_all ids (markSectionVisited x w).1).2
     end).
Proof.
  change (mark_all (x :: ids) w)
    with (match markSectionVisited x w with
          | (w', r) =>
              match mark_all ids w' with
              | (w'', r') =>
                  (w'', match r with
                        | Throw e => Throw e
                        | Normal _ => r'
                        end)
              end
          end).
  destruct (markSectionVisited x w) as [w' r]. cbn [fst snd].
  by destruct (mark_all ids w').
Qed.

Lemma mark_all_cons (x : value) (ids : list value) (w : World) :
  (mark_all (x :: ids) w).1 = (mark_all ids (markSectionVisited x w).1).1.
Proof. by rewrite mark_all_step. Qed.

Lemma mark_all_cons_completion (x : value) (ids : list value) (w : World) :
  (mark_all (x :: ids) w).2
  = match (markSectionVisited x w).2 with
    | Throw e => Throw e
    | Normal _ => (mark_all ids (markSectionVisited x w).1).2
    end.
Proof. by rewrite mark_all_step. Qed.

Lemma mark_all_quota (ids : list value) (w : World) :
  quota_exceeded (mark_all ids w).1 = quota_exceeded w.
Proof.
  revert w. induction ids as [|x ids IH]; intros w; [done|].
  by rewrite mark_all_cons, IH, markSectionVisited_quota.
Qed.

Lemma mark_all_sections (ids : list value) (w : World) :
  visitedSections (mark_all ids w).1 = fold_left Set_add ids (visitedSections w).
Proof.
  revert w. induction ids as [|x ids IH]; intros w; [done|].
  rewrite mark_all_cons. simpl. rewrite <- markSectionVisited_sections. apply IH.
Qed.

Lemma mark_all_completes (ids : list value) (w : World) :
  store_accepts w → (mark_all ids w).2 = Normal undefined.
Proof.
  revert w. induction ids as [|x ids IH]; intros w Hq; [done|].
  rewrite mark_all_cons_completion, (markSectionVisited_completes _ _ Hq).
  apply IH. unfold store_accepts. by rewrite markSectionVisited_quota.
Qed.


(** ** JSON: what is printed is read back *)

Lemma hex_val_digit (d : N) : (d < 16)%N → hex_val (hex_digit d) = Some d.
Proof.
  intros Hd. unfold hex_digit, hex_val.
  destruct (N.ltb_spec d 10).
  - replace ((48 <=? 48 + d) && (48 + d <=? 57))%N with true
      by (symmetry; apply andb_true_intro; split; apply N.leb_le; lia).
    f_equal. lia.
  - replace ((48 <=? 87 + d) && (87 + d <=? 57))%N with false
      by (symmetry; apply andb_false_intro2, N.leb_gt; lia).
    replace ((65 <=? 87 + d) && (87 + d <=? 70))%N with false
      by (symmetry; apply andb_false_intro2, N.leb_gt; lia).
    replace ((97 <=? 87 + d) && (87 + d <=? 102))%N with true
      by (symmetry; apply andb_true_intro; split; apply N.leb_le; lia).
    f_equal. lia.
Qed.

Lemma hex4_unicode_escape (c : N) :
  (c < 65536)%N →
  hex4 (hex_digit (c / 4096)) (hex_digit ((c / 256) mod 16))
       (hex_digit ((c / 16) mod 16)) (hex_digit (c mod 16)) = Some c.
Proof.
  intros Hc. unfold hex4.
  rewrite !hex_val_digit.
  - f_equal.
    pose proof (N.div_mod c 16 ltac:(lia)).
    pose proof (N.div_mod (c / 16) 16 ltac:(lia)).
    pose proof (N.div_mod (c / 16 / 16) 16 ltac:(lia)).
    rewrite !N.Div0.div_div in *.
    change (16 * 16)%N with 256%N in *. change (256 * 16)%N with 4096%N in *.
    lia.
  - apply N.mod_lt; lia.
  - apply N.mod_lt; lia.
  - apply N.mod_lt; lia.
  - apply N.Div0.div_lt_upper_bound; lia.
Qed.

Lemma parse_chars_literal (c : N) (rest : list N) :
  (32 <= c)%N → c ≠ 34%N → c ≠ 92%N →
  parse_chars (c :: rest) = prepend c (parse_chars rest).
Proof.
  intros H32 H34 H92. simpl.
  destruct (N.eqb_spec c 34); [done|].
  destruct (N.eqb_spec c 92); [done|].
  destruct (N.ltb_spec c 32); [lia | done].
Qed.

Lemma parse_chars_quote_unit (c : N) (rest : list N) :
  parse_chars (quote_unit c ++ rest) = prepend c (parse_chars rest).
Proof.
  unfold quote_unit.
  destruct (N.eqb_spec c 8) as [->|]; [done|].
  destruct (N.eqb_spec c 9) as [->|]; [done|].
  destruct (N.eqb_spec c 10) as [->|]; [done|].
  destruct (N.eqb_spec c 12) as [->|]; [done|].
  destruct (N.eqb_spec c 13) as [->|]; [done|].
  destruct (N.eqb_spec c 34) as [->|]; [done|].
  destruct (N.eqb_spec c 92) as [->|]; [done|].
  destruct ((c <? 32)%N || is_high_surrogate c || is_low_surrogate c) eqn:E.
  - assert (c < 65536)%N as Hc.
    { unfold is_high_surrogate, is_low_surrogate in E.
      apply orb_true_iff in E as [E|E]; [apply orb_true_iff in E as [E|E]|].
      - apply N.ltb_lt in E. lia.
      - apply andb_true_iff in E as [_ E]. apply N.leb_le in E. lia.
      - apply andb_true_iff in E as [_ E]. apply N.leb_le in E. lia. }
    unfold unicode_escape.
    change (parse_chars (?l ++ rest)) with
      (match hex4 (hex_digit (c / 4096)) (hex_digit ((c / 256) mod 16))
               (hex_digit ((c / 16) mod 16)) (hex_digit (c mod 16)) with
       | Some u => prepend u (parse_chars rest)
       | None => None
       end).
    by rewrite hex4_unicode_escape.
  - apply orb_false_iff in E as [E _]. apply orb_false_iff in E as [E _].
    apply N.ltb_ge in E. by apply parse_chars_literal.
Qed.

Lemma parse_chars_quote_units (s rest : list N) :
  parse_chars (quote_units s ++ 34%N :: rest) = Some (s, rest).
Proof.
  remember (length s) as n eqn:Hn.
  revert s Hn. induction (lt_wf n) as [n _ IH]. intros s ->.
  destruct s as [|c s']; [done|].
  assert (parse_chars (quote_unit c ++ quote_units s' ++ 34%N :: rest)
          = Some (c :: s', rest)) as Hunit.
  { rewrite parse_chars_quote_unit.
    rewrite (IH (length s')); [done | simpl; lia | done]. }
  simpl. destruct (is_high_surrogate c) eqn:Hhigh; [|by rewrite <- app_assoc].
  destruct s' as [|d s'']; [by rewrite <- app_assoc|].
  destruct (is_low_surrogate d) eqn:Hlow; [|by rewrite <- app_assoc].
  unfold is_high_surrogate in Hhigh. unfold is_low_surrogate in Hlow.
  apply andb_true_iff in Hhigh as [H1%N.leb_le H2%N.leb_le].
  apply andb_true_iff in Hlow as [H3%N.leb_le H4%N.leb_le].
  change (parse_chars (c :: d :: quote_units s'' ++ 34%N :: rest) = Some (c :: d :: s'', rest)).
  rewrite parse_chars_literal by lia. rewrite parse_chars_literal by lia.
  rewrite (IH (length s'')); [done | simpl; lia | done].
Qed.

(** One step of the recursive descent. *)
Lemma parse_value_S (fuel : nat) (s : list N) :
  parse_value (S fuel) s =
  match skip_ws s with
  | [] => Malformed
  | c :: s1 =>
      if (c =? 91)%N then
        match skip_ws s1 with
        | d :: s2 =>
            if (d =? 93)%N then Parsed (VArr []) s2
            else
              match parse_elements fuel s1 with
              | Parsed l rest => Parsed (VArr l) rest
              | Malformed => Malformed
              | OutOfFuel => OutOfFuel
              end
        | [] => Malformed
        end
      else if (c =? 123)%N then
        match skip_ws s1 with
        | d :: s2 =>
            if (d =? 125)%N then Parsed (VObj []) s2
            else
              match parse_members fuel s1 with
              | Parsed kvs rest => Parsed (VObj (own_properties kvs)) rest
              | Malformed => Malformed
              | OutOfFuel => OutOfFuel
              end
        | [] => Malformed
        end
      else if (c =? 34)%N then
        match parse_chars s1 with
        | Some (x, rest) => Parsed (VStr x) rest
        | None => Malformed
        end
      else if (c =? 116)%N then
        match expect (str "rue") s1 with
        | Some rest => Parsed (VBool true) rest
        | None => Malformed
        end
      else if (c =? 102)%N then
        match expect (str "alse") s1 with
        | Some rest => Parsed (VBool false) rest
        | None => Malformed
        end
      else if (c =? 110)%N then
        match expect (str "ull") s1 with
        | Some rest => Parsed VNull rest
        | None => Malformed
        end
      else
        match parse_number (c :: s1) with
        | Some (lit, rest) => Parsed (VNum (Number_of_literal lit)) rest
        | None => Malformed
        end
  end.
Proof. reflexivity. Qed.

Lemma parse_elements_S (fuel : nat) (s : list N) :
  parse_elements (S fuel) s =
  match parse_value fuel s with
  | Parsed v r =>
      match skip_ws r with
      | c :: r' =>
          if (c =? 44)%N then
            match parse_elements fuel r' with
            | Parsed l rest => Parsed (v :: l) rest
            | Malformed => Malformed
            | OutOfFuel => OutOfFuel
            end
          else if (c =? 93)%N then Parsed [v] r'
          else Malformed
      | [] => Malformed
      end
  | Malformed => Malformed
  | OutOfFuel => OutOfFuel
  end.
Proof. reflexivity. Qed.

Lemma parse_members_S (fuel : nat) (s : list N) :
  parse_members (S fuel) s =
  match skip_ws s with
  | q :: s1 =>
      if (q =? 34)%N then
        match parse_chars s1 with
        | Some (k, s2) =>
            match skip_ws s2 with
            | colon :: s3 =>
                if (colon =? 58)%N then
                  match parse_value fuel s3 with
                  | Parsed v r =>
                      match skip_ws r with
                      | c :: r' =>
                          if (c =? 44)%N then
                            match parse_members fuel r' with
                            | Parsed kvs rest => Parsed ((k, v) :: kvs) rest
                            | Malformed => Malformed
                            | OutOfFuel => OutOfFuel
                            end
                          else if (c =? 125)%N then Parsed [(k, v)] r'
                          else Malformed
                      | [] => Malformed
                      end
                  | Malformed => Malformed
                  | OutOfFuel => OutOfFuel
                  end
                else Malformed
            | [] => Malformed
            end
        | None => Malformed
        end
      else Malformed
  | [] => Malformed
  end.
Proof. reflexivity. Qed.

Lemma parse_value_open_bracket (fuel : nat) (c : N) (s : list N) :
  c ≠ 93%N → is_ws c = false →
  parse_value (S fuel) (91%N :: c :: s) =
  match parse_elements fuel (c :: s) with
  | Parsed l rest => Parsed (VArr l) rest
  | Malformed => Malformed
  | OutOfFuel => OutOfFuel
  end.
Proof.
  intros Hc Hws. cbn [parse_value skip_ws is_ws N.eqb Pos.eqb orb].
  fold (is_ws c). rewrite Hws.
  by destruct (N.eqb_spec c 93).
Qed.

Lemma parse_value_open_brace (fuel : nat) (c : N) (s : list N) :
  c ≠ 125%N → is_ws c = false →
  parse_value (S fuel) (123%N :: c :: s) =
  match parse_members fuel (c :: s) with
  | Parsed kvs rest => Parsed (VObj (own_properties kvs)) rest
  | Malformed => Malformed
  | OutOfFuel => OutOfFuel
  end.
Proof.
  intros Hc Hws. cbn [parse_value skip_ws is_ws N.eqb Pos.eqb orb].
  fold (is_ws c). rewrite Hws.
  by destruct (N.eqb_spec c 125).
Qed.

Lemma parse_value_string (fuel : nat) (s rest : list N) :
  parse_value (S fuel) (QuoteJSONString s ++ rest) = Parsed (VStr s) rest.
Proof.
  unfold QuoteJSONString. simpl.
  rewrite <- app_assoc. simpl. by rewrite parse_chars_quote_units.
Qed.

Lemma parse_value_identifier (fuel : nat) (v : value) (rest : list N) :
  identifier v →
  parse_value (S fuel) (JSON_stringify v ++ rest) = Parsed v rest.
Proof.
  destruct v as [| | |s| |]; try done; intros _.
  apply parse_value_string.
Qed.

(** The text of an identifier starts with a quote or the letter n. *)
Lemma stringify_identifier_head (v : value) :
  identifier v →
  ∃ c t, JSON_stringify v = c :: t ∧ (c = 34 ∨ c = 110)%N.
Proof.
  destruct v; try done; intros _.
  - exists 110%N, (str "ull"). auto.
  - exists 34%N, (quote_units s ++ [34%N]). auto.
Qed.

Lemma parse_elements_identifiers (ids : list value) (fuel : nat) (rest : list N) :
  ids ≠ [] → Forall identifier ids → length ids < fuel →
  parse_elements fuel (join_comma (List.map JSON_stringify ids) ++ 93%N :: rest)
  = Parsed ids rest.
Proof.
  revert fuel. induction ids as [|v ids IH]; intros fuel Hne Hid Hfuel; [done|].
  apply Forall_cons in Hid as [Hv Hids].
  destruct fuel as [|fuel]; [simpl in Hfuel; lia|].
  destruct fuel as [|fuel]; [simpl in Hfuel; lia|].
  rewrite parse_elements_S.
  destruct ids as [|v' ids].
  - change (join_comma (List.map JSON_stringify [v])) with (JSON_stringify v).
    by rewrite (parse_value_identifier _ _ _ Hv).
  - change (join_comma (List.map JSON_stringify (v :: v' :: ids)))
      with (JSON_stringify v ++ 44%N :: join_comma (List.map JSON_stringify (v' :: ids))).
    rewrite <- app_assoc.
    rewrite (parse_value_identifier _ _ _ Hv).
    cbn [app skip_ws is_ws N.eqb Pos.eqb orb].
    rewrite IH; [done | done | done | simpl in *; lia].
Qed.

Lemma parse_value_array (ids : list value) (fuel : nat) (rest : list N) :
  Forall identifier ids → length ids < fuel →
  parse_value (S fuel) (JSON_stringify (VArr ids) ++ rest) = Parsed (VArr ids) rest.
Proof.
  intros Hid Hfuel. destruct ids as [|v ids]; [done|].
  change (JSON_stringify (VArr (v :: ids)) ++ rest)
    with (91%N :: (join_comma (List.map JSON_stringify (v :: ids)) ++ [93%N]) ++ rest).
  rewrite <- app_assoc.
  change ([93%N] ++ rest) with (93%N :: rest).
  pose proof (parse_elements_identifiers (v :: ids) fuel rest ltac:(done) Hid Hfuel) as Hel.
  apply Forall_cons in Hid as [Hv _].
  destruct (stringify_identifier_head v Hv) as (c & t & Hc & Hhead).
  assert (∃ u, join_comma (List.map JSON_stringify (v :: ids)) ++ 93%N :: rest = c :: u)
    as [u Hu].
  { destruct ids; simpl; rewrite Hc; eauto. }
  rewrite Hu in *.
  rewrite parse_value_open_bracket; [by rewrite Hel | |]; by destruct Hhead as [-> | ->].
Qed.

Lemma length_join_comma (ids : list value) :
  Forall identifier ids →
  length ids ≤ length (join_comma (List.map JSON_stringify ids)).
Proof.
  induction ids as [|v ids IH]; intros Hid; [simpl; lia|].
  apply Forall_cons in Hid as [Hv Hids].
  destruct (stringify_identifier_head v Hv) as (c & t & Hc & _).
  specialize (IH Hids).
  destruct ids as [|v' ids]; simpl in *; rewrite Hc; simpl; [lia|].
  rewrite length_app. simpl. lia.
Qed.

Lemma record_text_eq (ids : list value) (now : list N) :
  record_text ids now =
  123%N :: 34%N :: quote_units (str "visitedSections")
    ++ 34%N :: 58%N :: JSON_stringify (VArr ids)
    ++ 44%N :: 34%N :: quote_units (str "lastVisited")
    ++ 34%N :: 58%N :: QuoteJSONString now ++ [125%N].
Proof.
  unfold record_text.
  change (JSON_stringify (VObj ?kvs)) with
    (123%N ::
     ((QuoteJSONString (str "visitedSections") ++ 58%N :: JSON_stringify (VArr ids))
      ++ 44%N :: QuoteJSONString (str "lastVisited") ++ 58%N :: QuoteJSONString now)
     ++ [125%N]).
  unfold QuoteJSONString at 1 2.
  f_equal. cbn [app]. f_equal.
  repeat (rewrite <- !app_assoc; cbn [app]; repeat f_equal).
Qed.

(** The two names of the record are no array indices and differ: the
    object has them in the order of the text. *)
Lemma own_properties_record (sections last : value) :
  own_properties [(str "visitedSections", sections); (str "lastVisited", last)]
  = [(str "visitedSections", sections); (str "lastVisited", last)].
Proof. by vm_compute. Qed.

(** [JSON.parse] reads the record that [saveUserProgress] writes. *)
Lemma JSON_parse_record (ids : list value) (now : list N) :
  Forall identifier ids →
  JSON_parse (record_text ids now)
  = Normal (VObj [(str "visitedSections", VArr ids); (str "lastVisited", VStr now)]).
Proof.
  intros Hid. unfold JSON_parse, parse_fuel.
  assert (length ids + 4 ≤ length (record_text ids now)) as Hlen.
  { rewrite record_text_eq. 
    change (JSON_stringify (VArr ids)) with
      (91%N :: join_comma (List.map JSON_stringify ids) ++ [93%N]).
    pose proof (length_join_comma ids Hid).
    repeat first [rewrite length_app | progress cbn [length]]. lia. }
  destruct (length (record_text ids now)) as [|[|[|[|n]]]] eqn:Hn; try lia.
  assert (length ids < S (S (n + n))) as Hfuel by lia.
  replace (S (2 * S (S (S (S n))))) with (S (S (S (S (S (S (S (S (S (n + n)))))))))) by lia.
  rewrite record_text_eq.
  rewrite parse_value_open_brace; [| done | done].
  rewrite parse_members_S. cbn [skip_ws is_ws N.eqb Pos.eqb orb].
  rewrite parse_chars_quote_units.
  cbn [skip_ws is_ws N.eqb Pos.eqb orb].
  rewrite parse_value_array; [| done | lia].
  cbn [skip_ws is_ws N.eqb Pos.eqb orb].
  rewrite parse_members_S.
  cbn [skip_ws is_ws N.eqb Pos.eqb orb].
  rewrite parse_chars_quote_units.
  cbn [skip_ws is_ws N.eqb Pos.eqb orb].
  rewrite parse_value_string.
  cbn [skip_ws is_ws N.eqb Pos.eqb orb].
  by rewrite own_properties_record.
Qed.

(** ** JSON.parse never runs out of fuel *)

Lemma skip_ws_length (s : list N) : length (skip_ws s) ≤ length s.
Proof.
  induction s as [|c s IH]; simpl; [lia|].
  destruct (is_ws c); simpl; lia.
Qed.

Lemma prepend_Some (c : N) (r : option (list N * list N)) (x rest : list N) :
  prepend c r = Some (x, rest) → ∃ x', r = Some (x', rest).
Proof. destruct r as [[x' rest']|]; simpl; [|done]. intros [= _ ->]. eauto. Qed.

Lemma parse_chars_length (s x rest : list N) :
  parse_chars s = Some (x, rest) → length rest < length s.
Proof.
  remember (length s) as n eqn:Hn. revert s x rest Hn.
  induction (lt_wf n) as [n _ IH]. intros s x rest -> H.
  destruct s as [|c s1]; [done|]. simpl in H.
  destruct (c =? 34)%N; [injection H as _ ->; simpl; lia|].
  destruct (c =? 92)%N.
  - destruct s1 as [|e s2]; [done|].
    destruct (e =? 117)%N.
    + destruct s2 as [|h1 [|h2 [|h3 [|h4 s3]]]]; try done.
      destruct (hex4 h1 h2 h3 h4); [|done].
      apply prepend_Some in H as [x' H].
      apply (IH (length s3)) in H; simpl; [lia | lia | done].
    + destruct (simple_escape e); [|done].
      apply prepend_Some in H as [x' H].
      apply (IH (length s2)) in H; simpl; [lia | lia | done].
  - destruct (c <? 32)%N; [done|].
    apply prepend_Some in H as [x' H].
    apply (IH (length s1)) in H; simpl; [lia | lia | done].
Qed.

Lemma span_digits_length (s ds rest : list N) :
  span_digits s = (ds, rest) → length rest ≤ length s.
Proof.
  revert ds rest. induction s as [|c s IH]; intros ds rest H; simpl in H.
  - injection H as _ <-. done.
  - destruct (is_digit c).
    + destruct (span_digits s) as [ds' rest'] eqn:E. injection H as _ <-.
      specialize (IH _ _ eq_refl). simpl. lia.
    + injection H as _ <-. done.
Qed.

Lemma parse_int_part_length (s lit rest : list N) :
  parse_int_part s = Some (lit, rest) → length rest < length s.
Proof.
  destruct s as [|c s]; [done|]. simpl.
  destruct (c =? 48)%N; [intros [= _ <-]; simpl; lia|].
  destruct (is_digit c); [|done].
  destruct (span_digits s) as [ds r] eqn:E. intros [= _ <-].
  apply span_digits_length in E. simpl. lia.
Qed.

Lemma parse_frac_part_length (s lit rest : list N) :
  parse_frac_part s = Some (lit, rest) → length rest ≤ length s.
Proof.
  destruct s as [|c s]; simpl; [by intros [= _ <-]|].
  destruct (c =? 46)%N; [|by intros [= _ <-]].
  destruct (span_digits s) as [[|d ds] r] eqn:E; [done|]. intros [= _ <-].
  apply span_digits_length in E. simpl. lia.
Qed.

Lemma parse_exp_digits_length (pre s lit rest : list N) :
  parse_exp_digits pre s = Some (lit, rest) → length rest ≤ length s.
Proof.
  unfold parse_exp_digits.
  destruct (span_digits s) as [[|d ds] r] eqn:E; [done|]. intros [= _ <-].
  by apply span_digits_length in E.
Qed.

Lemma parse_exp_part_length (s lit rest : list N) :
  parse_exp_part s = Some (lit, rest) → length rest ≤ length s.
Proof.
  destruct s as [|c s]; simpl; [by intros [= _ <-]|].
  destruct ((c =? 101)%N || (c =? 69)%N); [|by intros [= _ <-]].
  destruct s as [|g s']; [done|].
  destruct ((g =? 43)%N || (g =? 45)%N); intros H%parse_exp_digits_length;
    simpl in *; lia.
Qed.

Lemma parse_unsigned_length (s lit rest : list N) :
  parse_unsigned s = Some (lit, rest) → length rest < length s.
Proof.
  unfold parse_unsigned.
  destruct (parse_int_part s) as [[i s1]|] eqn:E1; [|done].
  destruct (parse_frac_part s1) as [[f s2]|] eqn:E2; [|done].
  destruct (parse_exp_part s2) as [[e s3]|] eqn:E3; [|done].
  intros [= _ <-].
  apply parse_int_part_length in E1. apply parse_frac_part_length in E2.
  apply parse_exp_part_length in E3. lia.
Qed.

Lemma parse_number_length (s lit rest : list N) :
  parse_number s = Some (lit, rest) → length rest < length s.
Proof.
  destruct s as [|c s]; [done|]. unfold parse_number.
  destruct (c =? 45)%N.
  - destruct (parse_unsigned s) as [[l r]|] eqn:E; [|done]. intros [= _ <-].
    apply parse_unsigned_length in E. simpl. lia.
  - apply parse_unsigned_length.
Qed.

Lemma expect_length (w s rest : list N) :
  expect w s = Some rest → length rest ≤ length s.
Proof.
  revert s. induction w as [|c w IH]; intros s; simpl; [by intros [= <-]|].
  destruct s as [|d s]; [done|].
  destruct (c =? d)%N; [|done]. intros H%IH. simpl. lia.
Qed.

(** Collects what the hypotheses say about the lengths of the inputs. *)
Ltac length_facts :=
  repeat match goal with
  | H : skip_ws ?s = _ |- _ =>
      let L := fresh "L" in
      pose proof (skip_ws_length s) as L; rewrite H in L; simpl in L; revert H
  | H : parse_chars _ = Some _ |- _ => apply parse_chars_length in H; revert H
  | H : parse_number _ = Some _ |- _ =>
      apply parse_number_length in H; simpl in H; revert H
  | H : expect _ _ = Some _ |- _ => apply expect_length in H; revert H
  end; intros.

Lemma parse_consumes (fuel : nat) :
  (∀ s v r, parse_value fuel s = Parsed v r → length r < length s) ∧
  (∀ s l r, parse_elements fuel s = Parsed l r → length r < length s) ∧
  (∀ s l r, parse_members fuel s = Parsed l r → length r < length s).
Proof.
  induction fuel as [|fuel (IHv & IHe & IHm)]; [done|].
  split_and!.
  - intros s v r H. rewrite parse_value_S in H.
    repeat case_match; simplify_eq;
      repeat match goal with
      | H : parse_elements fuel _ = Parsed _ _ |- _ => apply IHe in H
      | H : parse_members fuel _ = Parsed _ _ |- _ => apply IHm in H
      end; length_facts; lia.
  - intros s l r H. rewrite parse_elements_S in H.
    repeat case_match; simplify_eq;
      repeat match goal with
      | H : parse_value fuel _ = Parsed _ _ |- _ => apply IHv in H
      | H : parse_elements fuel _ = Parsed _ _ |- _ => apply IHe in H
      end; length_facts; lia.
  - intros s l r H. rewrite parse_members_S in H.
    repeat case_match; simplify_eq;
      repeat match goal with
      | H : parse_value fuel _ = Parsed _ _ |- _ => apply IHv in H
      | H : parse_members fuel _ = Parsed _ _ |- _ => apply IHm in H
      end; length_facts; lia.
Qed.

Lemma parse_enough_fuel (fuel : nat) :
  (∀ s, 2 * length s < fuel → parse_value fuel s ≠ OutOfFuel) ∧
  (∀ s, 2 * length s + 1 < fuel → parse_elements fuel s ≠ OutOfFuel) ∧
  (∀ s, 2 * length s + 1 < fuel → parse_members fuel s ≠ OutOfFuel).
Proof.
  induction fuel as [|fuel (IHv & IHe & IHm)]; [split_and!; intros; lia|].
  assert (∀ s v r, parse_value fuel s = Parsed v r → length r < length s) as Hcons
    by apply parse_consumes.
  split_and!; intros s Hlen;
    [rewrite parse_value_S | rewrite parse_elements_S | rewrite parse_members_S];
    repeat case_match; simplify_eq; try done; exfalso;
    repeat match goal with
    | H : parse_value fuel _ = Parsed _ _ |- _ => apply Hcons in H
    end;
    length_facts;
    match goal with
    | H : parse_value fuel ?t = OutOfFuel |- _ => apply (IHv t); [lia | exact H]
    | H : parse_elements fuel ?t = OutOfFuel |- _ => apply (IHe t); [lia | exact H]
    | H : parse_members fuel ?t = OutOfFuel |- _ => apply (IHm t); [lia | exact H]
    end.
Qed.

(** The fuel that [JSON_parse] gives is enough for every text: where it
    throws, the text is not JSON. *)
Lemma parse_fuel_enough (text : list N) :
  parse_value (parse_fuel text) text ≠ OutOfFuel.
Proof. apply parse_enough_fuel. unfold parse_fuel. lia. Qed.

(** ** Loading *)

Lemma loadUserProgress_eq (w : World) :
  loadUserProgress w =
  match localStorage w !! PROGRESS with
  | Some text =>
      if jsstring_eqb text [] then (w, Normal undefined)
      else
        match decode text with
        | Normal sections => (loaded sections w, Normal undefined)
        | Throw e => (load_failed e w, Normal undefined)
        end
  | None => (w, Normal undefined)
  end.
Proof.
  unfold loadUserProgress, localStorage_getItem, bind at 1, get at 1.
  destruct (localStorage w !! PROGRESS) as [text|]; [|done].
  destruct (jsstring_eqb text []); [done|]. cbn [negb].
  unfold decode, try_catch, bind at 1, lift at 1.
  destruct (JSON_parse text) as [progress|e]; [|done]. cbn [cbind].
  unfold bind at 1, lift at 1.
  destruct (get_property progress (str "visitedSections")) as [sections|e]; [|done].
  cbn [cbind]. unfold bind at 1, lift at 1.
  destruct (new_Set (or_else sections (VArr []))) as [set|e]; [|done].
  unfold bind at 1, modify at 1. unfold bind at 1.
  by rewrite updateProgressDisplay_eq.
Qed.

Lemma loadUserProgress_completes (w : World) :
  (loadUserProgress w).2 = Normal undefined.
Proof.
  rewrite loadUserProgress_eq. repeat case_match; done.
Qed.

Lemma DOMContentLoaded_eq (w : World) :
  DOMContentLoaded w =
  (set_totalSections_text (sections_length w) (loadUserProgress w).1, Normal undefined).
Proof.
  unfold DOMContentLoaded, bind at 1.
  pose proof (loadUserProgress_completes w) as H.
  destruct (loadUserProgress w) as [w' r] eqn:E. simpl in H. subst r.
  assert (sections_length w' = sections_length w) as Hs.
  { rewrite loadUserProgress_eq in E. repeat case_match; by simplify_eq. }
  unfold bind, get, modify, ret. simpl. by rewrite Hs.
Qed.

Lemma record_text_nonempty (ids : list value) (now : list N) :
  jsstring_eqb (record_text ids now) [] = false.
Proof.
  rewrite record_text_eq. unfold jsstring_eqb. by apply bool_decide_eq_false.
Qed.

(** What [saveUserProgress] writes for a set of identifiers decodes to
    that set. *)
Lemma decode_record_text (ids : list value) (now : list N) :
  Forall identifier ids → NoDup ids →
  decode (record_text ids now) = Normal ids.
Proof.
  intros Hid Hnd. unfold decode. rewrite (JSON_parse_record _ _ Hid).
  cbn [cbind get_property].
  change (last_binding _ _) with (Some (VArr ids)).
  cbn [cbind or_else truthy new_Set]. f_equal.
  by apply Set_of_NoDup.
Qed.

(** ** Numbers: counts as doubles *)

Lemma digits2_pos_iter (p k : positive) :
  digits2_pos (Pos.iter xO p k) = (digits2_pos p + k)%positive.
Proof.
  induction k as [|k IH] using Pos.peano_ind.
  - simpl. lia.
  - rewrite Pos.iter_succ. simpl. rewrite IH. lia.
Qed.

Lemma digits2_pos_lower (p : positive) :
  (2 ^ (Z.pos (digits2_pos p) - 1) <= Z.pos p)%Z.
Proof.
  induction p as [p IH|p IH|]; simpl digits2_pos; [| |done].
  - rewrite Pos2Z.inj_succ.
    replace (Z.succ (Z.pos (digits2_pos p)) - 1)%Z
      with (Z.succ (Z.pos (digits2_pos p) - 1))%Z by lia.
    rewrite Z.pow_succ_r by lia. lia.
  - rewrite Pos2Z.inj_succ.
    replace (Z.succ (Z.pos (digits2_pos p)) - 1)%Z
      with (Z.succ (Z.pos (digits2_pos p) - 1))%Z by lia.
    rewrite Z.pow_succ_r by lia. lia.
Qed.

Lemma digits2_pos_small (p : positive) :
  (Z.pos p < 2 ^ 53)%Z → (Z.pos (digits2_pos p) <= 53)%Z.
Proof.
  intros Hp. pose proof (digits2_pos_lower p) as Hlow.
  destruct (Z.le_gt_cases (Z.pos (digits2_pos p)) 53) as [|Hgt]; [done|].
  exfalso.
  assert (2 ^ 53 <= 2 ^ (Z.pos (digits2_pos p) - 1))%Z
    by (apply Z.pow_le_mono_r; lia).
  lia.
Qed.

(** A mantissa of 53 bits with an exponent in range is kept as it is. *)
Lemma binary_round_aux_normal (s : bool) (m : positive) (e : Z) :
  Z.pos (digits2_pos m) = 53%Z → (-1074 <= e <= 971)%Z →
  binary_round_aux prec emax s (Z.pos m) e loc_Exact = S754_finite s m e.
Proof.
  intros Hd He. unfold binary_round_aux, shr_fexp.
  cbn [Zdigits2]. rewrite Hd.
  assert (fexp prec emax (53 + e) - e = 0)%Z as ->.
  { unfold fexp, SpecFloat.emin, prec, emax. lia. }
  cbn [shr shr_record_of_loc shr_m loc_of_shr_record round_nearest_even Zdigits2].
  rewrite Hd.
  assert (fexp prec emax (53 + e) - e = 0)%Z as ->.
  { unfold fexp, SpecFloat.emin, prec, emax. lia. }
  cbn [shr shr_m].
  replace (e <=? emax - prec)%Z with true; [done|].
  symmetry. apply Z.leb_le. unfold emax, prec. lia.
Qed.

(** A positive count below 2^53 is a positive finite double. *)
Lemma of_nat_finite (n : nat) :
  0 < n → (Z.of_nat n < 2 ^ 53)%Z →
  ∃ m e, Prim2SF (Number.of_nat n) = S754_finite false m e.
Proof.
  intros Hpos Hlt. unfold Number.of_nat.
  rewrite of_uint63_spec, Uint63.of_Z_spec.
  rewrite Z.mod_small by (change Uint63Axioms.wB with (2 ^ 63)%Z; lia).
  destruct (Z.of_nat n) as [|p|p] eqn:Hn; [lia | | lia].
  unfold binary_normalize, binary_round.
  pose proof (digits2_pos_small p Hlt) as Hd.
  assert (fexp prec emax (Z.pos (digits2_pos p) + 0) = Z.pos (digits2_pos p) - 53)%Z
    as ->.
  { unfold fexp, SpecFloat.emin, prec, emax. lia. }
  unfold shl_align.
  destruct (Z.pos (digits2_pos p) - 53 - 0)%Z as [|k|k] eqn:Hk; [| lia |].
  - eexists _, _. apply binary_round_aux_normal; lia.
  - eexists _, _. apply binary_round_aux_normal; [|lia].
    rewrite digits2_pos_iter. lia.
Qed.

(** A finite double divided by itself is one. *)
Lemma div_self (x : float) (s : bool) (m : positive) (e : Z) :
  Prim2SF x = S754_finite s m e → (x / x)%float = 1%float.
Proof.
  intros Hx. apply Prim2SF_inj. rewrite div_spec, Hx.
  unfold SF64div, SFdiv, SFdiv_core_binary.
  replace (Zdigits2 (Z.pos m) + e - (Zdigits2 (Z.pos m) + e))%Z with 0%Z by lia.
  replace (e - e)%Z with 0%Z by lia.
  change (Z.min (fexp prec emax 0) 0) with (-53)%Z.
  change (0 - -53)%Z with 53%Z. cbv iota.
  pose proof (Z.div_mul (2 ^ 53) (Z.pos m) ltac:(lia)) as Hq.
  pose proof (Z.mod_mul (2 ^ 53) (Z.pos m) ltac:(lia)) as Hr.
  rewrite <- (Z.mul_comm (Z.pos m)), <- Z.shiftl_mul_pow2 in Hq, Hr by lia.
  unfold Z.div in Hq. unfold Z.modulo in Hr.
  destruct (Z.div_eucl (Z.shiftl (Z.pos m) 53) (Z.pos m)) as [q r] eqn:Hqr.
  subst q r.
  rewrite Bool.xorb_nilpotent.
  unfold new_location, new_location_even, new_location_odd.
  change (0 =? 0)%Z with true. destruct (Z.even (Z.pos m)); reflexivity.
Qed.

(** Zero divided by a positive finite double is zero. *)
Lemma div_zero_finite (x : float) (m : positive) (e : Z) :
  Prim2SF x = S754_finite false m e → (0 / x)%float = 0%float.
Proof.
  intros Hx. apply Prim2SF_inj. rewrite div_spec, Hx. reflexivity.
Qed.

Lemma percentage_all (total : nat) :
  0 < total → (Z.of_nat total < 2 ^ 53)%Z → percentage total total = 100%float.
Proof.
  intros Hpos Hlt. destruct (of_nat_finite total Hpos Hlt) as (m & e & Hx).
  unfold percentage. rewrite (div_self _ _ _ _ Hx). reflexivity.
Qed.

Lemma percentage_none (total : nat) :
  0 < total → (Z.of_nat total < 2 ^ 53)%Z → percentage 0 total = 0%float.
Proof.
  intros Hpos Hlt. destruct (of_nat_finite total Hpos Hlt) as (m & e & Hx).
  unfold percentage.
  change (Number.of_nat 0) with 0%float.
  rewrite (div_zero_finite _ _ _ Hx). reflexivity.
Qed.

(** ** Numbers: the error of a division and of a multiplication *)

Section Rounding.
Local Open Scope Z_scope.

Lemma digits2_pos_upper (p : positive) : Z.pos p < 2 ^ Z.pos (digits2_pos p).
Proof.
  induction p as [p IH|p IH|]; simpl digits2_pos; [| |done].
  - rewrite Pos2Z.inj_succ, Z.pow_succ_r by lia. lia.
  - rewrite Pos2Z.inj_succ, Z.pow_succ_r by lia. lia.
Qed.

Lemma digits2_pos_bounds (p : positive) (d : Z) :
  2 ^ (d - 1) <= Z.pos p < 2 ^ d → Z.pos (digits2_pos p) = d.
Proof.
  intros [Hlow Hup].
  pose proof (digits2_pos_lower p) as Hl. pose proof (digits2_pos_upper p) as Hu.
  assert (0 < d).
  { destruct (Z.lt_ge_cases 0 d) as [|Hd]; [done|].
    destruct (Z.eq_dec d 0) as [->|]; [simpl in Hup; lia|].
    rewrite Z.pow_neg_r in Hup by lia. lia. }
  destruct (Z.lt_trichotomy (Z.pos (digits2_pos p)) d) as [Hlt | [Heq | Hgt]];
    [|done|].
  - assert (2 ^ Z.pos (digits2_pos p) <= 2 ^ (d - 1))
      by (apply Z.pow_le_mono_r; lia).
    lia.
  - assert (2 ^ d <= 2 ^ (Z.pos (digits2_pos p) - 1))
      by (apply Z.pow_le_mono_r; lia).
    lia.
Qed.

(** Shifting a mantissa to the right divides it by a power of two. *)
Lemma shr_1_m (mrs : shr_record) :
  0 <= shr_m mrs → shr_m (shr_1 mrs) = shr_m mrs / 2.
Proof.
  destruct mrs as [m r s]. cbn [shr_m]. intros Hm.
  destruct m as [|[p|p|]|p]; cbn [shr_1 shr_m]; [done| | |done|lia].
  - rewrite Pos2Z.inj_xI. apply (Z.div_unique _ _ _ 1); lia.
  - rewrite Pos2Z.inj_xO. apply (Z.div_unique _ _ _ 0); lia.
Qed.

Lemma iter_pos_shr_1_m (p : positive) (mrs : shr_record) :
  0 <= shr_m mrs → shr_m (SpecFloat.iter_pos shr_1 p mrs) = shr_m mrs / 2 ^ Z.pos p.
Proof.
  revert mrs. induction p as [p IH|p IH|]; intros mrs Hm; cbn [SpecFloat.iter_pos].
  - assert (0 <= shr_m (shr_1 mrs))
      by (rewrite shr_1_m by done; apply Z.div_pos; lia).
    assert (0 <= shr_m (SpecFloat.iter_pos shr_1 p (shr_1 mrs)))
      by (rewrite IH by done; apply Z.div_pos; lia).
    rewrite (IH _ H0), (IH _ H), (shr_1_m _ Hm).
    rewrite !Z.div_div by lia.
    replace (Z.pos p~1) with (1 + Z.pos p + Z.pos p) by lia.
    rewrite !Z.pow_add_r by lia. change (2 ^ 1) with 2. f_equal. ring.
  - assert (0 <= shr_m (SpecFloat.iter_pos shr_1 p mrs))
      by (rewrite IH by done; apply Z.div_pos; lia).
    rewrite (IH _ H), (IH _ Hm).
    rewrite !Z.div_div by lia.
    replace (Z.pos p~0) with (Z.pos p + Z.pos p) by lia.
    rewrite !Z.pow_add_r by lia. f_equal.
  - by rewrite shr_1_m.
Qed.

Lemma shr_record_of_loc_m (m : Z) (l : location) :
  shr_m (shr_record_of_loc m l) = m.
Proof. by destruct l as [|[]]. Qed.

Lemma shr_m_shift (mrs : shr_record) (e n : Z) :
  0 <= shr_m mrs → 0 <= n →
  shr_m (shr mrs e n).1 = shr_m mrs / 2 ^ n ∧ (shr mrs e n).2 = e + n.
Proof.
  intros Hm Hn. destruct n as [|p|p]; cbn [shr fst snd]; [| |lia].
  - rewrite Z.div_1_r. lia.
  - by rewrite iter_pos_shr_1_m.
Qed.

Lemma round_nearest_even_cases (m : Z) (l : location) :
  round_nearest_even m l = m ∨ round_nearest_even m l = m + 1.
Proof. destruct l as [|[]]; cbn; [| destruct (Z.even m) | |]; auto. Qed.

(** Rounding a mantissa [q] of at least 53 digits, with the exponent in
    range: the result is a normal double, and it is one of the two
    multiples of [2^(d - 53)] that enclose [q], in units of [2^e]. *)
Lemma binary_round_aux_big (s : bool) (q : positive) (e : Z) (l : location) :
  53 <= Z.pos (digits2_pos q) →
  -1074 <= e + Z.pos (digits2_pos q) - 53 →
  e + Z.pos (digits2_pos q) - 52 <= 971 →
  ∃ m' e',
    binary_round_aux prec emax s (Z.pos q) e l = S754_finite s m' e'
    ∧ Z.pos (digits2_pos m') = 53
    ∧ e + Z.pos (digits2_pos q) - 53 <= e' <= e + Z.pos (digits2_pos q) - 52
    ∧ (Z.pos m' * 2 ^ (e' - e)
       = Z.pos q / 2 ^ (Z.pos (digits2_pos q) - 53)
         * 2 ^ (Z.pos (digits2_pos q) - 53)
       ∨ Z.pos m' * 2 ^ (e' - e)
         = (Z.pos q / 2 ^ (Z.pos (digits2_pos q) - 53) + 1)
           * 2 ^ (Z.pos (digits2_pos q) - 53)).
Proof.
  set (d := Z.pos (digits2_pos q)). intros Hd Hlow Hup.
  set (p := d - 53). set (a := Z.pos q / 2 ^ p).
  assert (0 <= p) as Hp by (unfold p; lia).
  assert (0 < 2 ^ p) as Hpow by (apply Z.pow_pos_nonneg; lia).
  assert (2 ^ 52 <= a < 2 ^ 53) as Ha.
  { pose proof (digits2_pos_lower q) as Hl. pose proof (digits2_pos_upper q) as Hu.
    fold d in Hl, Hu.
    replace (d - 1) with (52 + p) in Hl by (unfold p; lia).
    replace d with (53 + p) in Hu by (unfold p; lia).
    rewrite Z.pow_add_r in Hl, Hu by lia.
    unfold a. split.
    - apply Z.div_le_lower_bound; lia.
    - apply Z.div_lt_upper_bound; lia. }
  unfold binary_round_aux, shr_fexp. cbn [Zdigits2]. fold d.
  assert (fexp prec emax (d + e) - e = p) as ->.
  { unfold fexp, SpecFloat.emin, prec, emax, p. lia. }
  destruct (shr_m_shift (shr_record_of_loc (Z.pos q) l) e p) as [Hm1 He1];
    [by rewrite shr_record_of_loc_m | done |].
  rewrite shr_record_of_loc_m in Hm1. fold a in Hm1.
  destruct (shr (shr_record_of_loc (Z.pos q) l) e p) as [mrs1 e1].
  cbn [fst snd] in Hm1, He1. subst e1. rewrite Hm1.
  destruct (round_nearest_even_cases a (loc_of_shr_record mrs1)) as [-> | ->].
  - destruct a as [|m|m] eqn:Hm; [lia | | lia].
    assert (Z.pos (digits2_pos m) = 53) as Hdm by (apply digits2_pos_bounds; lia).
    cbn [Zdigits2]. rewrite Hdm.
    assert (fexp prec emax (53 + (e + p)) - (e + p) = 0) as ->.
    { unfold fexp, SpecFloat.emin, prec, emax. lia. }
    cbn [shr shr_record_of_loc shr_m].
    replace (e + p <=? emax - prec) with true
      by (symmetry; apply Z.leb_le; unfold emax, prec, p; lia).
    exists m, (e + p). split_and!; [done | done | unfold p; lia | unfold p; lia |].
    left. replace (e + p - e) with p by lia. done.
  - destruct (Z.eq_dec (a + 1) (2 ^ 53)) as [Heq | Hne].
    + rewrite Heq. change (2 ^ 53) with (Z.pos (2 ^ 53)).
      cbn [Zdigits2].
      change (Z.pos (digits2_pos (2 ^ 53))) with 54.
      assert (fexp prec emax (54 + (e + p)) - (e + p) = 1) as ->.
      { unfold fexp, SpecFloat.emin, prec, emax. lia. }
      cbn [shr shr_record_of_loc SpecFloat.iter_pos shr_1 shr_m].
      replace (e + p + 1 <=? emax - prec) with true
        by (symmetry; apply Z.leb_le; unfold emax, prec, p; lia).
      exists (2 ^ 52)%positive, (e + p + 1).
      split_and!; [done | done | unfold p; lia | unfold p; lia |].
      right. replace (e + p + 1 - e) with (1 + p) by lia.
      rewrite Z.pow_add_r by lia.
      change (Z.pos (2 ^ 53)) with (Z.pos (2 ^ 52) * 2 ^ 1). ring.
    + destruct (a + 1) as [|m|m] eqn:Hm; [lia | | lia].
      assert (Z.pos (digits2_pos m) = 53) as Hdm by (apply digits2_pos_bounds; lia).
      cbn [Zdigits2]. rewrite Hdm.
      assert (fexp prec emax (53 + (e + p)) - (e + p) = 0) as ->.
      { unfold fexp, SpecFloat.emin, prec, emax. lia. }
      cbn [shr shr_record_of_loc shr_m].
      replace (e + p <=? emax - prec) with true
        by (symmetry; apply Z.leb_le; unfold emax, prec, p; lia).
      exists m, (e + p). split_and!; [done | done | unfold p; lia | unfold p; lia |].
      right. replace (e + p - e) with p by lia. done.
Qed.

Lemma Pos_iter_xO (p k : positive) :
  Z.pos (Pos.iter xO p k) = Z.pos p * 2 ^ Z.pos k.
Proof.
  induction k as [|k IH] using Pos.peano_ind.
  - cbn [Pos.iter]. rewrite Pos2Z.inj_xO. change (2 ^ 1) with 2. lia.
  - rewrite Pos.iter_succ, Pos2Z.inj_xO, IH, Pos2Z.inj_succ, Z.pow_succ_r by lia.
    ring.
Qed.

(** A positive count below 2^53 is a normal double with the same value. *)
Lemma of_nat_value (n : nat) :
  (0 < n)%nat → Z.of_nat n < 2 ^ 53 →
  ∃ m e, Prim2SF (Number.of_nat n) = S754_finite false m e
         ∧ Z.pos (digits2_pos m) = 53
         ∧ -52 <= e <= 0
         ∧ Z.pos m = Z.of_nat n * 2 ^ (- e).
Proof.
  intros Hpos Hlt. unfold Number.of_nat.
  rewrite of_uint63_spec, Uint63.of_Z_spec.
  rewrite Z.mod_small by (change Uint63Axioms.wB with (2 ^ 63); lia).
  destruct (Z.of_nat n) as [|p|p] eqn:Hn; [lia | | lia].
  unfold binary_normalize, binary_round.
  pose proof (digits2_pos_small p Hlt) as Hd.
  assert (fexp prec emax (Z.pos (digits2_pos p) + 0) = Z.pos (digits2_pos p) - 53)
    as ->.
  { unfold fexp, SpecFloat.emin, prec, emax. lia. }
  unfold shl_align.
  destruct (Z.pos (digits2_pos p) - 53 - 0) as [|k|k] eqn:Hk; [| lia |].
  - exists p, 0. split_and!; [|lia|lia|lia|cbn; lia].
    apply binary_round_aux_normal; lia.
  - exists (Pos.iter xO p k), (Z.pos (digits2_pos p) - 53).
    assert (Z.pos (digits2_pos (Pos.iter xO p k)) = 53) as Hdk
      by (rewrite digits2_pos_iter; lia).
    split_and!; [|done|lia|lia|].
    + apply binary_round_aux_normal; [done | lia].
    + rewrite Pos_iter_xO. f_equal. f_equal. lia.
Qed.

Lemma to_Z_of_nat (n : nat) :
  Z.of_nat n < 2 ^ 53 → Number.to_Z (Number.of_nat n) = Some (Z.of_nat n).
Proof.
  intros Hlt. destruct n as [|n]; [done|].
  destruct (of_nat_value (S n)) as (m & e & Hx & _ & He & Hm); [lia | done |].
  unfold Number.to_Z. rewrite Hx.
  destruct (Z.leb_spec 0 e) as [H0|H0].
  - replace e with 0 in * by lia. f_equal. cbn in Hm. lia.
  - assert (0 < 2 ^ (- e)) by (apply Z.pow_pos_nonneg; lia).
    rewrite Hm, Z.mod_mul, Z.div_mul by lia. done.
Qed.

End Rounding.

Section Dyadic.
Local Open Scope Q_scope.

Lemma two_power_pos (e : Z) : 0 < 2 ^ e.
Proof. by apply Qpower_0_lt. Qed.

Lemma dyadic_le (m m' e : Z) : (m <= m')%Z → dyadic m e <= dyadic m' e.
Proof.
  intros H. unfold dyadic. apply Qmult_le_compat_r.
  - by rewrite <- Zle_Qle.
  - apply Qlt_le_weak, two_power_pos.
Qed.

Lemma dyadic_pos (m e : Z) : (0 < m)%Z → 0 < dyadic m e.
Proof.
  intros H. unfold dyadic. apply Qmult_lt_0_compat; [|apply two_power_pos].
  by rewrite (Zlt_Qlt 0 m) in H.
Qed.

Lemma dyadic_shift (m e k : Z) :
  (0 <= k)%Z → dyadic (m * 2 ^ k) e == dyadic m (e + k).
Proof.
  intros Hk. unfold dyadic.
  rewrite inject_Z_mult, Zpower_Qpower, Qpower_plus by done.
  change (inject_Z 2) with 2. ring.
Qed.

Lemma dyadic_plus (m m' e : Z) : dyadic (m + m') e == dyadic m e + dyadic m' e.
Proof. unfold dyadic. rewrite inject_Z_plus. ring. Qed.

Lemma dyadic_mult (m m' e e' : Z) :
  dyadic (m * m') (e + e') == dyadic m e * dyadic m' e'.
Proof.
  unfold dyadic. rewrite inject_Z_mult, Qpower_plus by done. ring.
Qed.

Lemma dyadic_0 (m : Z) : dyadic m 0 == inject_Z m.
Proof. unfold dyadic. change (2 ^ 0) with 1. ring. Qed.

(** The error of one rounding: relative, at most [2^-52]. *)
Lemma binary_round_aux_error (s : bool) (q : positive) (e : Z) (l : location)
    (X : Q) :
  (53 <= Z.pos (digits2_pos q))%Z →
  (-1074 <= e + Z.pos (digits2_pos q) - 53)%Z →
  (e + Z.pos (digits2_pos q) - 52 <= 971)%Z →
  dyadic (Z.pos q) e <= X → X <= dyadic (Z.pos q + 1) e →
  ∃ m' e',
    binary_round_aux prec emax s (Z.pos q) e l = S754_finite s m' e'
    ∧ Z.pos (digits2_pos m') = 53%Z
    ∧ (e + Z.pos (digits2_pos q) - 53 <= e' <= e + Z.pos (digits2_pos q) - 52)%Z
    ∧ X * (1 - ulp_bound) <= dyadic (Z.pos m') e'
    ∧ dyadic (Z.pos m') e' <= X * (1 + ulp_bound).
Proof.
  intros Hd Hlow Hup HX1 HX2.
  destruct (binary_round_aux_big s q e l Hd Hlow Hup)
    as (m' & e' & Hround & Hdm & He' & Hcases).
  exists m', e'. split_and!; [done | done | lia | lia | |].
  all: set (p := (Z.pos (digits2_pos q) - 53)%Z) in *.
  all: set (a := (Z.pos q / 2 ^ p)%Z) in *.
  all: assert (0 <= p)%Z as Hp by (unfold p; lia).
  all: assert (0 < 2 ^ p)%Z as Hpow by (apply Z.pow_pos_nonneg; lia).
  all: assert (2 ^ 52 <= a)%Z as Ha
    by (pose proof (digits2_pos_lower q) as Hl;
        replace (Z.pos (digits2_pos q) - 1)%Z with (52 + p)%Z in Hl
          by (unfold p; lia);
        rewrite Z.pow_add_r in Hl by lia;
        unfold a; apply Z.div_le_lower_bound; lia).
  all: assert (a * 2 ^ p <= Z.pos q < (a + 1) * 2 ^ p)%Z as Hq
    by (unfold a; pose proof (Z.mul_div_le (Z.pos q) (2 ^ p) Hpow);
        pose proof (Z.mul_succ_div_gt (Z.pos q) (2 ^ p) Hpow); lia).
  all: assert (dyadic (Z.pos m') e' == dyadic (Z.pos m' * 2 ^ (e' - e)) e) as ->
    by (rewrite dyadic_shift by lia; by replace (e + (e' - e))%Z with e' by lia).
  all: set (w := dyadic (a * 2 ^ p) e).
  all: set (δ := dyadic (2 ^ p) e).
  all: assert (w <= X) as Hw
    by (eapply Qle_trans; [|exact HX1]; apply dyadic_le; lia).
  all: assert (X <= w + δ) as Hwd
    by (eapply Qle_trans; [exact HX2|]; unfold w, δ; rewrite <- dyadic_plus;
        apply dyadic_le; lia).
  all: assert (inject_Z (2 ^ 52) * δ <= w) as Hrel
    by (unfold w, δ, dyadic; rewrite (inject_Z_mult a), <- Qmult_assoc;
        apply Qmult_le_compat_r;
        [by rewrite <- Zle_Qle
        |apply Qlt_le_weak, (dyadic_pos (2 ^ p) e Hpow)]).
  all: assert (dyadic ((a + 1) * 2 ^ p) e == w + δ) as Hplus
    by (unfold w, δ; rewrite <- dyadic_plus; by replace ((a + 1) * 2 ^ p)%Z
          with (a * 2 ^ p + 2 ^ p)%Z by lia).
  all: assert (0 < δ) as Hδ by (apply dyadic_pos, Hpow).
  all: change (inject_Z (2 ^ 52)) with (4503599627370496 # 1) in Hrel.
  all: unfold ulp_bound; change (1 # 2 ^ 52) with (1 # 4503599627370496).
  all: destruct Hcases as [-> | ->]; [fold w | rewrite Hplus]; lra.
Qed.

End Dyadic.

Section Operations.
Local Open Scope Q_scope.

(** The error of a division of two normal doubles: [ρ] is the exact
    quotient. *)
Lemma div_error (x y : float) (mx my : positive) (ex ey : Z) (ρ : Q) :
  Prim2SF x = S754_finite false mx ex →
  Prim2SF y = S754_finite false my ey →
  Z.pos (digits2_pos mx) = 53%Z → Z.pos (digits2_pos my) = 53%Z →
  (-400 <= ex - ey <= 400)%Z →
  ρ * dyadic (Z.pos my) ey == dyadic (Z.pos mx) ex →
  ∃ m e,
    Prim2SF (x / y)%float = S754_finite false m e
    ∧ Z.pos (digits2_pos m) = 53%Z
    ∧ (ex - ey - 53 <= e <= ex - ey - 51)%Z
    ∧ ρ * (1 - ulp_bound) <= dyadic (Z.pos m) e
    ∧ dyadic (Z.pos m) e <= ρ * (1 + ulp_bound).
Proof.
  intros Hx Hy Hdx Hdy He Hρ.
  rewrite div_spec, Hx, Hy.
  unfold SF64div, SFdiv, SFdiv_core_binary. cbn [Zdigits2 xorb].
  rewrite Hdx, Hdy.
  assert (Z.min (fexp prec emax (53 + ex - (53 + ey))) (ex - ey) = ex - ey - 53)%Z
    as ->.
  { unfold fexp, SpecFloat.emin, prec, emax. lia. }
  replace (ex - ey - (ex - ey - 53))%Z with 53%Z by lia. cbv iota.
  rewrite Z.shiftl_mul_pow2 by lia.
  pose proof (digits2_pos_lower mx) as Hlx. pose proof (digits2_pos_upper mx) as Hux.
  pose proof (digits2_pos_lower my) as Hly. pose proof (digits2_pos_upper my) as Huy.
  rewrite Hdx in Hlx, Hux. rewrite Hdy in Hly, Huy.
  change (53 - 1)%Z with 52%Z in Hlx, Hly.
  pose proof (Z.div_eucl_eq (Z.pos mx * 2 ^ 53) (Z.pos my) ltac:(lia)) as Heq.
  pose proof (Z.mod_pos_bound (Z.pos mx * 2 ^ 53) (Z.pos my) ltac:(lia)) as Hr.
  unfold Z.modulo in Hr.
  destruct (Z.div_eucl (Z.pos mx * 2 ^ 53) (Z.pos my)) as [q r].
  assert (2 ^ 52 <= q < 2 ^ 54)%Z as Hq by nia.
  destruct q as [|q|q]; [lia | | lia].
  assert (53 <= Z.pos (digits2_pos q) <= 54)%Z as Hdq.
  { pose proof (digits2_pos_lower q) as Hl. pose proof (digits2_pos_upper q) as Hu.
    split.
    - destruct (Z.le_gt_cases 53 (Z.pos (digits2_pos q))) as [|Hgt]; [done|].
      assert (2 ^ Z.pos (digits2_pos q) <= 2 ^ 52)%Z
        by (apply Z.pow_le_mono_r; lia).
      lia.
    - destruct (Z.le_gt_cases (Z.pos (digits2_pos q)) 54) as [|Hgt]; [done|].
      assert (2 ^ 54 <= 2 ^ (Z.pos (digits2_pos q) - 1))%Z
        by (apply Z.pow_le_mono_r; lia).
      lia. }
  assert (0 < dyadic (Z.pos my) ey) as Hypos by by apply dyadic_pos.
  assert (dyadic (Z.pos mx) ex
          == dyadic (Z.pos mx * 2 ^ 53) (ex - ey - 53 + ey)) as Hnum.
  { rewrite dyadic_shift by lia.
    by replace (ex - ey - 53 + ey + 53)%Z with ex by lia. }
  destruct (binary_round_aux_error false q (ex - ey - 53)
              (new_location (Z.pos my) r) ρ)
    as (m & e & Hround & Hdm & Hem & Hlo & Hhi); [lia | lia | lia | | |].
  - apply (Qmult_le_r _ _ _ Hypos).
    rewrite Hρ, Hnum, <- dyadic_mult. apply dyadic_le. lia.
  - apply (Qmult_le_r _ _ _ Hypos).
    rewrite Hρ, Hnum, <- dyadic_mult. apply dyadic_le. lia.
  - exists m, e. split_and!; [done | done | lia | lia | done | done].
Qed.

(** The error of a multiplication of two normal doubles. *)
Lemma mul_error (x y : float) (mx my : positive) (ex ey : Z) :
  Prim2SF x = S754_finite false mx ex →
  Prim2SF y = S754_finite false my ey →
  Z.pos (digits2_pos mx) = 53%Z → Z.pos (digits2_pos my) = 53%Z →
  (-400 <= ex + ey <= 400)%Z →
  ∃ m e,
    Prim2SF (x * y)%float = S754_finite false m e
    ∧ Z.pos (digits2_pos m) = 53%Z
    ∧ (ex + ey + 52 <= e <= ex + ey + 54)%Z
    ∧ dyadic (Z.pos mx) ex * dyadic (Z.pos my) ey * (1 - ulp_bound)
      <= dyadic (Z.pos m) e
    ∧ dyadic (Z.pos m) e
      <= dyadic (Z.pos mx) ex * dyadic (Z.pos my) ey * (1 + ulp_bound).
Proof.
  intros Hx Hy Hdx Hdy He.
  rewrite mul_spec, Hx, Hy.
  unfold SF64mul, SFmul. cbn [xorb].
  pose proof (digits2_pos_lower mx) as Hlx. pose proof (digits2_pos_upper mx) as Hux.
  pose proof (digits2_pos_lower my) as Hly. pose proof (digits2_pos_upper my) as Huy.
  rewrite Hdx in Hlx, Hux. rewrite Hdy in Hly, Huy.
  change (53 - 1)%Z with 52%Z in Hlx, Hly.
  assert (2 ^ 104 <= Z.pos (mx * my) < 2 ^ 106)%Z as Hq.
  { rewrite Pos2Z.inj_mul.
    change (2 ^ 104)%Z with (2 ^ 52 * 2 ^ 52)%Z.
    change (2 ^ 106)%Z with (2 ^ 53 * 2 ^ 53)%Z. nia. }
  assert (105 <= Z.pos (digits2_pos (mx * my)) <= 106)%Z as Hdq.
  { pose proof (digits2_pos_lower (mx * my)) as Hl.
    pose proof (digits2_pos_upper (mx * my)) as Hu.
    split.
    - destruct (Z.le_gt_cases 105 (Z.pos (digits2_pos (mx * my)))) as [|Hgt];
        [done|].
      assert (2 ^ Z.pos (digits2_pos (mx * my)) <= 2 ^ 104)%Z
        by (apply Z.pow_le_mono_r; lia).
      lia.
    - destruct (Z.le_gt_cases (Z.pos (digits2_pos (mx * my))) 106) as [|Hgt];
        [done|].
      assert (2 ^ 106 <= 2 ^ (Z.pos (digits2_pos (mx * my)) - 1))%Z
        by (apply Z.pow_le_mono_r; lia).
      lia. }
  destruct (binary_round_aux_error false (mx * my) (ex + ey) loc_Exact
              (dyadic (Z.pos mx) ex * dyadic (Z.pos my) ey))
    as (m & e & Hround & Hdm & Hem & Hlo & Hhi); [lia | lia | lia | | |].
  - rewrite <- dyadic_mult, <- Pos2Z.inj_mul. apply Qle_refl.
  - rewrite <- dyadic_mult, <- Pos2Z.inj_mul. apply dyadic_le. lia.
  - exists m, e. split_and!; [done | done | lia | lia | done | done].
Qed.

End Operations.

Section Percentage.
Local Open Scope Q_scope.

Lemma dyadic_neg (m k : Z) :
  (0 <= k)%Z → dyadic m (- k) * inject_Z (2 ^ k) == inject_Z m.
Proof.
  intros Hk. rewrite <- (dyadic_0 (2 ^ k)), <- dyadic_mult, dyadic_shift by done.
  replace (- k + 0 + k)%Z with 0%Z by lia. apply dyadic_0.
Qed.

(** [Math.round] of a positive normal double is an integer within a half
    of it. *)
Lemma Math_round_near (x : float) (m : positive) (e : Z) :
  Prim2SF x = S754_finite false m e →
  Z.pos (digits2_pos m) = 53%Z →
  ∃ z, Number.to_Z (Number.Math_round x) = Some z
       ∧ (0 <= z)%Z
       ∧ inject_Z z - (1 # 2) <= dyadic (Z.pos m) e
       ∧ dyadic (Z.pos m) e < inject_Z z + (1 # 2).
Proof.
  intros Hx Hd. unfold Number.Math_round. rewrite Hx.
  destruct (Z.leb_spec 0 e) as [He|He].
  - exists (Z.pos m * 2 ^ e)%Z.
    assert (0 < 2 ^ e)%Z by (apply Z.pow_pos_nonneg; lia).
    split_and!.
    + unfold Number.to_Z. rewrite Hx.
      by replace (0 <=? e)%Z with true by (symmetry; by apply Z.leb_le).
    + lia.
    + rewrite <- (dyadic_0 (Z.pos m * 2 ^ e)), dyadic_shift by done.
      rewrite Z.add_0_l. lra.
    + rewrite <- (dyadic_0 (Z.pos m * 2 ^ e)), dyadic_shift by done.
      rewrite Z.add_0_l. lra.
  - set (k := (- e)%Z). assert (1 <= k)%Z as Hk by (unfold k; lia).
    replace (1 - e)%Z with (1 + k)%Z by (unfold k; lia).
    rewrite Z.pow_add_r by lia. change (2 ^ 1)%Z with 2%Z.
    assert (2 <= 2 ^ k)%Z as Hpow.
    { change 2%Z with (2 ^ 1)%Z at 1. apply Z.pow_le_mono_r; lia. }
    set (P := (2 ^ k)%Z) in *.
    set (r := ((2 * Z.pos m + P) / (2 * P))%Z).
    pose proof (Z.mul_div_le (2 * Z.pos m + P) (2 * P) ltac:(lia)) as Hr1.
    pose proof (Z.mul_succ_div_gt (2 * Z.pos m + P) (2 * P) ltac:(lia)) as Hr2.
    fold r in Hr1, Hr2.
    pose proof (digits2_pos_upper m) as Hm. rewrite Hd in Hm.
    assert (0 <= r < 2 ^ 53)%Z as Hr.
    { split; [apply Z.div_pos; lia|]. nia. }
    pose proof (dyadic_neg (Z.pos m) k ltac:(lia)) as Hval.
    replace (- k)%Z with e in Hval by (unfold k; lia). fold P in Hval.
    assert (0 < inject_Z P) as HP by (change 0 with (inject_Z 0); rewrite <- Zlt_Qlt; lia).
    assert (inject_Z r - (1 # 2) <= dyadic (Z.pos m) e
            ∧ dyadic (Z.pos m) e < inject_Z r + (1 # 2)) as [Hlo Hhi].
    { split.
      - apply (Qmult_le_r _ _ _ HP). rewrite Hval.
        assert (inject_Z (2 * P * r) <= inject_Z (2 * Z.pos m + P)) as H
          by (rewrite <- Zle_Qle; lia).
        rewrite inject_Z_plus, !inject_Z_mult in H.
        change (inject_Z 2) with 2 in H. lra.
      - apply (Qmult_lt_r _ _ _ HP). rewrite Hval.
        assert (inject_Z (2 * Z.pos m + P) < inject_Z (2 * P * Z.succ r)) as H
          by (rewrite <- Zlt_Qlt; lia).
        unfold Z.succ in H.
        rewrite !inject_Z_plus, !inject_Z_mult, inject_Z_plus in H.
        change (inject_Z 2) with 2 in H. change (inject_Z 1) with 1 in H. lra. }
    exists r. split_and!; [|lia|done|done].
    destruct (Z.eqb_spec r 0) as [Hz|Hz].
    + by rewrite Hz.
    + unfold Number.of_Z.
      replace (0 <=? r)%Z with true by (symmetry; apply Z.leb_le; lia).
      pose proof (to_Z_of_nat (Z.to_nat r)) as Hto.
      unfold Number.of_nat in Hto. rewrite Z2Nat.id in Hto by lia.
      apply Hto. lia.
Qed.

(** The displayed percentage is an integer nearest to
    [100 * completed / total]. *)
Lemma percentage_nearest (completed total : nat) :
  (0 < total)%nat → (Z.of_nat total < 2 ^ 53)%Z →
  (Z.of_nat completed <= 2 ^ 43)%Z →
  ∃ z, Number.to_Z (percentage completed total) = Some z
       ∧ (0 <= z)%Z
       ∧ (Z.abs (2 * Z.of_nat total * z - 200 * Z.of_nat completed)
          <= Z.of_nat total)%Z.
Proof.
  intros Htotal Hlt Hcompleted.
  destruct completed as [|n].
  { exists 0%Z. rewrite percentage_none by done. split_and!; [done | done | lia]. }
  set (completed := S n) in *.
  destruct (of_nat_value completed) as (mc & ec & Hc & Hdc & Hec & Hmc);
    [lia | lia |].
  destruct (of_nat_value total) as (mt & et & Ht & Hdt & Het & Hmt); [lia | lia |].
  set (C := inject_Z (Z.of_nat completed)).
  set (T := inject_Z (Z.of_nat total)).
  assert (0 < T) as HT by (unfold T; change 0 with (inject_Z 0); rewrite <- Zlt_Qlt; lia).
  assert (0 < C) as HC by (unfold C; change 0 with (inject_Z 0); rewrite <- Zlt_Qlt; lia).
  assert (C <= inject_Z (2 ^ 43)) as HC43 by (unfold C; by rewrite <- Zle_Qle).
  change (inject_Z (2 ^ 43)) with (8796093022208 # 1) in HC43.
  assert (dyadic (Z.pos mc) ec == C) as Hvc.
  { rewrite Hmc, dyadic_shift by lia.
    replace (ec + - ec)%Z with 0%Z by lia. apply dyadic_0. }
  assert (dyadic (Z.pos mt) et == T) as Hvt.
  { rewrite Hmt, dyadic_shift by lia.
    replace (et + - et)%Z with 0%Z by lia. apply dyadic_0. }
  set (ρ := C / T).
  assert (ρ * T == C) as Hρ by (unfold ρ; field; lra).
  destruct (div_error _ _ mc mt ec et ρ Hc Ht Hdc Hdt)
    as (m1 & e1 & H1 & Hd1 & He1 & Hlo1 & Hhi1); [lia | by rewrite Hvc, Hvt |].
  assert (Prim2SF 100 = S754_finite false 7036874417766400 (-46)) as H100
    by reflexivity.
  destruct (mul_error _ _ m1 7036874417766400 e1 (-46) H1 H100 Hd1)
    as (m2 & e2 & H2 & Hd2 & He2 & Hlo2 & Hhi2); [done | lia |].
  assert (dyadic 7036874417766400 (-46) == 100) as Hv100 by reflexivity.
  rewrite Hv100 in Hlo2, Hhi2.
  destruct (Math_round_near _ m2 e2 H2 Hd2) as (z & Hz & Hz0 & Hzlo & Hzhi).
  exists z. split_and!; [done | done |].
  unfold ulp_bound in *. change (1 # 2 ^ 52) with (1 # 4503599627370496) in *.
  set (Y1 := dyadic (Z.pos m1) e1) in *. set (Y2 := dyadic (Z.pos m2) e2) in *.
  set (u := 1 # 4503599627370496) in *.
  assert (0 < ρ) as Hρ0.
  { apply (Qmult_lt_r _ _ _ HT). rewrite Hρ. lra. }
  assert (inject_Z z - (1 # 2) <= 100 * (1 + u) * (1 + u) * ρ) as Hup.
  { unfold u in *. lra. }
  assert (100 * (1 - u) * (1 - u) * ρ < inject_Z z + (1 # 2)) as Hdown.
  { unfold u in *. lra. }
  apply (Qmult_le_compat_r _ _ T) in Hup; [|lra].
  apply (Qmult_lt_compat_r _ _ T) in Hdown; [|lra].
  assert (100 * (1 + u) * (1 + u) * ρ * T == 100 * (1 + u) * (1 + u) * C) as Ea
    by (rewrite <- Hρ; ring).
  assert (100 * (1 - u) * (1 - u) * ρ * T == 100 * (1 - u) * (1 - u) * C) as Eb
    by (rewrite <- Hρ; ring).
  rewrite Ea in Hup. rewrite Eb in Hdown.
  assert (inject_Z (2 * Z.of_nat total * z - 200 * Z.of_nat completed)
          < inject_Z (Z.of_nat total + 1)) as Hhigh.
  { unfold Z.sub. rewrite !inject_Z_plus, inject_Z_opp, !inject_Z_mult.
    fold C T. change (inject_Z 2) with 2. change (inject_Z 200) with 200.
    change (inject_Z 1) with 1. unfold u in *. lra. }
  assert (inject_Z (- (Z.of_nat total + 1))
          < inject_Z (2 * Z.of_nat total * z - 200 * Z.of_nat completed)) as Hlow.
  { unfold Z.sub. rewrite inject_Z_opp, !inject_Z_plus, inject_Z_opp, !inject_Z_mult.
    fold C T. change (inject_Z 2) with 2. change (inject_Z 200) with 200.
    change (inject_Z 1) with 1. unfold u in *. lra. }
  rewrite <- Zlt_Qlt in Hhigh, Hlow. lia.
Qed.

End Percentage.

(** ** The claims *)

(** *** C1 *)

Lemma fold_Set_add_strings (ids l : list (list N)) :
  NoDup l →
  ∃ l', fold_left Set_add (VStr <$> ids) (VStr <$> l) = VStr <$> l'
        ∧ NoDup l'
        ∧ (list_to_set l' : gset (list N)) = list_to_set l ∪ list_to_set ids.
Proof.
  revert l. induction ids as [|x ids IH]; intros l Hl.
  - exists l. split_and!; [done | done | set_solver].
  - cbn [fmap list_fmap fold_left].
    destruct (Set_has (VStr <$> l) (VStr x)) eqn:Hhas.
    + unfold Set_add at 2. rewrite Hhas.
      destruct (IH l Hl) as (l' & Heq & Hnd & Hset).
      exists l'. split_and!; [done | done |].
      apply (Set_has_elem _ (VStr x) I), list_elem_of_fmap in Hhas as (y & [= ->] & Hy).
      rewrite Hset. set_solver.
    + rewrite (Set_add_fresh _ _ Hhas). cbn [Set_key].
      assert (x ∉ l) as Hx.
      { intros Hx. apply (list_elem_of_fmap_2 VStr) in Hx.
        apply (Set_has_identifier _ (VStr x) I) in Hx. congruence. }
      change ((VStr <$> l) ++ [VStr x]) with ((VStr <$> l) ++ (VStr <$> [x])).
      rewrite <- fmap_app.
      destruct (IH (l ++ [x])) as (l' & Heq & Hnd & Hset).
      { apply NoDup_app. split_and!; [done | | apply NoDup_singleton].
        intros y Hy ->%list_elem_of_singleton. done. }
      exists l'. split_and!; [done | done |].
      rewrite Hset, list_to_set_app_L. set_solver.
Qed.

(** C1.  Starting from an empty set, after any finite sequence of calls
    [markSectionVisited(id)] with string identifiers, repeated or not and
    in any order, [state.visitedSections] holds each identifier that was
    passed exactly once and nothing else: as a set it is the set of the
    identifiers passed, and its size is the number of distinct ones.
    This holds whether or not the store takes the writes; when it takes
    them, no call throws. *)
Theorem C1_mark_all_is_the_set_of_ids (ids : list (list N)) (w : World) :
  visitedSections w = [] →
  (store_accepts w → (mark_all (VStr <$> ids) w).2 = Normal undefined)
  ∧ ∃ l, visitedSections (mark_all (VStr <$> ids) w).1 = VStr <$> l
         ∧ NoDup l
         ∧ (list_to_set l : gset (list N)) = list_to_set ids
         ∧ Set_size (visitedSections (mark_all (VStr <$> ids) w).1)
           = size (list_to_set ids : gset (list N)).
Proof.
  intros Hempty. split; [apply mark_all_completes|].
  rewrite mark_all_sections, Hempty.
  destruct (fold_Set_add_strings ids [] (NoDup_nil_2)) as (l & Heq & Hnd & Hset).
  change (VStr <$> []) with (@nil value) in Heq.
  exists l. split_and!; [done | done | set_solver |].
  rewrite Heq. unfold Set_size. rewrite length_fmap.
  replace (list_to_set ids : gset (list N)) with (list_to_set l : gset (list N))
    by set_solver.
  by rewrite size_list_to_set.
Qed.

Lemma C1_witness :
  (∃ l, visitedSections
          (mark_all (VStr <$> [str "intro"; str "css"; str "intro"])
             (initial_World 3 ∅ (λ _, []) unlimited)).1 = VStr <$> l
        ∧ NoDup l
        ∧ (list_to_set l : gset (list N))
          = list_to_set [str "intro"; str "css"; str "intro"]
        ∧ Set_size (visitedSections
            (mark_all (VStr <$> [str "intro"; str "css"; str "intro"])
               (initial_World 3 ∅ (λ _, []) unlimited)).1)
          = size (list_to_set [str "intro"; str "css"; str "intro"] : gset (list N)))
  ∧ ∃ l, visitedSections
           (mark_all (VStr <$> [str "intro"; str "css"; str "intro"])
              (initial_World 3 ∅ (λ _, []) full_store)).1 = VStr <$> l
         ∧ NoDup l
         ∧ (list_to_set l : gset (list N))
           = list_to_set [str "intro"; str "css"; str "intro"]
         ∧ Set_size (visitedSections
             (mark_all (VStr <$> [str "intro"; str "css"; str "intro"])
                (initial_World 3 ∅ (λ _, []) full_store)).1)
           = size (list_to_set [str "intro"; str "css"; str "intro"] : gset (list N)).
Proof.
  split.
  - exact (proj2 (C1_mark_all_is_the_set_of_ids
             [str "intro"; str "css"; str "intro"]
             (initial_World 3 ∅ (λ _, []) unlimited) eq_refl)).
  - exact (proj2 (C1_mark_all_is_the_set_of_ids
             [str "intro"; str "css"; str "intro"]
             (initial_World 3 ∅ (λ _, []) full_store) eq_refl)).
Defined.

(** *** C2 *)

(** C2, as stated, fails: [markSectionVisited] has no [return]
    statement, so the first call with a fresh identifier evaluates to
    [undefined], not to [true]. *)
Lemma C2_counterexample :
  Set_has (visitedSections (initial_World 3 ∅ (λ _, []) unlimited)) (VStr (str "intro"))
  = false
  ∧ (markSectionVisited (VStr (str "intro")) (initial_World 3 ∅ (λ _, []) unlimited)).2
    = Normal undefined
  ∧ Normal undefined ≠ Normal (Some (VBool true)).
Proof. split_and!; [reflexivity | reflexivity | discriminate]. Qed.

(** C2, amended.  [markSectionVisited(x)] never returns [true] or
    [false]: it returns nothing ([undefined]) or throws.  When [x] is
    already in the set the call changes nothing: the world is the same,
    so nothing is written to storage.  When [x] is not in the set the
    call appends [x], shows the new count and percentage, and calls
    [setItem] once with the record of the new set.  If the store takes
    the write, the call returns and the record is stored; if the store
    rejects it, the call throws [QuotaExceededError], with the set and
    the display updated and the storage as before.  In both cases a
    second call with the same [x] right after changes nothing and
    returns, so the two calls together grow the set by exactly one
    element and call [setItem] once. *)
Theorem C2_markSectionVisited_idempotent (x : value) (w : World) :
  identifier x →
  (∀ b, (markSectionVisited x w).2 ≠ Normal (Some (VBool b)))
  ∧ (x ∈ visitedSections w → markSectionVisited x w = (w, Normal undefined))
  ∧ (x ∉ visitedSections w →
     visitedSections (markSectionVisited x w).1 = visitedSections w ++ [x]
     ∧ completedSections_text (markSectionVisited x w).1
       = Some (S (Set_size (visitedSections w)))
     ∧ progressPercentage_text (markSectionVisited x w).1
       = Some (percentage (S (Set_size (visitedSections w))) (sections_length w))
     ∧ storage_writes (markSectionVisited x w).1
       = storage_writes w
         ++ [(PROGRESS,
              record_text (visitedSections w ++ [x]) (Date_oracle w (Date_calls w)))]
     ∧ (write_accepted w →
        (markSectionVisited x w).2 = Normal undefined
        ∧ localStorage (markSectionVisited x w).1 !! PROGRESS
          = Some (record_text (visitedSections w ++ [x])
                    (Date_oracle w (Date_calls w))))
     ∧ (¬ write_accepted w →
        (markSectionVisited x w).2 = Throw QuotaExceededError
        ∧ localStorage (markSectionVisited x w).1 = localStorage w)
     ∧ markSectionVisited x (markSectionVisited x w).1
       = ((markSectionVisited x w).1, Normal undefined)
     ∧ Set_size (visitedSections
                   (markSectionVisited x (markSectionVisited x w).1).1)
       = S (Set_size (visitedSections w))).
Proof.
  intros Hp. split_and!.
  - intros b. rewrite markSectionVisited_completion. unfold save_completion.
    by repeat case_match.
  - intros Hin. by apply markSectionVisited_member, Set_has_identifier.
  - intros Hnot.
    pose proof (Set_has_fresh _ _ Hp Hnot) as Hfresh.
    assert (markSectionVisited x (markSectionVisited x w).1
            = ((markSectionVisited x w).1, Normal undefined)) as Hagain.
    { apply markSectionVisited_member. rewrite markSectionVisited_sections.
      by apply Set_has_add. }
    rewrite Hagain. rewrite (markSectionVisited_fresh _ _ Hfresh).
    rewrite (Set_key_identifier _ Hp). unfold write_accepted, save_completion.
    cbn [fst snd].
    destruct (added_fields (visitedSections w ++ [x]) w)
      as (-> & -> & -> & -> & -> & _).
    assert (length (visitedSections w ++ [x]) = S (Set_size (visitedSections w))) as ->.
    { unfold Set_size. rewrite length_app. simpl. lia. }
    split_and!; try done.
    + intros ->. split; [done | apply lookup_insert_eq].
    + intros Hrej. apply not_false_is_true in Hrej. by rewrite Hrej.
    + unfold Set_size. rewrite length_app. simpl. lia.
Qed.

Lemma C2_witness :
  markSectionVisited (VStr (str "intro"))
    (set_visitedSections [VStr (str "intro")] (initial_World 3 ∅ (λ _, []) unlimited))
  = (set_visitedSections [VStr (str "intro")] (initial_World 3 ∅ (λ _, []) unlimited),
     Normal undefined)
  ∧ visitedSections
      (markSectionVisited (VStr (str "intro"))
         (initial_World 3 ∅ (λ _, []) unlimited)).1
    = [] ++ [VStr (str "intro")]
  ∧ (markSectionVisited (VStr (str "intro"))
       (initial_World 3 ∅ (λ _, []) full_store)).2
    = Throw QuotaExceededError
  ∧ markSectionVisited (VStr (str "intro"))
      (markSectionVisited (VStr (str "intro"))
         (initial_World 3 ∅ (λ _, []) full_store)).1
    = ((markSectionVisited (VStr (str "intro"))
          (initial_World 3 ∅ (λ _, []) full_store)).1,
       Normal undefined).
Proof.
  split_and!.
  - apply (proj1 (proj2 (C2_markSectionVisited_idempotent (VStr (str "intro"))
             (set_visitedSections [VStr (str "intro")]
                (initial_World 3 ∅ (λ _, []) unlimited)) I))).
    apply list_elem_of_here.
  - exact (proj1 (proj2 (proj2 (C2_markSectionVisited_idempotent (VStr (str "intro"))
                    (initial_World 3 ∅ (λ _, []) unlimited) I))
                    (not_elem_of_nil _))).
  - pose proof (proj2 (proj2 (C2_markSectionVisited_idempotent (VStr (str "intro"))
                         (initial_World 3 ∅ (λ _, []) full_store) I))
                  (not_elem_of_nil _)) as (_ & _ & _ & _ & _ & Hrej & _).
    refine (proj1 (Hrej _)). discriminate.
  - pose proof (proj2 (proj2 (C2_markSectionVisited_idempotent (VStr (str "intro"))
                         (initial_World 3 ∅ (λ _, []) full_store) I))
                  (not_elem_of_nil _)) as (_ & _ & _ & _ & _ & _ & Hagain & _).
    exact Hagain.
Defined.

(** *** C3 *)

(** C3.  Saving and loading round-trips.  Let the visited set hold
    identifiers (strings, or [null] for a section without an [id]), and
    let the store take the write of [saveUserProgress].  Then
    [loadUserProgress] run in any world whose storage holds what was
    saved (the same page, or the next visit of it) ends with the very
    same set, in the same order, so with the same members; it does not
    throw and logs no error. *)
Theorem C3_save_then_load (w w' : World) :
  Forall identifier (visitedSections w) →
  NoDup (visitedSections w) →
  write_accepted w →
  localStorage w' !! PROGRESS = localStorage (saveUserProgress w).1 !! PROGRESS →
  visitedSections (loadUserProgress w').1 = visitedSections w
  ∧ (∀ x, x ∈ visitedSections (loadUserProgress w').1 ↔ x ∈ visitedSections w)
  ∧ (loadUserProgress w').2 = Normal undefined
  ∧ console (loadUserProgress w').1
    = console w' ++ [LogLoaded (length (visitedSections w))].
Proof.
  intros Hid Hnd Hacc Hstore.
  rewrite saveUserProgress_eq in Hstore. unfold saved in Hstore.
  cbn [fst localStorage set_storage] in Hstore.
  rewrite Hacc, lookup_insert_eq in Hstore.
  rewrite loadUserProgress_eq, Hstore, record_text_nonempty.
  rewrite (decode_record_text _ _ Hid Hnd).
  done.
Qed.

Lemma C3_witness :
  visitedSections
    (loadUserProgress
       (saveUserProgress
          (set_visitedSections [VStr (str "intro"); VNull; VStr (str "css-basics")]
             (initial_World 3 ∅ (λ _, str "2024-01-15T10:30:00.000Z") unlimited))).1).1
  = [VStr (str "intro"); VNull; VStr (str "css-basics")].
Proof.
  refine (proj1 (C3_save_then_load
    (set_visitedSections [VStr (str "intro"); VNull; VStr (str "css-basics")]
       (initial_World 3 ∅ (λ _, str "2024-01-15T10:30:00.000Z") unlimited))
    (saveUserProgress
       (set_visitedSections [VStr (str "intro"); VNull; VStr (str "css-basics")]
          (initial_World 3 ∅ (λ _, str "2024-01-15T10:30:00.000Z") unlimited))).1
    _ _ eq_refl eq_refl)).
  - repeat constructor.
  - repeat (apply NoDup_cons_2;
              [intros H; repeat (apply elem_of_cons in H as [H|H]; [discriminate|]);
               by apply elem_of_nil in H|]).
    apply NoDup_nil_2.
Defined.

(** *** C5 *)


(** A Number that is too small for a double is the zero, which stands
    for no field: a record with such a [visitedSections] loads the empty
    set without an error. *)
Example tiny_number_is_no_field :
  decode (json_text "{'visitedSections':1e-400}") = Normal [].
Proof. by vm_compute. Qed.


Lemma get_property_field (progress : value) :
  get_property progress (str "visitedSections")
  = match progress with
    | VNull => Throw TypeError
    | _ => Normal (visitedSections_field progress)
    end.
Proof. by destruct progress. Qed.





(** *** C6 *)

(** C6, as stated, fails: the script has no precondition checks.  On a
    page that never ran [DOMContentLoaded] and has no sections at all,
    [markSectionVisited("")] completes normally, returns [undefined],
    adds the empty identifier to the set and writes it to storage. *)
Lemma C6_counterexample :
  (markSectionVisited (VStr []) (initial_World 0 ∅ (λ _, []) unlimited)).2
  = Normal undefined
  ∧ visitedSections
      (markSectionVisited (VStr []) (initial_World 0 ∅ (λ _, []) unlimited)).1
    = [VStr []]
  ∧ length (storage_writes
              (markSectionVisited (VStr []) (initial_World 0 ∅ (λ _, []) unlimited)).1)
    = 1
  ∧ ∀ e, (markSectionVisited (VStr []) (initial_World 0 ∅ (λ _, []) unlimited)).2
         ≠ Throw e.
Proof. split_and!; [reflexivity | reflexivity | reflexivity | discriminate]. Qed.

(** C6, amended.  The script checks no precondition and has no state
    that tells a page that has run [DOMContentLoaded] from one that has
    not.  In every world, for every identifier, the empty string
    included, [markSectionVisited] goes ahead: afterwards the identifier
    is in the set.  The only exception it can end with is the one of the
    store, [QuotaExceededError], and it ends with it exactly when the
    identifier was new and the store rejected the write.  The
    [DOMContentLoaded] handler runs to its end on a page of any number
    of sections, zero included, and shows that number. *)
Theorem C6_no_precondition_is_checked (w : World) (x : value) :
  identifier x →
  visitedSections (markSectionVisited x w).1 = Set_add (visitedSections w) x
  ∧ x ∈ visitedSections (markSectionVisited x w).1
  ∧ ((markSectionVisited x w).2 = Normal undefined
     ∨ (markSectionVisited x w).2 = Throw QuotaExceededError)
  ∧ ((markSectionVisited x w).2 = Throw QuotaExceededError
     ↔ (x ∉ visitedSections w) ∧ ¬ write_accepted w)
  ∧ (DOMContentLoaded w).2 = Normal undefined
  ∧ totalSections_text (DOMContentLoaded w).1 = Some (sections_length w).
Proof.
  intros Hid. rewrite markSectionVisited_sections, markSectionVisited_completion.
  unfold save_completion, write_accepted. split_and!.
  - done.
  - apply elem_of_Set_add; [done | by right].
  - repeat case_match; auto.
  - destruct (Set_has (visitedSections w) x) eqn:Hhas.
    + apply (Set_has_identifier _ _ Hid) in Hhas. split; [done | by intros [? _]].
    + assert (x ∉ visitedSections w) as Hnot.
      { intros Hin. apply (Set_has_identifier _ _ Hid) in Hin. congruence. }
      destruct (quota_exceeded w (length (storage_writes w))); split; try done.
      * by intros [_ H].
  - by rewrite DOMContentLoaded_eq.
  - by rewrite DOMContentLoaded_eq.
Qed.

Lemma C6_witness :
  VStr [] ∈ visitedSections
              (markSectionVisited (VStr []) (initial_World 0 ∅ (λ _, []) unlimited)).1
  ∧ VStr [] ∈ visitedSections
                (markSectionVisited (VStr []) (initial_World 0 ∅ (λ _, []) full_store)).1.
Proof.
  split.
  - exact (proj1 (proj2 (C6_no_precondition_is_checked
             (initial_World 0 ∅ (λ _, []) unlimited) (VStr []) I))).
  - exact (proj1 (proj2 (C6_no_precondition_is_checked
             (initial_World 0 ∅ (λ _, []) full_store) (VStr []) I))).
Defined.

(** *** C7 *)

(** C7.  Each operation of the tracker keeps every member of the visited
    set: whatever is in [state.visitedSections] before
    [markSectionVisited], [saveUserProgress] or [updateProgressDisplay]
    is in it afterwards, also when the store rejects the write. *)
Theorem C7_sections_never_shrink (op : operation) (w : World) :
  visitedSections w ⊆ visitedSections (run op w).1.
Proof.
  destruct op as [x| |]; simpl.
  - rewrite markSectionVisited_sections. apply Set_add_subseteq.
  - by rewrite saveUserProgress_eq.
  - by rewrite updateProgressDisplay_eq.
Qed.

(** *** C9 *)

(** C9.  When [localStorage] has nothing under the progress key,
    [loadUserProgress] changes nothing and reports nothing; the
    [DOMContentLoaded] handler of a fresh page ends with the empty set,
    an empty console and no exception. *)
Theorem C9_absent_record (w : World) (total : nat)
    (storage : gmap (list N) (list N)) (oracle : nat → list N) (quota : nat → bool) :
  localStorage w !! PROGRESS = None →
  storage !! PROGRESS = None →
  loadUserProgress w = (w, Normal undefined)
  ∧ visitedSections (DOMContentLoaded (initial_World total storage oracle quota)).1 = []
  ∧ console (DOMContentLoaded (initial_World total storage oracle quota)).1 = []
  ∧ (DOMContentLoaded (initial_World total storage oracle quota)).2 = Normal undefined.
Proof.
  intros Hw Hs.
  assert (∀ w, localStorage w !! PROGRESS = None →
               loadUserProgress w = (w, Normal undefined)) as Hload.
  { intros w0 H0. by rewrite loadUserProgress_eq, H0. }
  split; [by apply Hload|].
  rewrite DOMContentLoaded_eq, (Hload (initial_World total storage oracle quota) Hs).
  done.
Qed.

Lemma C9_witness :
  loadUserProgress (initial_World 3 ∅ (λ _, []) unlimited)
  = (initial_World 3 ∅ (λ _, []) unlimited, Normal undefined)
  ∧ visitedSections (DOMContentLoaded (initial_World 3 ∅ (λ _, []) unlimited)).1 = []
  ∧ console (DOMContentLoaded (initial_World 3 ∅ (λ _, []) unlimited)).1 = []
  ∧ (DOMContentLoaded (initial_World 3 ∅ (λ _, []) unlimited)).2 = Normal undefined.
Proof.
  apply (C9_absent_record (initial_World 3 ∅ (λ _, []) unlimited) 3 ∅ (λ _, []) unlimited);
    apply lookup_empty.
Defined.

(** *** C10 *)

Lemma JSON_parse_empty : JSON_parse [] = Throw SyntaxError.
Proof. reflexivity. Qed.

(** C10, as stated, fails: the text [null] parses as JSON and the parsed
    value has no [visitedSections], yet reading the property of [null]
    throws.  The error is caught and logged, and the set is left as it
    was, here with the member it had. *)
Lemma C10_counterexample :
  JSON_parse (str "null") = Normal VNull
  ∧ visitedSections_field VNull = undefined
  ∧ console
      (loadUserProgress
         (set_visitedSections [VStr (str "kept")]
            (initial_World 3 {[ PROGRESS := str "null" ]} (λ _, []) unlimited))).1
    = [LogError TypeError]
  ∧ visitedSections
      (loadUserProgress
         (set_visitedSections [VStr (str "kept")]
            (initial_World 3 {[ PROGRESS := str "null" ]} (λ _, []) unlimited))).1
    = [VStr (str "kept")].
Proof. split_and!; by vm_compute. Qed.

(** C10, amended.  Let the stored value parse as JSON to a value whose
    [visitedSections] is absent or [null].  When the parsed value is not
    [null] itself (it is an object, an array, a string, a Number or a
    boolean), [loadUserProgress] installs the empty set, logs that zero
    sections were loaded and no error, and returns normally.  When the
    parsed value is [null], the property read throws a [TypeError]:
    [loadUserProgress] logs it, leaves the set as it was and returns
    normally. *)
Theorem C10_missing_field_is_defaulted (w : World) (text : list N) (progress : value) :
  localStorage w !! PROGRESS = Some text →
  JSON_parse text = Normal progress →
  visitedSections_field progress = undefined
  ∨ visitedSections_field progress = Some VNull →
  (progress ≠ VNull →
   visitedSections (loadUserProgress w).1 = []
   ∧ console (loadUserProgress w).1 = console w ++ [LogLoaded 0]
   ∧ (loadUserProgress w).2 = Normal undefined)
  ∧ (progress = VNull →
     visitedSections (loadUserProgress w).1 = visitedSections w
     ∧ console (loadUserProgress w).1 = console w ++ [LogError TypeError]
     ∧ (loadUserProgress w).2 = Normal undefined).
Proof.
  intros Hstore Hparse Hfield.
  assert (jsstring_eqb text [] = false) as Hne.
  { unfold jsstring_eqb. apply bool_decide_eq_false_2.
    intros ->. by rewrite JSON_parse_empty in Hparse. }
  split.
  - intros Hnotnull.
    assert (decode text = Normal []) as Hdec.
    { unfold decode. rewrite Hparse. cbn [cbind]. rewrite get_property_field.
      assert (match progress with
              | VNull => Throw TypeError
              | _ => Normal (visitedSections_field progress)
              end = Normal (visitedSections_field progress)) as ->
        by (by destruct progress).
      cbn [cbind]. by destruct Hfield as [-> | ->]. }
    by rewrite loadUserProgress_eq, Hstore, Hdec, Hne.
  - intros ->.
    assert (decode text = Throw TypeError) as Hdec
      by (unfold decode; by rewrite Hparse).
    by rewrite loadUserProgress_eq, Hstore, Hdec, Hne.
Qed.

Lemma C10_witness :
  visitedSections
    (loadUserProgress
       (initial_World 3 {[ PROGRESS := json_text "{'lastVisited':'x'}" ]}
          (λ _, []) unlimited)).1
  = []
  ∧ visitedSections
      (loadUserProgress
         (initial_World 3 {[ PROGRESS := json_text "{'visitedSections':null}" ]}
            (λ _, []) unlimited)).1
    = []
  ∧ console
      (loadUserProgress
         (initial_World 3 {[ PROGRESS := str "null" ]} (λ _, []) unlimited)).1
    = [] ++ [LogError TypeError].
Proof.
  split_and!.
  - refine (proj1 (proj1 (C10_missing_field_is_defaulted
      (initial_World 3 {[ PROGRESS := json_text "{'lastVisited':'x'}" ]}
         (λ _, []) unlimited)
      (json_text "{'lastVisited':'x'}")
      (VObj [(str "lastVisited", VStr (str "x"))])
      eq_refl _ (or_introl eq_refl)) _)); [by vm_compute | discriminate].
  - refine (proj1 (proj1 (C10_missing_field_is_defaulted
      (initial_World 3 {[ PROGRESS := json_text "{'visitedSections':null}" ]}
         (λ _, []) unlimited)
      (json_text "{'visitedSections':null}")
      (VObj [(str "visitedSections", VNull)])
      eq_refl _ (or_intror eq_refl)) _)); [by vm_compute | discriminate].
  - refine (proj1 (proj2 (proj2 (C10_missing_field_is_defaulted
      (initial_World 3 {[ PROGRESS := str "null" ]} (λ _, []) unlimited)
      (str "null") VNull eq_refl _ (or_introl eq_refl)) eq_refl)));
      by vm_compute.
Defined.

(** *** C4 *)

Lemma displayed_percentage (w : World) :
  progressPercentage_text (updateProgressDisplay w).1
  = Some (percentage (Set_size (visitedSections w)) (sections_length w)).
Proof. by rewrite updateProgressDisplay_eq. Qed.

(** The scenario of the specification: three sections; "intro" gives
    33, "intro" again leaves 33, "setup" gives 67. *)
Example scenario_33_33_67 :
  List.map (λ ids, progressPercentage_text
                     (mark_all (VStr <$> ids) (initial_World 3 ∅ (λ _, []) unlimited)).1)
    [[str "intro"]; [str "intro"; str "intro"]; [str "intro"; str "intro"; str "setup"]]
  = [Some 33%float; Some 33%float; Some 67%float].
Proof. by vm_compute. Qed.

(** At an exact tie the double arithmetic decides: 23 of 40 is 57.5
    exactly, [(23 / 40) * 100] is a double just below it, and the display
    shows 57. *)
Example percentage_tie : percentage 23 40 = 57%float.
Proof. by vm_compute. Qed.

(** C4, as stated, fails: nothing clamps the percentage.  On a page with
    one section, after two identifiers were marked visited (a link to an
    anchor that is not a counted section, say), the display shows 200. *)
Lemma C4_counterexample :
  sections_length
    (mark_all [VStr (str "intro"); VStr (str "setup")]
       (initial_World 1 ∅ (λ _, []) unlimited)).1 = 1
  ∧ progressPercentage_text
      (mark_all [VStr (str "intro"); VStr (str "setup")]
         (initial_World 1 ∅ (λ _, []) unlimited)).1 = Some 200%float
  ∧ Number.to_Z 200%float = Some 200%Z
  ∧ ¬ (0 <= 200 <= 100)%Z.
Proof. split_and!; [by vm_compute | by vm_compute | by vm_compute | lia]. Qed.

(** C4, amended.  [updateProgressDisplay] shows
    [Math.round((size / total) * 100)], computed on doubles and not
    clamped.  For every positive total (below 2^53) and every visited
    set (of at most 2^43 members) the number shown is an integer [z],
    not negative, with [|z - 100 * size / total| <= 1/2]: an integer
    nearest to [100 * size / total]; at an exact tie it can be the lower
    one, as [percentage_tie] shows.  It is at most 100 when the size is
    at most the total, at least 100 when the size is at least the total,
    and above 100 once [200 * size > 201 * total].  It is 0 when the set
    is empty and exactly 100 when the size of the set equals the
    total. *)
Theorem C4_percentage (w : World) :
  0 < sections_length w →
  (Z.of_nat (sections_length w) < 2 ^ 53)%Z →
  ((Z.of_nat (Set_size (visitedSections w)) <= 2 ^ 43)%Z →
   ∃ p z, progressPercentage_text (updateProgressDisplay w).1 = Some p
          ∧ Number.to_Z p = Some z
          ∧ (0 <= z)%Z
          ∧ (Z.abs (2 * Z.of_nat (sections_length w) * z
                    - 200 * Z.of_nat (Set_size (visitedSections w)))
             <= Z.of_nat (sections_length w))%Z
          ∧ (Set_size (visitedSections w) ≤ sections_length w → (z <= 100)%Z)
          ∧ (sections_length w ≤ Set_size (visitedSections w) → (100 <= z)%Z)
          ∧ (201 * sections_length w < 200 * Set_size (visitedSections w) →
             (100 < z)%Z))
  ∧ (visitedSections w = [] →
     progressPercentage_text (updateProgressDisplay w).1 = Some 0%float)
  ∧ (Set_size (visitedSections w) = sections_length w →
     progressPercentage_text (updateProgressDisplay w).1 = Some 100%float).
Proof.
  intros Hpos Hlt. rewrite displayed_percentage. split_and!.
  - intros Hsize.
    destruct (percentage_nearest _ _ Hpos Hlt Hsize) as (z & Hz & Hz0 & Hnear).
    exists (percentage (Set_size (visitedSections w)) (sections_length w)), z.
    split_and!; [done | done | done | done | intros; nia | intros; nia | intros; nia].
  - intros ->. f_equal. by apply percentage_none.
  - intros ->. f_equal. by apply percentage_all.
Qed.

Lemma C4_witness :
  (∃ p z,
     progressPercentage_text
       (updateProgressDisplay
          (set_visitedSections [VStr (str "intro")]
             (initial_World 3 ∅ (λ _, []) unlimited))).1 = Some p
     ∧ Number.to_Z p = Some z
     ∧ (Z.abs (2 * 3 * z - 200 * 1) <= 3)%Z)
  ∧ progressPercentage_text
      (updateProgressDisplay (initial_World 5 ∅ (λ _, []) unlimited)).1 = Some 0%float.
Proof.
  split.
  - destruct (proj1 (C4_percentage
      (set_visitedSections [VStr (str "intro")] (initial_World 3 ∅ (λ _, []) unlimited))
      ltac:(simpl; lia) ltac:(simpl; lia)) ltac:(simpl; lia))
      as (p & z & Hp & Hz & _ & Hnear & _).
    exists p, z. split_and!; [exact Hp | exact Hz | exact Hnear].
  - refine (proj1 (proj2 (C4_percentage (initial_World 5 ∅ (λ _, []) unlimited) _ _)) eq_refl);
      simpl; lia.
Defined.

(** *** C8 *)













(** ** Further properties of the tracker *)

Lemma mark_all_app (ids ids' : list value) (w : World) :
  (mark_all (ids ++ ids') w).1 = (mark_all ids' (mark_all ids w).1).1.
Proof.
  revert w. induction ids as [|x ids IH]; intros w; [done|].
  cbn [app]. by rewrite !mark_all_cons, IH.
Qed.

(** The world after a call that added [x]. *)
Lemma markSectionVisited_fresh_world (x : value) (w : World) :
  Set_has (visitedSections w) x = false →
  visitedSections (markSectionVisited x w).1 = visitedSections w ++ [Set_key x]
  ∧ localStorage (markSectionVisited x w).1
    = (if quota_exceeded w (length (storage_writes w)) then localStorage w
       else <[PROGRESS := record_text (visitedSections w ++ [Set_key x])
                            (Date_oracle w (Date_calls w))]> (localStorage w))
  ∧ length (storage_writes (markSectionVisited x w).1) = S (length (storage_writes w))
  ∧ Date_calls (markSectionVisited x w).1 = S (Date_calls w)
  ∧ intervals (markSectionVisited x w).1 = intervals w
  ∧ sections_length (markSectionVisited x w).1 = sections_length w
  ∧ display_in_sync (markSectionVisited x w).1.
Proof.
  intros Hhas. rewrite (markSectionVisited_fresh _ _ Hhas). cbn [fst].
  destruct (added_fields (visitedSections w ++ [Set_key x]) w)
    as (Hs & Hc & Hp & Hw & Hl & Hd & Hi & Hn & _).
  unfold display_in_sync, Set_size. rewrite Hs, Hc, Hp, Hw, Hl, Hd, Hi, Hn.
  split_and!; try reflexivity.
  rewrite length_app. simpl. lia.
Qed.

Lemma stored_for_set (s : list value) (storage : gmap (list N) (list N)) :
  Forall identifier s → NoDup s → stored_for s storage →
  ∀ total oracle quota,
    loadUserProgress (initial_World total storage oracle quota)
    = (match storage !! PROGRESS with
       | Some _ => loaded s (initial_World total storage oracle quota)
       | None => initial_World total storage oracle quota
       end, Normal undefined).
Proof.
  intros Hid Hnd Hst total oracle quota. rewrite loadUserProgress_eq.
  cbn [localStorage initial_World].
  destruct Hst as [[-> ->] | [now ->]]; [done|].
  by rewrite record_text_nonempty, (decode_record_text _ _ Hid Hnd).
Qed.

Lemma DOMContentLoaded_restores (s : list value) (storage : gmap (list N) (list N))
    (total : nat) (oracle : nat → list N) (quota : nat → bool) :
  Forall identifier s → NoDup s → stored_for s storage →
  visitedSections (DOMContentLoaded (initial_World total storage oracle quota)).1 = s
  ∧ localStorage (DOMContentLoaded (initial_World total storage oracle quota)).1 = storage
  ∧ quota_exceeded (DOMContentLoaded (initial_World total storage oracle quota)).1 = quota.
Proof.
  intros Hid Hnd Hst. rewrite DOMContentLoaded_eq.
  rewrite (stored_for_set _ _ Hid Hnd Hst).
  destruct Hst as [[Hnone ->] | [now Hsome]].
  - by rewrite Hnone.
  - by rewrite Hsome.
Qed.

Lemma markSectionVisited_stored (x : value) (w : World) :
  identifier x → store_accepts w →
  stored_for (visitedSections w) (localStorage w) →
  stored_for (visitedSections (markSectionVisited x w).1)
    (localStorage (markSectionVisited x w).1).
Proof.
  intros Hid Hq Hst. destruct (Set_has (visitedSections w) x) eqn:Hhas.
  - by rewrite (markSectionVisited_member _ _ Hhas).
  - destruct (markSectionVisited_fresh_world _ _ Hhas) as (-> & -> & _).
    rewrite Hq. right. eexists. apply lookup_insert_eq.
Qed.

Lemma mark_all_stored (ids : list value) (w : World) :
  Forall identifier ids → store_accepts w →
  stored_for (visitedSections w) (localStorage w) →
  stored_for (visitedSections (mark_all ids w).1) (localStorage (mark_all ids w).1).
Proof.
  revert w. induction ids as [|x ids IH]; intros w Hids Hq Hst; [done|].
  apply Forall_cons in Hids as [Hx Hids].
  rewrite mark_all_cons. apply IH; [done | | by apply markSectionVisited_stored].
  unfold store_accepts. by rewrite markSectionVisited_quota.
Qed.

Lemma fold_Set_add_identifiers (ids s : list value) :
  Forall identifier ids → Forall identifier s → NoDup s →
  Forall identifier (fold_left Set_add ids s) ∧ NoDup (fold_left Set_add ids s).
Proof.
  revert s. induction ids as [|x ids IH]; intros s Hids Hs Hnd; [done|].
  apply Forall_cons in Hids as [Hx Hids]. cbn [fold_left]. apply IH; [done| |].
  - unfold Set_add. destruct (Set_has s x); [done|].
    rewrite (Set_key_identifier _ Hx).
    apply Forall_app. split; [done|]. by apply Forall_singleton.
  - by apply Set_add_NoDup.
Qed.

Lemma revisit_accumulates (total : nat) (oracle : nat → list N) (quota : nat → bool)
    (visits : list (list value)) (s : list value) (storage : gmap (list N) (list N)) :
  (∀ n, quota n = false) →
  Forall (Forall identifier) visits →
  Forall identifier s → NoDup s → stored_for s storage →
  visitedSections (revisit total oracle quota storage visits)
  = fold_left Set_add (concat visits) s.
Proof.
  intros Hq.
  revert s storage. induction visits as [|ids rest IH]; intros s storage Hv Hid Hnd Hst.
  - by apply DOMContentLoaded_restores.
  - apply Forall_cons in Hv as [Hids Hrest].
    destruct (DOMContentLoaded_restores s storage total oracle quota Hid Hnd Hst)
      as (Hs & Hl & Hquota).
    cbn [revisit concat]. rewrite fold_left_app.
    set (w := (DOMContentLoaded (initial_World total storage oracle quota)).1) in *.
    pose proof (mark_all_sections ids w) as Hm.
    destruct (fold_Set_add_identifiers ids s Hids Hid Hnd) as [Hid' Hnd'].
    apply IH; [done | done | done |].
    rewrite <- Hs, <- Hm. apply mark_all_stored; [done | | by rewrite Hs, Hl].
    unfold store_accepts. by rewrite Hquota.
Qed.

(** With a store that takes no write the storage stays as it is. *)
Lemma markSectionVisited_rejected (x : value) (w : World) :
  (∀ n, quota_exceeded w n = true) →
  localStorage (markSectionVisited x w).1 = localStorage w.
Proof.
  intros Hq. destruct (Set_has (visitedSections w) x) eqn:Hhas.
  - by rewrite (markSectionVisited_member _ _ Hhas).
  - destruct (markSectionVisited_fresh_world _ _ Hhas) as (_ & -> & _). by rewrite Hq.
Qed.

Lemma mark_all_rejected (ids : list value) (w : World) :
  (∀ n, quota_exceeded w n = true) →
  localStorage (mark_all ids w).1 = localStorage w.
Proof.
  revert w. induction ids as [|x ids IH]; intros w Hq; [done|].
  rewrite mark_all_cons, IH, markSectionVisited_rejected; [done | done |].
  intros n. by rewrite markSectionVisited_quota.
Qed.

Lemma DOMContentLoaded_absent (total : nat) (oracle : nat → list N) (quota : nat → bool)
    (storage : gmap (list N) (list N)) :
  storage !! PROGRESS = None →
  visitedSections (DOMContentLoaded (initial_World total storage oracle quota)).1 = []
  ∧ localStorage (DOMContentLoaded (initial_World total storage oracle quota)).1 = storage
  ∧ quota_exceeded (DOMContentLoaded (initial_World total storage oracle quota)).1 = quota.
Proof.
  intros Hnone. rewrite DOMContentLoaded_eq, loadUserProgress_eq.
  cbn [localStorage initial_World]. by rewrite Hnone.
Qed.

Lemma revisit_nothing_kept (total : nat) (oracle : nat → list N)
    (visits : list (list value)) (storage : gmap (list N) (list N)) :
  storage !! PROGRESS = None →
  visitedSections (revisit total oracle full_store storage visits) = [].
Proof.
  revert storage. induction visits as [|ids rest IH]; intros storage Hnone.
  - by apply DOMContentLoaded_absent.
  - cbn [revisit]. apply IH.
    destruct (DOMContentLoaded_absent total oracle full_store storage Hnone)
      as (_ & Hl & Hq).
    rewrite mark_all_rejected, Hl; [done|]. intros n. by rewrite Hq.
Qed.

(** X1.  Progress accumulates over visits of the page, as long as the
    store takes the writes.  Start with no stored record; on each visit
    the page loads what is stored and then marks the identifiers of that
    visit.  With a store that takes every write, when the page is
    opened once more, the visited set is the set built from all
    identifiers of all visits, in the order of their first visit:
    nothing that was visited is lost between visits and nothing else
    appears.  With a store that takes no write, nothing is carried
    over: the page opens with the empty set every time. *)
Theorem X1_progress_accumulates_over_visits (total : nat) (oracle : nat → list N)
    (quota : nat → bool) (storage : gmap (list N) (list N))
    (visits : list (list value)) :
  storage !! PROGRESS = None →
  Forall (Forall identifier) visits →
  ((∀ n, quota n = false) →
   visitedSections (revisit total oracle quota storage visits)
   = fold_left Set_add (concat visits) [])
  ∧ visitedSections (revisit total oracle full_store storage visits) = [].
Proof.
  intros Hnone Hv. split.
  - intros Hq. apply revisit_accumulates; [done | done | done | apply NoDup_nil_2 |].
    by left.
  - by apply revisit_nothing_kept.
Qed.

Lemma X1_witness :
  visitedSections
    (revisit 3 (λ _, str "2024-01-15T10:30:00.000Z") unlimited ∅
       [[VStr (str "intro"); VStr (str "setup")]; [VNull; VStr (str "intro")]])
  = fold_left Set_add
      (concat [[VStr (str "intro"); VStr (str "setup")]; [VNull; VStr (str "intro")]]) [].
Proof.
  refine (proj1 (X1_progress_accumulates_over_visits 3
           (λ _, str "2024-01-15T10:30:00.000Z") unlimited ∅
           [[VStr (str "intro"); VStr (str "setup")]; [VNull; VStr (str "intro")]] _ _) _).
  - apply lookup_empty.
  - repeat constructor.
  - done.
Defined.

(** X2.  [setItem] is called exactly when the set grows, whether or not
    the store takes the write:
    over any sequence of calls of [markSectionVisited], with any
    arguments, the number of [setItem] calls equals the number of
    elements added to the set, and each call of [new Date()] belongs to
    one of these writes. *)
Theorem X2_one_write_per_new_identifier (ids : list value) (w : World) :
  length (storage_writes (mark_all ids w).1) + length (visitedSections w)
  = length (storage_writes w) + length (visitedSections (mark_all ids w).1)
  ∧ Date_calls (mark_all ids w).1 + length (visitedSections w)
    = Date_calls w + length (visitedSections (mark_all ids w).1).
Proof.
  revert w. induction ids as [|x ids IH]; intros w; [done|].
  rewrite mark_all_cons.
  destruct (IH (markSectionVisited x w).1) as [IH1 IH2].
  destruct (Set_has (visitedSections w) x) eqn:Hhas.
  - rewrite (markSectionVisited_member _ _ Hhas) in *. done.
  - destruct (markSectionVisited_fresh_world _ _ Hhas) as (Hs & _ & Hw & Hd & _).
    rewrite Hs, Hw, Hd, length_app in *. cbn [length] in *. lia.
Qed.

Lemma SFeqb_sym (x y : spec_float) : SFeqb x y = SFeqb y x.
Proof.
  unfold SFeqb.
  destruct x as [sx|sx| |sx mx ex], y as [sy|sy| |sy my ey]; cbn [SFcompare];
    try reflexivity; try (by destruct sx); try (by destruct sy);
    try (by destruct sx, sy).
  destruct sx, sy; try reflexivity.
  - rewrite (Z.compare_antisym ex ey). destruct (ex ?= ey)%Z; cbn [CompOpp]; try done.
    change (Pos.compare_cont Eq my mx) with (Pos.compare_cont (CompOpp Eq) my mx).
    rewrite <- (Pos.compare_cont_antisym mx my Eq).
    by destruct (Pos.compare_cont Eq mx my).
  - rewrite (Z.compare_antisym ex ey). destruct (ex ?= ey)%Z; cbn [CompOpp]; try done.
    change (Pos.compare_cont Eq my mx) with (Pos.compare_cont (CompOpp Eq) my mx).
    rewrite <- (Pos.compare_cont_antisym mx my Eq).
    by destruct (Pos.compare_cont Eq mx my).
Qed.

Lemma float_eqb_sym (x y : float) : (x =? y)%float = (y =? x)%float.
Proof. rewrite !FloatAxioms.eqb_spec. apply SFeqb_sym. Qed.

Lemma sameValueZero_sym (a b : value) : sameValueZero a b = sameValueZero b a.
Proof.
  destruct a, b; simpl; try reflexivity.
  - by destruct b0, b.
  - by rewrite float_eqb_sym, (andb_comm (PrimFloat.is_nan x)).
  - unfold jsstring_eqb. apply bool_decide_ext. split; by intros ->.
Qed.

(** A zero is the same value as the positive zero for a [Set]. *)
Lemma is_zero_SF (x : float) :
  PrimFloat.is_zero x = true → ∃ s, Prim2SF x = S754_zero s.
Proof.
  unfold PrimFloat.is_zero. rewrite FloatAxioms.eqb_spec.
  change (Prim2SF PrimFloat.zero) with (S754_zero false).
  unfold SFeqb. destruct (Prim2SF x) as [s|s| |s m e]; cbn [SFcompare].
  - by exists s.
  - by destruct s.
  - done.
  - by destruct s.
Qed.

Lemma sameValueZero_key (v x : value) :
  sameValueZero (Set_key v) x = sameValueZero v x.
Proof.
  destruct v as [| |y| | |]; try reflexivity. cbn [Set_key].
  destruct (PrimFloat.is_zero y) eqn:Hzero; [|done].
  destruct (is_zero_SF _ Hzero) as [s Hs].
  destruct x as [| |z| | |]; try reflexivity. cbn [sameValueZero].
  unfold PrimFloat.is_nan. rewrite !FloatAxioms.eqb_spec, Hs.
  change (Prim2SF PrimFloat.zero) with (S754_zero false).
  by destruct (Prim2SF z).
Qed.

Lemma Set_has_false (s : list value) (v x : value) :
  Set_has s v = false → x ∈ s → sameValueZero v x = false.
Proof.
  unfold Set_has. intros Hhas Hx.
  destruct (sameValueZero v x) eqn:E; [|done].
  assert (existsb (sameValueZero v) s = true) as Hex; [|congruence].
  apply existsb_exists. exists x. split; [by apply list_elem_of_In | done].
Qed.

Lemma Set_add_wf (s : list value) (v : value) : Set_wf s → Set_wf (Set_add s v).
Proof.
  intros Hwf. unfold Set_add. destruct (Set_has s v) eqn:Hhas; [done|].
  intros i j x y Hi Hj Hij.
  apply lookup_app_Some in Hi as [Hi | [Hil Hi]];
    apply lookup_app_Some in Hj as [Hj | [Hjl Hj]].
  - by apply (Hwf i j).
  - apply list_lookup_singleton_Some in Hj as [_ <-].
    rewrite sameValueZero_sym, sameValueZero_key. apply (Set_has_false _ _ _ Hhas).
    by apply list_elem_of_lookup_2 in Hi.
  - apply list_lookup_singleton_Some in Hi as [_ <-].
    rewrite sameValueZero_key.
    apply (Set_has_false _ _ _ Hhas). by apply list_elem_of_lookup_2 in Hj.
  - apply list_lookup_singleton_Some in Hi as [Hi _].
    apply list_lookup_singleton_Some in Hj as [Hj _]. lia.
Qed.

Lemma fold_Set_add_wf (l s : list value) : Set_wf s → Set_wf (fold_left Set_add l s).
Proof.
  revert s. induction l as [|v l IH]; intros s Hwf; [done|].
  cbn [fold_left]. by apply IH, Set_add_wf.
Qed.

Lemma Set_wf_nil : Set_wf [].
Proof. intros i j x y Hi. by rewrite lookup_nil in Hi. Qed.

Lemma new_Set_wf (iterable : value) (l : list value) :
  new_Set iterable = Normal l → Set_wf l.
Proof.
  destruct iterable; simpl; intros [= <-];
    try apply fold_Set_add_wf; apply Set_wf_nil.
Qed.

Lemma decode_wf (text : list N) (l : list value) : decode text = Normal l → Set_wf l.
Proof.
  unfold decode.
  destruct (JSON_parse text) as [progress|]; [|done]. cbn [cbind].
  destruct (get_property progress (str "visitedSections")) as [sections|]; [|done].
  cbn [cbind]. apply new_Set_wf.
Qed.

Lemma loadUserProgress_wf (w : World) :
  Set_wf (visitedSections w) → Set_wf (visitedSections (loadUserProgress w).1).
Proof.
  intros Hwf. rewrite loadUserProgress_eq.
  destruct (localStorage w !! PROGRESS) as [text|]; [|done].
  destruct (jsstring_eqb text []); [done|].
  destruct (decode text) as [l|e] eqn:Hdec; [|done].
  by apply decode_wf in Hdec.
Qed.

Lemma mark_all_wf (ids : list value) (w : World) :
  Set_wf (visitedSections w) → Set_wf (visitedSections (mark_all ids w).1).
Proof.
  intros Hwf. rewrite mark_all_sections. by apply fold_Set_add_wf.
Qed.

(** Two Numbers that are the same value for a [Set] are never both in
    the set: the literals 1 and 1.0 are one element. *)
Example one_and_one_point_zero :
  decode (json_text "{'visitedSections':[1,1.0,-0,0]}") = Normal [VNum 1; VNum 0].
Proof. by vm_compute. Qed.

(** X3.  The visited set never holds the same value twice.  Whatever
    text is stored and whether or not the store takes the writes, after
    the [DOMContentLoaded] handler and any calls of
    [markSectionVisited], no two elements of [state.visitedSections]
    are the same value for a [Set] (two Numbers that are equal as
    doubles, the two zeros included, count as the same); in particular
    no string occurs at two positions, even when the stored record
    repeats it. *)
Theorem X3_set_has_no_duplicates (total : nat) (storage : gmap (list N) (list N))
    (oracle : nat → list N) (quota : nat → bool) (ids : list value) :
  Set_wf (visitedSections
            (mark_all ids
               (DOMContentLoaded (initial_World total storage oracle quota)).1).1)
  ∧ ∀ i j s,
      visitedSections
        (mark_all ids
           (DOMContentLoaded (initial_World total storage oracle quota)).1).1 !! i
      = Some (VStr s) →
      visitedSections
        (mark_all ids
           (DOMContentLoaded (initial_World total storage oracle quota)).1).1 !! j
      = Some (VStr s) →
      i = j.
Proof.
  assert (Set_wf (visitedSections
            (mark_all ids
               (DOMContentLoaded (initial_World total storage oracle quota)).1).1))
    as Hwf.
  { apply mark_all_wf. rewrite DOMContentLoaded_eq.
    apply (loadUserProgress_wf (initial_World total storage oracle quota)), Set_wf_nil. }
  split; [done|]. intros i j s Hi Hj.
  destruct (decide (i = j)) as [|Hne]; [done|].
  specialize (Hwf i j _ _ Hi Hj Hne).
  by rewrite (sameValueZero_refl (VStr s) I) in Hwf.
Qed.

Lemma displayed_in_sync (w : World) : display_in_sync (displayed w).
Proof. split; reflexivity. Qed.

Lemma markSectionVisited_in_sync (x : value) (w : World) :
  display_in_sync w → display_in_sync (markSectionVisited x w).1.
Proof.
  intros Hsync. destruct (Set_has (visitedSections w) x) eqn:Hhas.
  - by rewrite (markSectionVisited_member _ _ Hhas).
  - apply (markSectionVisited_fresh_world _ _ Hhas).
Qed.

Lemma mark_all_in_sync (ids : list value) (w : World) :
  display_in_sync w → display_in_sync (mark_all ids w).1.
Proof.
  revert w. induction ids as [|x ids IH]; intros w Hsync; [done|].
  rewrite mark_all_cons. by apply IH, markSectionVisited_in_sync.
Qed.

(** X4.  The progress display follows the set.  If the display shows the
    size of the set and its percentage, it still does after any calls
    of [markSectionVisited]; and whenever such calls change the set, the
    display shows the new size and percentage afterwards, whatever it
    showed before. *)
Theorem X4_display_follows_the_set (ids : list value) (w : World) :
  (display_in_sync w → display_in_sync (mark_all ids w).1)
  ∧ (visitedSections (mark_all ids w).1 ≠ visitedSections w →
     display_in_sync (mark_all ids w).1).
Proof.
  split; [apply mark_all_in_sync|].
  revert w. induction ids as [|x ids IH]; intros w Hchange; [done|].
  rewrite mark_all_cons in *.
  destruct (Set_has (visitedSections w) x) eqn:Hhas.
  - rewrite (markSectionVisited_member _ _ Hhas) in *. by apply IH.
  - apply mark_all_in_sync, (markSectionVisited_fresh_world _ _ Hhas).
Qed.

Lemma X4_witness :
  display_in_sync
    (mark_all [VStr (str "intro"); VStr (str "intro")] (initial_World 3 ∅ (λ _, []) unlimited)).1.
Proof.
  apply (proj2 (X4_display_follows_the_set [VStr (str "intro"); VStr (str "intro")]
                  (initial_World 3 ∅ (λ _, []) unlimited))).
  discriminate.
Defined.

Lemma loadUserProgress_intervals (w : World) :
  intervals (loadUserProgress w).1 = intervals w.
Proof. rewrite loadUserProgress_eq. repeat case_match; reflexivity. Qed.

Lemma markSectionVisited_intervals (x : value) (w : World) :
  intervals (markSectionVisited x w).1 = intervals w.
Proof.
  destruct (Set_has (visitedSections w) x) eqn:Hhas.
  - by rewrite (markSectionVisited_member _ _ Hhas).
  - apply (markSectionVisited_fresh_world _ _ Hhas).
Qed.

Lemma animateNumber_eq (target : nat) (w : World) :
  animateNumber target w
  = (if (match completedSections_text w with Some n => n | None => 0 end =? target)
     then w else set_intervals (S (intervals w)) w,
     Normal undefined).
Proof.
  unfold animateNumber, bind, get, modify, ret.
  by destruct (_ =? target).
Qed.

(** X5.  The count-up animation never runs.  [animateNumber] starts an
    interval timer whenever the text of the element differs from its
    target.  But [updateProgressDisplay], its only caller, writes the
    new count into the element just before it calls [animateNumber]
    with that count, on every call; so [animateNumber] always finds the
    text equal to its target and starts no interval: no call of
    [updateProgressDisplay], [markSectionVisited], [loadUserProgress] or
    the [DOMContentLoaded] handler, in any state, starts one. *)
Theorem X5_animation_never_starts (w : World) (ids : list value) (target : nat) :
  intervals (updateProgressDisplay w).1 = intervals w
  ∧ intervals (loadUserProgress w).1 = intervals w
  ∧ intervals (DOMContentLoaded w).1 = intervals w
  ∧ intervals (mark_all ids w).1 = intervals w
  ∧ (completedSections_text w = Some target →
     animateNumber target w = (w, Normal undefined))
  ∧ (match completedSections_text w with Some n => n | None => 0 end ≠ target →
     intervals (animateNumber target w).1 = S (intervals w)).
Proof.
  split_and!.
  - by rewrite updateProgressDisplay_eq.
  - apply loadUserProgress_intervals.
  - rewrite DOMContentLoaded_eq. apply loadUserProgress_intervals.
  - revert w. induction ids as [|x ids IH]; intros w; [done|].
    by rewrite mark_all_cons, IH, markSectionVisited_intervals.
  - intros Htext. rewrite animateNumber_eq, Htext. by rewrite Nat.eqb_refl.
  - intros Hne. rewrite animateNumber_eq.
    by rewrite (proj2 (Nat.eqb_neq _ _) Hne).
Qed.

Lemma X5_witness :
  animateNumber 2 (set_completedSections_text 2 (initial_World 3 ∅ (λ _, []) unlimited))
  = (set_completedSections_text 2 (initial_World 3 ∅ (λ _, []) unlimited),
     Normal undefined)
  ∧ intervals (animateNumber 2 (initial_World 3 ∅ (λ _, []) unlimited)).1
    = S (intervals (initial_World 3 ∅ (λ _, []) unlimited)).
Proof.
  split.
  - refine (proj1 (proj2 (proj2 (proj2 (proj2 (X5_animation_never_starts
      (set_completedSections_text 2 (initial_World 3 ∅ (λ _, []) unlimited)) [] 2)))))
      eq_refl).
  - refine (proj2 (proj2 (proj2 (proj2 (proj2 (X5_animation_never_starts
      (initial_World 3 ∅ (λ _, []) unlimited) [] 2))))) _). discriminate.
Defined.

(** X6.  Loading is repeatable.  [loadUserProgress] does not write to
    storage, and a second call right after the first ends with the same
    visited set and the same display as the first. *)
Theorem X6_loading_twice_is_loading_once (w : World) :
  localStorage (loadUserProgress w).1 = localStorage w
  ∧ visitedSections (loadUserProgress (loadUserProgress w).1).1
    = visitedSections (loadUserProgress w).1
  ∧ completedSections_text (loadUserProgress (loadUserProgress w).1).1
    = completedSections_text (loadUserProgress w).1
  ∧ progressPercentage_text (loadUserProgress (loadUserProgress w).1).1
    = progressPercentage_text (loadUserProgress w).1
  ∧ storage_writes (loadUserProgress (loadUserProgress w).1).1 = storage_writes w.
Proof.
  assert (localStorage (loadUserProgress w).1 = localStorage w) as Hstore.
  { rewrite loadUserProgress_eq. repeat case_match; reflexivity. }
  split; [done|].
  rewrite (loadUserProgress_eq (loadUserProgress w).1), Hstore.
  rewrite (loadUserProgress_eq w).
  destruct (localStorage w !! PROGRESS) as [text|]; [|done].
  destruct (jsstring_eqb text []); [done|].
  destruct (decode text) as [l|e]; done.
Qed.

(** ** Theme *)

Lemma set_world_id (p : Page) : set_world (world p) p = p.
Proof. destruct p. reflexivity. Qed.

(** Runs the statements of a function of the page: unfolds the monad
    and the fields and setters of [Page], nothing else. *)
Ltac page_cbv :=
  cbv [pbind pget pmodify pret pthrow in_world setTimeout
      world currentTheme body_className theme_icon themeToggle_transform
      currentSection navLinks scrollTo_calls pushState_calls isSidebarOpen
      sidebar_active konamiCode body_animation egg_activations timeouts
      progressBar_width document_elements window_scrollY window_innerWidth
      window_innerHeight scrollHeight set_world set_currentTheme
      set_body_className set_theme_icon set_themeToggle_transform
      set_currentSection set_navLinks set_scrollTo_calls
      set_pushState_calls set_isSidebarOpen set_sidebar_active
      set_konamiCode set_body_animation set_egg_activations set_timeouts
      set_progressBar_width set_document_elements set_window_scrollY
      set_window_innerWidth set_window_innerHeight set_scrollHeight].

Lemma toggleTheme_eq (p : Page) :
  toggleTheme p
  = if quota_exceeded (world p) (length (storage_writes (world p)))
    then (toggle_rejected p, Throw QuotaExceededError)
    else (toggled p, Normal undefined).
Proof.
  unfold toggleTheme, updateThemeIcon, toggled, toggle_rejected, localStorage_setItem,
    modify, bind, get, throw, other_theme, icon_of.
  destruct p. page_cbv.
  match goal with
  | |- context [quota_exceeded ?w ?n] => destruct (quota_exceeded w n)
  end; reflexivity.
Qed.

Lemma toggleTheme_accepted (p : Page) :
  write_accepted (world p) → toggleTheme p = (toggled p, Normal undefined).
Proof. intros H. by rewrite toggleTheme_eq, H. Qed.

Lemma toggleTheme_rejected (p : Page) :
  ¬ write_accepted (world p) →
  toggleTheme p = (toggle_rejected p, Throw QuotaExceededError).
Proof. intros H%not_false_is_true. by rewrite toggleTheme_eq, H. Qed.

Lemma initializeTheme_eq (p : Page) : initializeTheme p = (themed p, Normal undefined).
Proof.
  unfold initializeTheme, updateThemeIcon, themed, localStorage_getItem, get,
    saved_theme, icon_of.
  page_cbv. by destruct p.
Qed.

Lemma other_theme_cases (theme : list N) :
  (theme = DARK ∧ other_theme theme = LIGHT)
  ∨ (theme ≠ DARK ∧ other_theme theme = DARK).
Proof.
  unfold other_theme, jsstring_eqb. destruct (decide (theme = DARK)) as [->|Hne].
  - left. by rewrite bool_decide_eq_true_2.
  - right. by rewrite bool_decide_eq_false_2.
Qed.

Lemma LIGHT_not_DARK : LIGHT ≠ DARK.
Proof. intros H. vm_compute in H. discriminate H. Qed.

Lemma other_theme_LIGHT : other_theme LIGHT = DARK.
Proof. destruct (other_theme_cases LIGHT) as [[H _]|[_ H]]; [|done]. by apply LIGHT_not_DARK in H. Qed.

Lemma other_theme_DARK : other_theme DARK = LIGHT.
Proof. destruct (other_theme_cases DARK) as [[_ H]|[H _]]; done. Qed.

Lemma toggled_fields (p : Page) :
  currentTheme (toggled p) = other_theme (currentTheme p)
  ∧ body_className (toggled p) = other_theme (currentTheme p)
  ∧ theme_icon (toggled p) = Some (icon_of (other_theme (currentTheme p)))
  ∧ localStorage (world (toggled p))
    = <[THEME := other_theme (currentTheme p)]> (localStorage (world p))
  ∧ visitedSections (world (toggled p)) = visitedSections (world p)
  ∧ storage_writes (world (toggled p))
    = storage_writes (world p) ++ [(THEME, other_theme (currentTheme p))]
  ∧ quota_exceeded (world (toggled p)) = quota_exceeded (world p).
Proof. split_and!; reflexivity. Qed.

Lemma toggle_rejected_fields (p : Page) :
  currentTheme (toggle_rejected p) = other_theme (currentTheme p)
  ∧ body_className (toggle_rejected p) = other_theme (currentTheme p)
  ∧ theme_icon (toggle_rejected p) = theme_icon p
  ∧ localStorage (world (toggle_rejected p)) = localStorage (world p)
  ∧ visitedSections (world (toggle_rejected p)) = visitedSections (world p)
  ∧ storage_writes (world (toggle_rejected p))
    = storage_writes (world p) ++ [(THEME, other_theme (currentTheme p))]
  ∧ quota_exceeded (world (toggle_rejected p)) = quota_exceeded (world p)
  ∧ timeouts (toggle_rejected p) = timeouts p
  ∧ themeToggle_transform (toggle_rejected p) = themeToggle_transform p.
Proof. split_and!; reflexivity. Qed.

(** What [toggleTheme] does whether or not the store takes the write. *)
Lemma toggleTheme_fields (p : Page) :
  currentTheme (toggleTheme p).1 = other_theme (currentTheme p)
  ∧ body_className (toggleTheme p).1 = other_theme (currentTheme p)
  ∧ visitedSections (world (toggleTheme p).1) = visitedSections (world p)
  ∧ storage_writes (world (toggleTheme p).1)
    = storage_writes (world p) ++ [(THEME, other_theme (currentTheme p))]
  ∧ quota_exceeded (world (toggleTheme p).1) = quota_exceeded (world p)
  ∧ localStorage (world (toggleTheme p).1) !! PROGRESS
    = localStorage (world p) !! PROGRESS.
Proof.
  rewrite toggleTheme_eq.
  destruct (quota_exceeded (world p) (length (storage_writes (world p)))); cbn [fst].
  - destruct (toggle_rejected_fields p) as (-> & -> & _ & -> & -> & -> & -> & _). done.
  - destruct (toggled_fields p) as (-> & -> & _ & -> & -> & -> & ->).
    split_and!; try done.
    apply lookup_insert_ne. intros H. vm_compute in H. discriminate H.
Qed.

(** X7.  After [toggleTheme], from any state whatever, the theme is the
    dark or the light one and the class of the body is that theme; a
    theme that is neither (a foreign value taken from storage) is
    replaced by the dark one.  When the store takes the write, the call
    returns and the state, the class of the body, the stored value and
    the icon all agree on the theme.  When the store rejects the write,
    the call throws [QuotaExceededError] at [setItem]: the state and
    the class have changed, but the stored value and the icon are the
    old ones and no animation is started. *)
Theorem X7_toggle_leaves_a_consistent_theme (p : Page) :
  (currentTheme (toggleTheme p).1 = DARK ∨ currentTheme (toggleTheme p).1 = LIGHT)
  ∧ body_className (toggleTheme p).1 = currentTheme (toggleTheme p).1
  ∧ (currentTheme p ≠ DARK → currentTheme (toggleTheme p).1 = DARK)
  ∧ (write_accepted (world p) →
     (toggleTheme p).2 = Normal undefined ∧ theme_in_sync (toggleTheme p).1)
  ∧ (¬ write_accepted (world p) →
     (toggleTheme p).2 = Throw QuotaExceededError
     ∧ localStorage (world (toggleTheme p).1) = localStorage (world p)
     ∧ theme_icon (toggleTheme p).1 = theme_icon p
     ∧ timeouts (toggleTheme p).1 = timeouts p).
Proof.
  destruct (toggleTheme_fields p) as (Hc & Hb & _).
  rewrite Hc, Hb. split_and!.
  - destruct (other_theme_cases (currentTheme p)) as [[_ ->]|[_ ->]]; auto.
  - done.
  - intros Hne. destruct (other_theme_cases (currentTheme p)) as [[H _]|[_ ->]]; done.
  - intros Hacc. rewrite (toggleTheme_accepted _ Hacc). split; [done|].
    split_and!; [done | apply lookup_insert_eq | done].
  - intros Hrej. rewrite (toggleTheme_rejected _ Hrej). done.
Qed.

Lemma X7_witness :
  ((toggleTheme sample_page).2 = Normal undefined
   ∧ theme_in_sync (toggleTheme sample_page).1)
  ∧ (toggleTheme sample_page_full).2 = Throw QuotaExceededError
  ∧ localStorage (world (toggleTheme sample_page_full).1)
    = localStorage (world sample_page_full)
  ∧ theme_icon (toggleTheme sample_page_full).1 = theme_icon sample_page_full
  ∧ timeouts (toggleTheme sample_page_full).1 = timeouts sample_page_full.
Proof.
  split.
  - refine (proj1 (proj2 (proj2 (proj2 (X7_toggle_leaves_a_consistent_theme
                                          sample_page)))) _). reflexivity.
  - refine (proj2 (proj2 (proj2 (proj2 (X7_toggle_leaves_a_consistent_theme
                                          sample_page_full)))) _). discriminate.
Defined.

(** X8.  Toggling twice gives back the theme: when the theme is the dark
    or the light one, two calls of [toggleTheme] end with the same
    theme in the state and the body class as before the first, and each
    call calls [setItem] once.  When the store takes the second write,
    the stored theme and the icon are those of that theme as well; when
    it rejects both writes, the stored values and the icon are left as
    they were before the first call. *)
Theorem X8_toggle_twice_restores_theme (p : Page) :
  currentTheme p = DARK ∨ currentTheme p = LIGHT →
  currentTheme (toggleTheme (toggleTheme p).1).1 = currentTheme p
  ∧ body_className (toggleTheme (toggleTheme p).1).1 = currentTheme p
  ∧ storage_writes (world (toggleTheme (toggleTheme p).1).1)
    = storage_writes (world p) ++ [(THEME, other_theme (currentTheme p));
                                   (THEME, currentTheme p)]
  ∧ (write_accepted (world (toggleTheme p).1) →
     localStorage (world (toggleTheme (toggleTheme p).1).1) !! THEME
     = Some (currentTheme p)
     ∧ theme_icon (toggleTheme (toggleTheme p).1).1 = Some (icon_of (currentTheme p)))
  ∧ (¬ write_accepted (world p) → ¬ write_accepted (world (toggleTheme p).1) →
     localStorage (world (toggleTheme (toggleTheme p).1).1) = localStorage (world p)
     ∧ theme_icon (toggleTheme (toggleTheme p).1).1 = theme_icon p).
Proof.
  intros Hp.
  assert (other_theme (other_theme (currentTheme p)) = currentTheme p) as Hinv.
  { destruct Hp as [-> | ->].
    - by rewrite other_theme_DARK, other_theme_LIGHT.
    - by rewrite other_theme_LIGHT, other_theme_DARK. }
  destruct (toggleTheme_fields p) as (Hc & _ & _ & Hw & _).
  destruct (toggleTheme_fields (toggleTheme p).1) as (Hc2 & Hb2 & _ & Hw2 & _).
  rewrite Hc2, Hb2, Hw2, Hw, Hc, Hinv, <- app_assoc. split_and!; try done.
  - intros Hacc. rewrite (toggleTheme_accepted _ Hacc). cbn [fst].
    destruct (toggled_fields (toggleTheme p).1) as (_ & _ & -> & -> & _).
    rewrite Hc, Hinv. split; [apply lookup_insert_eq | done].
  - intros Hrej1 Hrej2. rewrite (toggleTheme_rejected _ Hrej2). cbn [fst].
    destruct (toggle_rejected_fields (toggleTheme p).1) as (_ & _ & -> & -> & _).
    rewrite (toggleTheme_rejected _ Hrej1). cbn [fst].
    by destruct (toggle_rejected_fields p) as (_ & _ & -> & -> & _).
Qed.

Lemma X8_witness :
  currentTheme
    (toggleTheme
       (toggleTheme (initial_Page (initial_World 3 ∅ (λ _, []) unlimited) [] [])).1).1
  = currentTheme (initial_Page (initial_World 3 ∅ (λ _, []) unlimited) [] [])
  ∧ localStorage
      (world (toggleTheme
         (toggleTheme (initial_Page (initial_World 3 ∅ (λ _, []) unlimited) [] [])).1).1)
    !! THEME
    = Some (currentTheme (initial_Page (initial_World 3 ∅ (λ _, []) unlimited) [] [])).
Proof.
  pose proof (X8_toggle_twice_restores_theme
                (initial_Page (initial_World 3 ∅ (λ _, []) unlimited) [] [])
                (or_introl eq_refl)) as (H1 & _ & _ & H4 & _).
  split; [exact H1|]. refine (proj1 (H4 _)). reflexivity.
Defined.

Lemma themed_fields (p : Page) :
  currentTheme (themed p) = saved_theme (localStorage (world p))
  ∧ body_className (themed p) = saved_theme (localStorage (world p))
  ∧ theme_icon (themed p) = Some (icon_of (saved_theme (localStorage (world p))))
  ∧ world (themed p) = world p.
Proof. split_and!; reflexivity. Qed.

Lemma other_theme_nonempty (theme : list N) : jsstring_eqb (other_theme theme) [] = false.
Proof. by destruct (other_theme_cases theme) as [[_ ->]|[_ ->]]. Qed.

(** X9.  The theme survives a reload.  After a [toggleTheme] whose
    write the store has taken, a page that starts on the same stored
    theme and runs [initializeTheme] has the theme, body class and icon
    that the toggle left.  With no stored theme, or an empty one,
    [initializeTheme] takes the dark theme.  In no case does
    [initializeTheme] write to storage. *)
Theorem X9_theme_survives_reload (p q : Page) :
  (write_accepted (world p) →
   localStorage (world q) !! THEME = localStorage (world (toggleTheme p).1) !! THEME →
   currentTheme (initializeTheme q).1 = currentTheme (toggleTheme p).1
   ∧ body_className (initializeTheme q).1 = body_className (toggleTheme p).1
   ∧ theme_icon (initializeTheme q).1 = theme_icon (toggleTheme p).1)
  ∧ (localStorage (world q) !! THEME = None ∨ localStorage (world q) !! THEME = Some [] →
     currentTheme (initializeTheme q).1 = DARK
     ∧ body_className (initializeTheme q).1 = DARK
     ∧ theme_icon (initializeTheme q).1 = Some MOON)
  ∧ world (initializeTheme q).1 = world q.
Proof.
  rewrite initializeTheme_eq. cbn [fst].
  destruct (themed_fields q) as (Hi1 & Hi2 & Hi3 & Hi4).
  rewrite Hi1, Hi2, Hi3, Hi4. split_and!.
  - intros Hacc. rewrite (toggleTheme_accepted _ Hacc). cbn [fst].
    destruct (toggled_fields p) as (Ht1 & Ht2 & Ht3 & Ht4 & _).
    rewrite Ht1, Ht2, Ht3, Ht4. intros Hstore.
    assert (saved_theme (localStorage (world q)) = other_theme (currentTheme p)) as ->.
    { unfold saved_theme. rewrite Hstore, lookup_insert_eq.
      by rewrite other_theme_nonempty. }
    done.
  - intros Hstore.
    assert (saved_theme (localStorage (world q)) = DARK) as ->.
    { unfold saved_theme. by destruct Hstore as [-> | ->]. }
    done.
  - reflexivity.
Qed.

Lemma X9_witness :
  currentTheme
    (initializeTheme
       (initial_Page
          (initial_World 3
             (localStorage
                (world (toggleTheme
                   (initial_Page (initial_World 3 ∅ (λ _, []) unlimited) [] [])).1))
             (λ _, []) unlimited) [] [])).1
  = currentTheme
      (toggleTheme (initial_Page (initial_World 3 ∅ (λ _, []) unlimited) [] [])).1.
Proof.
  refine (proj1 (proj1 (X9_theme_survives_reload
    (initial_Page (initial_World 3 ∅ (λ _, []) unlimited) [] [])
    (initial_Page
       (initial_World 3
          (localStorage
             (world (toggleTheme
                (initial_Page (initial_World 3 ∅ (λ _, []) unlimited) [] [])).1))
          (λ _, []) unlimited) [] [])) eq_refl eq_refl)).
Defined.

Lemma THEME_not_PROGRESS : THEME ≠ PROGRESS.
Proof. intros H. vm_compute in H. discriminate H. Qed.

Lemma markSectionVisited_theme (x : value) (w : World) :
  localStorage (markSectionVisited x w).1 !! THEME = localStorage w !! THEME.
Proof.
  destruct (Set_has (visitedSections w) x) eqn:Hhas.
  - by rewrite (markSectionVisited_member _ _ Hhas).
  - destruct (markSectionVisited_fresh_world _ _ Hhas) as (_ & -> & _).
    destruct (quota_exceeded w (length (storage_writes w))); [done|].
    apply lookup_insert_ne. intros H. by apply THEME_not_PROGRESS.
Qed.

(** X10.  Theme and progress do not disturb each other.  [toggleTheme]
    leaves the visited set and the stored progress record as they are,
    so what [loadUserProgress] loads is the same before and after it;
    and no call of [markSectionVisited] changes the stored theme.  This
    holds whether or not the store takes the writes. *)
Theorem X10_theme_and_progress_are_independent (p : Page) (w : World)
    (ids : list value) :
  visitedSections (world (toggleTheme p).1) = visitedSections (world p)
  ∧ localStorage (world (toggleTheme p).1) !! PROGRESS
    = localStorage (world p) !! PROGRESS
  ∧ visitedSections (loadUserProgress (world (toggleTheme p).1)).1
    = visitedSections (loadUserProgress (world p)).1
  ∧ localStorage (mark_all ids w).1 !! THEME = localStorage w !! THEME.
Proof.
  destruct (toggleTheme_fields p) as (_ & _ & Hs & _ & _ & Hstore).
  split_and!.
  - exact Hs.
  - exact Hstore.
  - rewrite !loadUserProgress_eq, Hstore.
    destruct (localStorage (world p) !! PROGRESS) as [text|]; [|done].
    destruct (jsstring_eqb text []); [done|].
    destruct (decode text); done.
  - revert w. induction ids as [|x ids IH]; intros w; [done|].
    by rewrite mark_all_cons, IH, markSectionVisited_theme.
Qed.

(** ** Navigation *)

Lemma scrollToSection_eq (sectionId : list N) (p : Page) :
  scrollToSection sectionId p =
  match getElementById sectionId p with
  | Some element => (scrolled_to sectionId element p, Normal undefined)
  | None => (p, Normal undefined)
  end.
Proof.
  unfold scrollToSection, pbind at 1, pget at 1.
  destruct (getElementById sectionId p); reflexivity.
Qed.

Lemma scrollToSection_keeps (sectionId : list N) (p : Page) :
  world (scrollToSection sectionId p).1 = world p
  ∧ document_elements (scrollToSection sectionId p).1 = document_elements p
  ∧ sections (scrollToSection sectionId p).1 = sections p
  ∧ (scrollToSection sectionId p).2 = Normal undefined.
Proof.
  rewrite scrollToSection_eq. destruct (getElementById sectionId p); done.
Qed.

Lemma findIndex_range {A} (f : A → bool) (l : list A) :
  (-1 <= findIndex f l < Z.of_nat (length l))%Z.
Proof.
  induction l as [|x l IH]; simpl; [lia|].
  destruct (f x); [lia|]. destruct (findIndex f l); lia.
Qed.

Lemma findIndex_found {A} (f : A → bool) (l : list A) :
  (0 <= findIndex f l)%Z →
  ∃ x, l !! Z.to_nat (findIndex f l) = Some x ∧ f x = true.
Proof.
  induction l as [|x l IH]; simpl; [lia|].
  destruct (f x) eqn:Hfx; [intros _; by exists x|].
  destruct (findIndex f l) as [|i|i] eqn:Hi; [| |lia]; intros _.
  - destruct IH as (y & Hy & Hfy); [lia|]. exists y. by split.
  - destruct IH as (y & Hy & Hfy); [lia|]. exists y. split; [|done].
    replace (Z.to_nat (Z.pos i + 1)) with (S (Z.to_nat (Z.pos i))) by lia. done.
Qed.

Lemma findIndex_first {A} (f : A → bool) (l : list A) (k : nat) (x : A) :
  l !! k = Some x → f x = true →
  (∀ j y, j < k → l !! j = Some y → f y = false) →
  findIndex f l = Z.of_nat k.
Proof.
  revert k. induction l as [|a l IH]; intros k Hk Hfx Hbefore; [done|].
  destruct k as [|k].
  - injection Hk as ->. simpl. by rewrite Hfx.
  - simpl. rewrite (Hbefore 0 a); [|lia|done].
    rewrite (IH k Hk Hfx).
    + destruct (Z.of_nat k) eqn:E; lia.
    + intros j y Hj Hy. apply (Hbefore (S j) y); [lia|done].
Qed.

Lemma findIndex_NoDup (all : list Element) (k : nat) (e : Element) :
  NoDup (id_property <$> all) → all !! k = Some e →
  findIndex (λ section, jsstring_eqb (id_property section) (id_property e)) all
  = Z.of_nat k.
Proof.
  intros Hnd Hk. apply (findIndex_first _ _ _ e Hk).
  - by apply jsstring_eqb_eq.
  - intros j y Hj Hy. unfold jsstring_eqb. apply bool_decide_eq_false_2. intros Heq.
    assert (j = k); [|lia].
    apply (NoDup_lookup _ j k (id_property y) Hnd);
      rewrite list_lookup_fmap; [by rewrite Hy | by rewrite Hk, Heq].
Qed.

Lemma sections_in_document (p : Page) (e : Element) :
  e ∈ sections p → e ∈ document_elements p.
Proof.
  unfold sections. intros [H _]%list_elem_of_In%filter_In. by apply list_elem_of_In.
Qed.

(** A section with a non-empty [id] is found by its [id] (it, or an
    element with the same [id] before it). *)
Lemma getElementById_section (p : Page) (e : Element) :
  e ∈ sections p → id_property e ≠ [] →
  is_Some (getElementById (id_property e) p).
Proof.
  intros He Hid. unfold getElementById, jsstring_eqb.
  rewrite bool_decide_eq_false_2 by done.
  destruct (List.find _ (document_elements p)) eqn:Hfind; [done|].
  exfalso.
  apply sections_in_document, list_elem_of_In in He.
  pose proof (find_none _ _ Hfind e He) as Hf. cbv beta in Hf.
  unfold id_property in *. destruct (id_attribute e) as [s|]; [|done].
  by rewrite bool_decide_eq_true_2 in Hf.
Qed.

Lemma navigateSection_eq (direction : list N) (p : Page) :
  navigateSection direction p =
  match
    at_index (sections p)
      (if jsstring_eqb direction (str "next") then
         if (Z.of_nat (length (sections p)) =? 0)%Z then None
         else Some (next_index (current_index p) (Z.of_nat (length (sections p))))
       else Some (prev_index (current_index p) (Z.of_nat (length (sections p)))))
  with
  | Some newSection => scrollToSection (id_property newSection) p
  | None => (p, Normal undefined)
  end.
Proof.
  unfold navigateSection, pbind at 1, pget at 1, pbind at 1, pget at 1.
  fold (current_index p). unfold next_index, prev_index.
  destruct (at_index _ _); reflexivity.
Qed.

Lemma next_index_range (i n : Z) : (0 < n)%Z → (0 <= next_index i n < n)%Z.
Proof. intros Hn. unfold next_index. by apply Z.mod_pos_bound. Qed.

Lemma prev_index_range (i n : Z) :
  (0 < n)%Z → (-1 <= i < n)%Z → (0 <= prev_index i n < n)%Z.
Proof.
  intros Hn Hi. unfold prev_index. destruct (Z.ltb_spec (i - 1) 0); lia.
Qed.

(** Where [navigateSection] goes on a page with sections. *)
Lemma navigateSection_target (direction : list N) (p : Page) :
  sections p ≠ [] →
  ∃ k e,
    Z.of_nat k
    = (if jsstring_eqb direction (str "next")
       then next_index (current_index p) (Z.of_nat (length (sections p)))
       else prev_index (current_index p) (Z.of_nat (length (sections p))))
    ∧ sections p !! k = Some e
    ∧ navigateSection direction p = scrollToSection (id_property e) p.
Proof.
  intros Hne. rewrite navigateSection_eq.
  assert (0 < Z.of_nat (length (sections p)))%Z as Hn.
  { destruct (sections p); [done | simpl; lia]. }
  pose proof (findIndex_range
    (λ section, jsstring_eqb (id_property section) (currentSection p)) (sections p))
    as Hi. fold (current_index p) in Hi.
  pose proof (next_index_range (current_index p) _ Hn) as Hnext.
  pose proof (prev_index_range (current_index p) _ Hn Hi) as Hprev.
  replace (Z.of_nat (length (sections p)) =? 0)%Z with false
    by (symmetry; apply Z.eqb_neq; lia).
  set (k := if jsstring_eqb direction (str "next")
            then next_index (current_index p) (Z.of_nat (length (sections p)))
            else prev_index (current_index p) (Z.of_nat (length (sections p)))).
  assert (0 <= k < Z.of_nat (length (sections p)))%Z as Hk
    by (subst k; destruct (jsstring_eqb direction (str "next")); done).
  destruct (lookup_lt_is_Some_2 (sections p) (Z.to_nat k) ltac:(lia)) as [e He].
  exists (Z.to_nat k), e. split_and!; [lia | done |].
  replace (if jsstring_eqb direction (str "next") then Some _ else Some _)
    with (Some k) by (subst k; by destruct (jsstring_eqb direction (str "next"))).
  unfold at_index. replace (0 <=? k)%Z with true by (symmetry; apply Z.leb_le; lia).
  by rewrite He.
Qed.

(** X11.  [navigateSection] moves to a section of the page and wraps
    around.  On a page whose sections all have an [id], a call with
    "next" makes the section after the current one the current section
    (the first one after the last, and the first one when the current
    section is not a section of the page); any other direction makes it
    the section before (the last one before the first, and the last one
    when the current section is unknown).  The call asks for one scroll
    and leaves the tracker untouched: it marks nothing visited.  On a
    page without sections it does nothing. *)
Theorem X11_navigateSection_lands_on_a_section (direction : list N) (p : Page) :
  (sections_have_ids p → sections p ≠ [] →
   ∃ k e,
     Z.of_nat k
     = (if jsstring_eqb direction (str "next")
        then (current_index p + 1) mod Z.of_nat (length (sections p))
        else if current_index p - 1 <? 0
             then Z.of_nat (length (sections p)) - 1
             else current_index p - 1)%Z
     ∧ sections p !! k = Some e
     ∧ currentSection (navigateSection direction p).1 = id_property e
     ∧ length (scrollTo_calls (navigateSection direction p).1)
       = S (length (scrollTo_calls p))
     ∧ world (navigateSection direction p).1 = world p
     ∧ (navigateSection direction p).2 = Normal undefined)
  ∧ (sections p = [] → navigateSection direction p = (p, Normal undefined)).
Proof.
  split.
  - intros Hids Hne.
    destruct (navigateSection_target direction p Hne) as (k & e & Hk & He & ->).
    assert (e ∈ sections p) as Hin by (by apply list_elem_of_lookup_2 in He).
    assert (id_property e ≠ []) as Hid
      by (by apply (proj1 (Forall_forall _ _) Hids)).
    destruct (getElementById_section p e Hin Hid) as [found Hfound].
    exists k, e. rewrite scrollToSection_eq, Hfound.
    split_and!; try done.
    change (length (scrollTo_calls p ++ [(offsetTop found - SCROLL_OFFSET)%Z])
            = S (length (scrollTo_calls p))).
    rewrite length_app. simpl. lia.
  - intros Hempty. rewrite navigateSection_eq, Hempty.
    destruct (jsstring_eqb direction (str "next")); [done|].
    unfold at_index. destruct (0 <=? _)%Z; [|done]. by rewrite lookup_nil.
Qed.

Lemma sample_page_sections :
  sections sample_page
  = [mkElement (Some (str "introduction")) true 0 600;
     mkElement (Some (str "setup")) true 600 400;
     mkElement (Some (str "css-basics")) true 1000 800].
Proof. reflexivity. Qed.

Lemma sample_page_has_ids : sections_have_ids sample_page.
Proof.
  unfold sections_have_ids. rewrite sample_page_sections.
  repeat (apply Forall_cons_2; [discriminate|]). apply Forall_nil_2.
Qed.

Lemma X11_witness :
  ∃ k e,
    Z.of_nat k
    = (if jsstring_eqb (str "next") (str "next")
       then (current_index sample_page + 1) mod Z.of_nat (length (sections sample_page))
       else if current_index sample_page - 1 <? 0
            then Z.of_nat (length (sections sample_page)) - 1
            else current_index sample_page - 1)%Z
    ∧ sections sample_page !! k = Some e
    ∧ currentSection (navigateSection (str "next") sample_page).1 = id_property e
    ∧ length (scrollTo_calls (navigateSection (str "next") sample_page).1)
      = S (length (scrollTo_calls sample_page))
    ∧ world (navigateSection (str "next") sample_page).1 = world sample_page
    ∧ (navigateSection (str "next") sample_page).2 = Normal undefined.
Proof.
  apply (proj1 (X11_navigateSection_lands_on_a_section (str "next") sample_page)).
  - apply sample_page_has_ids.
  - rewrite sample_page_sections. discriminate.
Defined.

Lemma findIndex_exists {A} (f : A → bool) (l : list A) (x : A) :
  x ∈ l → f x = true → (0 <= findIndex f l)%Z.
Proof.
  induction l as [|a l IH]; intros Hx Hfx; [by apply elem_of_nil in Hx|].
  simpl. destruct (f a) eqn:Hfa; [lia|].
  apply elem_of_cons in Hx as [-> | Hx]; [congruence|].
  specialize (IH Hx Hfx). destruct (findIndex f l); lia.
Qed.

(** One step of [navigateSection] on a page whose sections have [id]s. *)
Lemma navigateSection_step (direction : list N) (p : Page) :
  sections_have_ids p → sections p ≠ [] →
  ∃ k e,
    Z.of_nat k
    = (if jsstring_eqb direction (str "next")
       then next_index (current_index p) (Z.of_nat (length (sections p)))
       else prev_index (current_index p) (Z.of_nat (length (sections p))))
    ∧ sections p !! k = Some e
    ∧ currentSection (navigateSection direction p).1 = id_property e
    ∧ sections (navigateSection direction p).1 = sections p.
Proof.
  intros Hids Hne.
  destruct (navigateSection_target direction p Hne) as (k & e & Hk & He & ->).
  assert (e ∈ sections p) as Hin by (by apply list_elem_of_lookup_2 in He).
  assert (id_property e ≠ []) as Hid by (by apply (proj1 (Forall_forall _ _) Hids)).
  destruct (getElementById_section p e Hin Hid) as [found Hfound].
  exists k, e. split_and!; [done | done | | apply scrollToSection_keeps].
  by rewrite scrollToSection_eq, Hfound.
Qed.

(** The index of the current section after a step. *)
Lemma current_index_after (p q : Page) (k : nat) (e : Element) :
  NoDup (section_ids p) → sections q = sections p →
  sections p !! k = Some e → currentSection q = id_property e →
  current_index q = Z.of_nat k.
Proof.
  intros Hnd Hsec He Hcur. unfold current_index. rewrite Hsec, Hcur.
  by apply findIndex_NoDup.
Qed.

Lemma not_next : jsstring_eqb (str "prev") (str "next") = false.
Proof. by vm_compute. Qed.

Lemma is_next : jsstring_eqb (str "next") (str "next") = true.
Proof. by vm_compute. Qed.

(** X12.  Next and previous undo each other.  On a page whose sections
    have distinct, non-empty [id]s, when the current section is one of
    them, [navigateSection('next')] followed by [navigateSection('prev')]
    ends on the section it started from, and so does "prev" followed by
    "next", also across the wrap from the last section to the first. *)
Theorem X12_next_and_prev_are_inverse (p : Page) :
  sections_have_ids p →
  NoDup (section_ids p) →
  currentSection p ∈ section_ids p →
  currentSection
    (navigateSection (str "prev") (navigateSection (str "next") p).1).1
  = currentSection p
  ∧ currentSection
      (navigateSection (str "next") (navigateSection (str "prev") p).1).1
    = currentSection p.
Proof.
  intros Hids Hnd Hcur.
  assert (sections p ≠ []) as Hne.
  { intros H. unfold section_ids in Hcur. rewrite H in Hcur.
    by apply elem_of_nil in Hcur. }
  assert (0 <= current_index p)%Z as Hi0.
  { apply list_elem_of_fmap in Hcur as (x & Hx & Hin).
    apply (findIndex_exists _ _ x Hin). by apply jsstring_eqb_eq. }
  pose proof (findIndex_range
    (λ section, jsstring_eqb (id_property section) (currentSection p)) (sections p))
    as Hi. fold (current_index p) in Hi.
  destruct (findIndex_found _ (sections p) Hi0) as (ei & Hei & Hcurrent).
  fold (current_index p) in Hei. apply jsstring_eqb_eq in Hcurrent.
  assert (∀ q, sections q = sections p →
            sections_have_ids q ∧ sections q ≠ []) as Hkeep.
  { intros q Hq. unfold sections_have_ids. by rewrite Hq. }
  split.
  - destruct (navigateSection_step (str "next") p Hids Hne) as (k & e & Hk & He & Hc & Hs).
    rewrite is_next in Hk.
    set (q := (navigateSection (str "next") p).1) in *.
    destruct (Hkeep q Hs) as [Hqids Hqne].
    destruct (navigateSection_step (str "prev") q Hqids Hqne)
      as (k' & e' & Hk' & He' & Hc' & _).
    rewrite not_next, Hs in Hk'.
    rewrite (current_index_after p q k e Hnd Hs He Hc) in Hk'.
    rewrite Hs in He'. rewrite Hc', <- Hcurrent. f_equal.
    assert (k' = Z.to_nat (current_index p)) as ->; [|congruence].
    unfold next_index in Hk. unfold prev_index in Hk'.
    destruct (Z.eq_dec (current_index p + 1)%Z (Z.of_nat (length (sections p))))
      as [Heq|Hneq].
    + rewrite Heq, Z_mod_same_full in Hk.
      destruct (Z.ltb_spec (Z.of_nat k - 1) 0); lia.
    + rewrite Z.mod_small in Hk by lia.
      destruct (Z.ltb_spec (Z.of_nat k - 1) 0); lia.
  - destruct (navigateSection_step (str "prev") p Hids Hne) as (k & e & Hk & He & Hc & Hs).
    rewrite not_next in Hk.
    set (q := (navigateSection (str "prev") p).1) in *.
    destruct (Hkeep q Hs) as [Hqids Hqne].
    destruct (navigateSection_step (str "next") q Hqids Hqne)
      as (k' & e' & Hk' & He' & Hc' & _).
    rewrite is_next, Hs in Hk'.
    rewrite (current_index_after p q k e Hnd Hs He Hc) in Hk'.
    rewrite Hs in He'. rewrite Hc', <- Hcurrent. f_equal.
    assert (k' = Z.to_nat (current_index p)) as ->; [|congruence].
    unfold next_index in Hk'. unfold prev_index in Hk.
    destruct (Z.ltb_spec (current_index p - 1) 0).
    + replace (Z.of_nat k + 1)%Z with (Z.of_nat (length (sections p))) in Hk' by lia.
      rewrite Z_mod_same_full in Hk'. lia.
    + rewrite Z.mod_small in Hk' by lia. lia.
Qed.

Lemma X12_witness :
  currentSection
    (navigateSection (str "prev") (navigateSection (str "next") sample_page).1).1
  = currentSection sample_page.
Proof.
  refine (proj1 (X12_next_and_prev_are_inverse sample_page sample_page_has_ids _ _)).
  - unfold section_ids. rewrite sample_page_sections.
    repeat (apply NoDup_cons_2;
              [intros H; repeat (apply elem_of_cons in H as [H|H]; [discriminate|]);
               by apply elem_of_nil in H|]).
    apply NoDup_nil_2.
  - unfold section_ids. rewrite sample_page_sections. apply list_elem_of_here.
Defined.

Lemma in_world_eq {A} (m : JS A) (p : Page) :
  in_world m p = (set_world (m (world p)).1 p, (m (world p)).2).
Proof. unfold in_world. by destruct (m (world p)). Qed.

Lemma closeSidebar_eq (p : Page) : closeSidebar p = (closed p, Normal undefined).
Proof. reflexivity. Qed.






Lemma updateActiveNavLink_eq (p : Page) :
  updateActiveNavLink p =
  match section_at (window_scrollY p) (sections p) with
  | VStr id =>
      if negb (jsstring_eqb id []) && negb (jsstring_eqb id (currentSection p)) then
        in_world (markSectionVisited (VStr id)) (activated id p)
      else (p, Normal undefined)
  | _ => (p, Normal undefined)
  end.
Proof.
  unfold updateActiveNavLink, pbind at 1, pget at 1, pbind at 1, pget at 1,
    pbind at 1, pget at 1.
  destruct (section_at (window_scrollY p) (sections p)); try reflexivity.
  destruct (negb (jsstring_eqb s []) && negb (jsstring_eqb s (currentSection p)));
    reflexivity.
Qed.

(** The loop of [updateActiveNavLink] ends with its start value or with
    the [id] attribute of a section whose band holds the position. *)
Lemma section_at_origin (scrollY : float) (all : list Element) (start : value) :
  fold_left (λ current section,
               if in_band scrollY section then attribute_value (id_attribute section)
               else current) all start = start
  ∨ ∃ e, e ∈ all ∧ in_band scrollY e = true
         ∧ fold_left (λ current section,
                        if in_band scrollY section
                        then attribute_value (id_attribute section)
                        else current) all start
           = attribute_value (id_attribute e).
Proof.
  revert start. induction all as [|a all IH]; intros start; [by left|].
  cbn [fold_left]. destruct (in_band scrollY a) eqn:Ha.
  - right. destruct (IH (attribute_value (id_attribute a))) as [-> | (e & He & Hb & ->)].
    + exists a. split_and!; [left | done | done].
    + exists e. split_and!; [by right | done | done].
  - destruct (IH start) as [-> | (e & He & Hb & ->)]; [by left|].
    right. exists e. split_and!; [by right | done | done].
Qed.

Lemma section_at_found (scrollY : float) (all : list Element) (id : list N) :
  section_at scrollY all = VStr id → id ≠ [] →
  ∃ e, e ∈ all ∧ in_band scrollY e = true ∧ id_attribute e = Some id.
Proof.
  unfold section_at. intros Hat Hid.
  destruct (section_at_origin scrollY all (VStr [])) as [H | (e & He & Hb & H)];
    rewrite H in Hat.
  - by injection Hat as <-.
  - exists e. split_and!; [done | done |].
    destruct (id_attribute e); [by injection Hat as -> | done].
Qed.

Lemma section_at_outside (scrollY : float) (all : list Element) :
  (∀ e, e ∈ all → in_band scrollY e = false) → section_at scrollY all = VStr [].
Proof.
  intros Hout. unfold section_at.
  destruct (section_at_origin scrollY all (VStr [])) as [H | (e & He & Hb & _)]; [done|].
  rewrite (Hout e He) in Hb. discriminate Hb.
Qed.

Lemma activated_fields (id : list N) (p : Page) :
  world (activated id p) = world p
  ∧ currentSection (activated id p) = id
  ∧ sections (activated id p) = sections p
  ∧ window_scrollY (activated id p) = window_scrollY p
  ∧ scrollTo_calls (activated id p) = scrollTo_calls p.
Proof. split_and!; reflexivity. Qed.

(** When the band of some section holds the position, the loop ends
    with the [id] attribute of such a section. *)
Lemma section_at_in_band (scrollY : float) (all : list Element) (start : value)
    (e : Element) :
  e ∈ all → in_band scrollY e = true →
  ∃ e', e' ∈ all ∧ in_band scrollY e' = true
        ∧ fold_left (λ current section,
                       if in_band scrollY section
                       then attribute_value (id_attribute section)
                       else current) all start
          = attribute_value (id_attribute e').
Proof.
  revert start. induction all as [|a all IH]; intros start He Hb;
    [by apply elem_of_nil in He|].
  cbn [fold_left]. destruct (in_band scrollY a) eqn:Ha.
  - destruct (section_at_origin scrollY all (attribute_value (id_attribute a)))
      as [-> | (e' & He' & Hb' & ->)].
    + exists a. split_and!; [left | done | done].
    + exists e'. split_and!; [by right | done | done].
  - apply elem_of_cons in He as [-> | He]; [congruence|].
    destruct (IH start He Hb) as (e' & He' & Hb' & ->).
    exists e'. split_and!; [by right | done | done].
Qed.

(** X14.  Scrolling marks the section under the scroll position, and
    only that.  When the band of a section (from 150 pixels above its
    top, for its height) holds [window.scrollY], the sections whose
    bands hold it have one and the same [id], and this [id] is not
    empty and is not the current section, [updateActiveNavLink] makes
    it the current section and marks it visited; it returns when the
    store takes the write.  In general [updateActiveNavLink] either
    leaves the page exactly as it is, or it makes current, and marks
    visited, the [id] of a section whose band holds the position; when
    no band holds it, it does nothing.  It never scrolls, and the only
    exception it can end with is the [QuotaExceededError] of the
    store. *)
Theorem X14_scrolling_marks_the_section_in_view (p : Page) :
  (∀ e id,
     e ∈ sections p → in_band (window_scrollY p) e = true →
     (∀ e', e' ∈ sections p → in_band (window_scrollY p) e' = true →
            id_attribute e' = id_attribute e) →
     id_attribute e = Some id → id ≠ [] → id ≠ currentSection p →
     currentSection (updateActiveNavLink p).1 = id
     ∧ VStr id ∈ visitedSections (world (updateActiveNavLink p).1)
     ∧ visitedSections (world (updateActiveNavLink p).1)
       = Set_add (visitedSections (world p)) (VStr id)
     ∧ (write_accepted (world p) → (updateActiveNavLink p).2 = Normal undefined))
  ∧ (updateActiveNavLink p = (p, Normal undefined)
     ∨ ∃ id e,
         e ∈ sections p
         ∧ id_attribute e = Some id
         ∧ id ≠ []
         ∧ in_band (window_scrollY p) e = true
         ∧ id ≠ currentSection p
         ∧ currentSection (updateActiveNavLink p).1 = id
         ∧ visitedSections (world (updateActiveNavLink p).1)
           = Set_add (visitedSections (world p)) (VStr id))
  ∧ ((∀ e, e ∈ sections p → in_band (window_scrollY p) e = false) →
     updateActiveNavLink p = (p, Normal undefined))
  ∧ scrollTo_calls (updateActiveNavLink p).1 = scrollTo_calls p
  ∧ ((updateActiveNavLink p).2 = Normal undefined
     ∨ (updateActiveNavLink p).2 = Throw QuotaExceededError).
Proof.
  assert (∀ id, id ≠ [] → id ≠ currentSection p →
            section_at (window_scrollY p) (sections p) = VStr id →
            updateActiveNavLink p
            = in_world (markSectionVisited (VStr id)) (activated id p)) as Hmark.
  { intros id Hid Hcur Hat. rewrite updateActiveNavLink_eq, Hat.
    unfold jsstring_eqb. by rewrite !bool_decide_eq_false_2. }
  assert (∀ id, currentSection (in_world (markSectionVisited (VStr id)) (activated id p)).1
                = id
                ∧ visitedSections
                    (world (in_world (markSectionVisited (VStr id)) (activated id p)).1)
                  = Set_add (visitedSections (world p)) (VStr id)
                ∧ scrollTo_calls
                    (in_world (markSectionVisited (VStr id)) (activated id p)).1
                  = scrollTo_calls p
                ∧ (in_world (markSectionVisited (VStr id)) (activated id p)).2
                  = (markSectionVisited (VStr id) (world p)).2) as Hfields.
  { intros id. rewrite in_world_eq. cbn [fst snd].
    destruct (activated_fields id p) as (Hw & Hc & _ & _ & Hs). rewrite Hw.
    change (world (set_world ?w ?q)) with w.
    change (currentSection (set_world ?w ?q)) with (currentSection q).
    change (scrollTo_calls (set_world ?w ?q)) with (scrollTo_calls q).
    by rewrite markSectionVisited_sections. }
  split_and!.
  - intros e id He Hb Hsame Ha Hid Hcur.
    assert (section_at (window_scrollY p) (sections p) = VStr id) as Hat.
    { unfold section_at.
      destruct (section_at_in_band (window_scrollY p) (sections p) (VStr []) e He Hb)
        as (e' & He' & Hb' & ->).
      by rewrite (Hsame e' He' Hb'), Ha. }
    rewrite (Hmark id Hid Hcur Hat).
    destruct (Hfields id) as (-> & -> & _ & ->).
    split_and!; [done | apply elem_of_Set_add; [done | by right] | done |].
    intros Hacc. rewrite markSectionVisited_completion. unfold save_completion.
    rewrite Hacc. by destruct (Set_has _ _).
  - rewrite updateActiveNavLink_eq.
    destruct (section_at (window_scrollY p) (sections p)) as [| | |id| |] eqn:Hat;
      try (by left).
    destruct (jsstring_eqb id []) eqn:Hempty; [by left|].
    destruct (jsstring_eqb id (currentSection p)) eqn:Hsame; [by left|].
    cbn [negb andb]. right.
    assert (id ≠ []) as Hid.
    { intros ->. unfold jsstring_eqb in Hempty.
      by rewrite bool_decide_eq_true_2 in Hempty. }
    assert (id ≠ currentSection p) as Hcur.
    { intros ->. unfold jsstring_eqb in Hsame.
      by rewrite bool_decide_eq_true_2 in Hsame. }
    destruct (section_at_found _ _ _ Hat Hid) as (e & He & Hb & Ha).
    exists id, e. destruct (Hfields id) as (-> & -> & _). done.
  - intros Hout. rewrite updateActiveNavLink_eq, (section_at_outside _ _ Hout).
    done.
  - rewrite updateActiveNavLink_eq.
    destruct (section_at (window_scrollY p) (sections p)) as [| | |id| |]; try done.
    destruct (negb (jsstring_eqb id []) && negb (jsstring_eqb id (currentSection p)));
      [|done].
    by destruct (Hfields id) as (_ & _ & -> & _).
  - rewrite updateActiveNavLink_eq.
    destruct (section_at (window_scrollY p) (sections p)) as [| | |id| |];
      try (by left).
    destruct (negb (jsstring_eqb id []) && negb (jsstring_eqb id (currentSection p)));
      [|by left].
    destruct (Hfields id) as (_ & _ & _ & ->).
    rewrite markSectionVisited_completion. unfold save_completion.
    repeat case_match; auto.
Qed.

Lemma X14_witness :
  (currentSection (updateActiveNavLink (set_window_scrollY 700 sample_page)).1
   = str "setup"
   ∧ VStr (str "setup")
     ∈ visitedSections (world (updateActiveNavLink (set_window_scrollY 700 sample_page)).1))
  ∧ updateActiveNavLink (set_window_scrollY 5000 sample_page)
    = (set_window_scrollY 5000 sample_page, Normal undefined).
Proof.
  split.
  - pose proof (proj1 (X14_scrolling_marks_the_section_in_view
                         (set_window_scrollY 700 sample_page))
                  (mkElement (Some (str "setup")) true 600 400) (str "setup")) as H.
    destruct H as (H1 & H2 & _).
    + change (sections (set_window_scrollY 700 sample_page))
        with (sections sample_page).
      rewrite sample_page_sections. apply list_elem_of_further, list_elem_of_here.
    + by vm_compute.
    + intros e' He' Hb'.
      change (sections (set_window_scrollY 700 sample_page))
        with (sections sample_page) in He'.
      rewrite sample_page_sections in He'.
      repeat (apply elem_of_cons in He' as [->|He']; [by vm_compute in Hb' |- *|]).
      by apply elem_of_nil in He'.
    + reflexivity.
    + discriminate.
    + discriminate.
    + exact (conj H1 H2).
  - refine (proj1 (proj2 (proj2 (X14_scrolling_marks_the_section_in_view
                                   (set_window_scrollY 5000 sample_page)))) _).
    intros e He.
    change (sections (set_window_scrollY 5000 sample_page))
      with (sections sample_page) in He.
    rewrite sample_page_sections in He.
    repeat (apply elem_of_cons in He as [->|He]; [by vm_compute|]).
    by apply elem_of_nil in He.
Defined.

(** X15.  A second scroll event at the same position changes nothing:
    [updateActiveNavLink] run again right after itself leaves the page
    as the first run made it, so it marks nothing more and writes
    nothing more to storage. *)
Theorem X15_scroll_handler_is_idempotent (p : Page) :
  updateActiveNavLink (updateActiveNavLink p).1
  = ((updateActiveNavLink p).1, Normal undefined).
Proof.
  rewrite (updateActiveNavLink_eq p).
  destruct (section_at (window_scrollY p) (sections p)) as [| | |id| |] eqn:Hat;
    cbn [fst]; try (rewrite updateActiveNavLink_eq, Hat; reflexivity).
  destruct (negb (jsstring_eqb id []) && negb (jsstring_eqb id (currentSection p)))
    eqn:Hguard; cbn [fst].
  - rewrite in_world_eq. cbn [fst]. rewrite updateActiveNavLink_eq.
    change (sections (set_world ?w ?q)) with (sections q).
    change (window_scrollY (set_world ?w ?q)) with (window_scrollY q).
    change (currentSection (set_world ?w ?q)) with (currentSection q).
    destruct (activated_fields id p) as (_ & -> & -> & -> & _).
    rewrite Hat. unfold jsstring_eqb at 2. rewrite (bool_decide_eq_true_2 _ eq_refl).
    by rewrite andb_false_r.
  - rewrite updateActiveNavLink_eq, Hat, Hguard. reflexivity.
Qed.

(** ** Throttling *)

Lemma throttled_calls_log (delay : Z) (times : list Z) (lastCall : Z) (log : list Z) :
  ∃ ran,
    (throttled_calls delay times (lastCall, log)).2 = log ++ ran
    ∧ spaced delay lastCall ran
    ∧ sublist ran times.
Proof.
  revert lastCall log. induction times as [|now rest IH]; intros lastCall log.
  - exists []. by rewrite app_nil_r.
  - cbn [throttled_calls]. unfold throttle.
    destruct (Z.ltb_spec (now - lastCall) delay) as [Hlt|Hge].
    + cbn [fst]. destruct (IH lastCall log) as (ran & Hlog & Hsp & Hsub).
      exists ran. split_and!; [done | done | by apply sublist_cons].
    + unfold record_run. cbn [fst].
      destruct (IH now (log ++ [now])) as (ran & Hlog & Hsp & Hsub).
      exists (now :: ran). split_and!.
      * by rewrite Hlog, <- app_assoc.
      * split; [lia | done].
      * by apply sublist_skip.
Qed.

(** X16.  A throttled function runs at most once per [delay].  Call
    the function that [throttle(func, delay)] returns at any clock
    readings, in any order of readings: the calls on which [func] really
    runs are some of them, in order, each at least [delay] after the one
    before it and the first at least [delay] after the closure's
    starting [lastCall].  A call that comes too early returns
    [undefined] and is dropped for good: it changes nothing, so it is
    never run later. *)
Theorem X16_throttle_spaces_the_calls (delay lastCall : Z) (times : list Z) :
  spaced delay lastCall (throttled_calls delay times (lastCall, [])).2
  ∧ sublist (throttled_calls delay times (lastCall, [])).2 times
  ∧ ∀ (S A : Type) (func : A → S → S * completion (option value))
      (now : Z) (args : A) (s : S),
      ((now - lastCall < delay)%Z →
       throttle func delay now args (lastCall, s) = ((lastCall, s), Normal undefined))
      ∧ ((delay <= now - lastCall)%Z →
         throttle func delay now args (lastCall, s)
         = ((now, (func args s).1), (func args s).2)).
Proof.
  destruct (throttled_calls_log delay times lastCall []) as (ran & -> & Hsp & Hsub).
  split_and!; [done | done |].
  intros S A func now args s. unfold throttle. split; intros H.
  - by rewrite (proj2 (Z.ltb_lt _ _) H).
  - rewrite (proj2 (Z.ltb_ge _ _) H). by destruct (func args s).
Qed.

Lemma X16_witness :
  throttle (λ (_ : unit) (n : nat), (S n, Normal undefined)) 100 1050 tt (1000%Z, 0)
  = ((1000%Z, 0), Normal undefined)
  ∧ throttle (λ (_ : unit) (n : nat), (S n, Normal undefined)) 100 1100 tt (1000%Z, 0)
    = ((1100%Z, 1), Normal undefined).
Proof.
  pose proof (proj2 (proj2 (X16_throttle_spaces_the_calls 100 1000 []))) as H.
  split.
  - refine (proj1 (H nat unit (λ _ n, (S n, Normal undefined)) 1050%Z tt 0) _). lia.
  - refine (proj2 (H nat unit (λ _ n, (S n, Normal undefined)) 1100%Z tt 0) _). lia.
Defined.

(** ** The scroll progress bar *)

(** An integer of magnitude below 2^53, other than zero, is a finite
    double. *)
Lemma of_Z_finite (z : Z) :
  z ≠ 0%Z → (- 2 ^ 53 < z < 2 ^ 53)%Z →
  ∃ s m e, Prim2SF (Number.of_Z z) = S754_finite s m e.
Proof.
  intros Hz Hrange. unfold Number.of_Z.
  destruct (Z.leb_spec 0 z) as [Hpos|Hneg].
  - destruct (of_nat_finite (Z.to_nat z)) as (m & e & H); [lia | lia |].
    unfold Number.of_nat in H. rewrite Z2Nat.id in H by lia. eauto.
  - destruct (of_nat_finite (Z.to_nat (- z))) as (m & e & H); [lia | lia |].
    unfold Number.of_nat in H. rewrite Z2Nat.id in H by lia.
    exists true, m, e. rewrite opp_spec, H. reflexivity.
Qed.

Lemma updateScrollProgress_eq (p : Page) :
  updateScrollProgress p
  = ((assign_width (window_scrollY p
                    / Number.of_Z (scrollHeight p - window_innerHeight p) * 100)%float
        p).1,
     Normal undefined).
Proof.
  unfold updateScrollProgress, assign_width. destruct p. page_cbv.
  match goal with |- context [valid_width ?x] => destruct (valid_width x) end;
    reflexivity.
Qed.

(** X17.  The scroll bar is full at the bottom and empty at the top.
    With a document higher than the window (by less than 2^53 pixels),
    [updateScrollProgress] sets the width to exactly 100 when
    [window.scrollY] equals the scrollable height, and to 0 when it is 0.
    When the document is exactly as high as the window and the page is
    not scrolled, the computed percentage is NaN, the assignment of
    [NaN%] is dropped, and the width stays what it was. *)
Theorem X17_scroll_progress_bounds (p : Page) :
  ((window_innerHeight p < scrollHeight p)%Z →
   (scrollHeight p - window_innerHeight p < 2 ^ 53)%Z →
   (window_scrollY p = Number.of_Z (scrollHeight p - window_innerHeight p) →
    progressBar_width (updateScrollProgress p).1 = Some 100%float)
   ∧ (window_scrollY p = 0%float →
      progressBar_width (updateScrollProgress p).1 = Some 0%float))
  ∧ (scrollHeight p = window_innerHeight p → window_scrollY p = 0%float →
     (window_scrollY p / Number.of_Z (scrollHeight p - window_innerHeight p) * 100)%float
     = nan
     ∧ updateScrollProgress p = (p, Normal undefined)).
Proof.
  rewrite updateScrollProgress_eq. cbn [fst].
  split.
  - intros Hlt Hbound.
    destruct (of_Z_finite (scrollHeight p - window_innerHeight p))
      as (s & m & e & Hfin); [lia | lia |].
    split.
    + intros ->. by rewrite (div_self _ _ _ _ Hfin).
    + intros ->.
      assert (s = false) as ->.
      { unfold Number.of_Z in Hfin.
        destruct (Z.leb_spec 0 (scrollHeight p - window_innerHeight p)) as [_|Hneg];
          [|lia].
        destruct (of_nat_finite (Z.to_nat (scrollHeight p - window_innerHeight p)))
          as (m' & e' & Hnat); [lia | lia |].
        unfold Number.of_nat in Hnat. rewrite Z2Nat.id in Hnat by lia.
        rewrite Hnat in Hfin. by injection Hfin as <- _ _. }
      by rewrite (div_zero_finite _ _ _ Hfin).
  - intros -> ->. by rewrite Z.sub_diag.
Qed.

Lemma X17_witness :
  progressBar_width
    (updateScrollProgress
       (set_window_scrollY 2232 (set_scrollHeight 3000 sample_page))).1
  = Some 100%float
  ∧ updateScrollProgress (set_scrollHeight 768 sample_page)
    = (set_scrollHeight 768 sample_page, Normal undefined).
Proof.
  split.
  - refine (proj1 (proj1 (X17_scroll_progress_bounds
      (set_window_scrollY 2232 (set_scrollHeight 3000 sample_page))) _ _) _).
    + reflexivity.
    + reflexivity.
    + reflexivity.
  - refine (proj2 (proj2 (X17_scroll_progress_bounds
      (set_scrollHeight 768 sample_page)) _ _)).
    + reflexivity.
    + reflexivity.
Defined.

(** ** The sidebar *)

Lemma toggleSidebar_eq (p : Page) :
  toggleSidebar p
  = (set_sidebar_active (negb (isSidebarOpen p))
       (set_isSidebarOpen (negb (isSidebarOpen p)) p), Normal undefined).
Proof.
  unfold toggleSidebar. destruct p as [? ? ? ? ? ? ? ? ? open ?]. page_cbv.
  by destruct open.
Qed.

(** X21.  The sidebar flag and the sidebar class stay together.  After
    [toggleSidebar] the [active] class of the sidebar is set exactly when
    [state.isSidebarOpen] is, whatever they were before, and the flag is
    the negation of the old one; on a page where flag and class agreed,
    toggling twice gives back the same page.  After [closeSidebar] the
    sidebar is closed, also when it was closed already. *)
Theorem X21_sidebar_flag_and_class_agree (p : Page) :
  sidebar_active (toggleSidebar p).1 = isSidebarOpen (toggleSidebar p).1
  ∧ isSidebarOpen (toggleSidebar p).1 = negb (isSidebarOpen p)
  ∧ (sidebar_active p = isSidebarOpen p →
     toggleSidebar (toggleSidebar p).1 = (p, Normal undefined))
  ∧ closeSidebar (toggleSidebar p).1 = closeSidebar p
  ∧ isSidebarOpen (closeSidebar p).1 = false
  ∧ sidebar_active (closeSidebar p).1 = false.
Proof.
  rewrite !closeSidebar_eq, !toggleSidebar_eq. cbn [fst].
  split_and!; try reflexivity.
  intros Hsync. destruct p. cbn in *. subst.
  by rewrite negb_involutive.
Qed.

Lemma X21_witness :
  toggleSidebar (toggleSidebar sample_page).1 = (sample_page, Normal undefined).
Proof.
  refine (proj1 (proj2 (proj2 (X21_sidebar_flag_and_class_agree sample_page))) _).
  reflexivity.
Defined.

(** ** The key sequence *)

Lemma comma_split (x y r1 r2 : list N) :
  comma_free x → comma_free y →
  x ++ 44%N :: r1 = y ++ 44%N :: r2 → x = y ∧ r1 = r2.
Proof.
  unfold comma_free. revert y.
  induction x as [|a x IH]; intros [|b y] Hx Hy Heq; cbn in Heq.
  - by injection Heq as ->.
  - injection Heq as <- _. exfalso. apply Hy. left.
  - injection Heq as -> _. exfalso. apply Hx. left.
  - injection Heq as -> Heq.
    destruct (IH y) as [-> ->]; [| |done|done].
    + intros H. apply Hx. by right.
    + intros H. apply Hy. by right.
Qed.

Lemma join_comma_cons (x y : list N) (l : list (list N)) :
  join_comma (x :: y :: l) = x ++ 44%N :: join_comma (y :: l).
Proof. reflexivity. Qed.

Lemma join_comma_inj (l1 l2 : list (list N)) :
  Forall comma_free l1 → Forall comma_free l2 → l1 ≠ [] → l2 ≠ [] →
  join_comma l1 = join_comma l2 → l1 = l2.
Proof.
  revert l2. induction l1 as [|x l1 IH]; intros [|y l2] H1 H2 Hne1 Hne2 Heq; try done.
  apply Forall_cons in H1 as [Hx H1]. apply Forall_cons in H2 as [Hy H2].
  destruct l1 as [|x' l1], l2 as [|y' l2].
  - cbn in Heq. by subst.
  - rewrite join_comma_cons in Heq. cbn [join_comma] in Heq. exfalso. apply Hx.
    rewrite Heq. apply elem_of_app. right. left.
  - rewrite join_comma_cons in Heq. cbn [join_comma] in Heq. exfalso. apply Hy.
    rewrite <- Heq. apply elem_of_app. right. left.
  - rewrite !join_comma_cons in Heq.
    apply comma_split in Heq as [-> Heq]; [|done|done].
    f_equal. by apply IH.
Qed.

Lemma slice_last_length {A} (n : nat) (l : list A) :
  length (slice_last n l) = min n (length l).
Proof. unfold slice_last. rewrite length_drop. lia. Qed.

Lemma slice_last_snoc {A} (n : nat) (l : list A) (k : A) :
  0 < n → slice_last n (l ++ [k]) = slice_last (n - 1) l ++ [k].
Proof.
  intros Hn. unfold slice_last. rewrite length_app. cbn [length].
  rewrite drop_app_le by lia. do 2 f_equal. lia.
Qed.

Lemma slice_last_pushed {A} (n : nat) (l k : list A) :
  slice_last n (slice_last n l ++ k) = slice_last n (l ++ k).
Proof.
  unfold slice_last. rewrite !length_app, length_drop, !drop_app, drop_drop, length_drop.
  f_equal; f_equal; lia.
Qed.

Lemma slice_last_comma_free (n : nat) (l : list (list N)) :
  Forall comma_free l → Forall comma_free (slice_last n l).
Proof. apply Forall_drop. Qed.

Lemma konamiSequence_comma_free : Forall comma_free konamiSequence.
Proof.
  unfold konamiSequence, comma_free.
  repeat (apply Forall_cons_2;
    [intros H; repeat (apply elem_of_cons in H as [H|H]; [discriminate|]);
     by apply elem_of_nil in H|]).
  apply Forall_nil_2.
Qed.

Lemma konami_keydown_eq (p : Page) (key : list N) :
  konami_keydown key p
  = (if jsstring_eqb (join_comma (slice_last 10 (konamiCode p ++ [key])))
          (join_comma konamiSequence)
     then egg_fired p
     else set_konamiCode (slice_last 10 (konamiCode p ++ [key])) p,
     Normal undefined).
Proof.
  unfold konami_keydown, activateEasterEgg, egg_fired. destruct p. page_cbv.
  by case_match.
Qed.

Lemma konami_keydown_hit (p : Page) (key : list N) :
  slice_last 10 (konamiCode p ++ [key]) = konamiSequence →
  konami_keydown key p = (egg_fired p, Normal undefined).
Proof.
  intros Heq. rewrite konami_keydown_eq, Heq.
  unfold jsstring_eqb. by rewrite bool_decide_eq_true_2.
Qed.

Lemma konami_keydown_other (p : Page) (key : list N) :
  join_comma (slice_last 10 (konamiCode p ++ [key])) ≠ join_comma konamiSequence →
  konami_keydown key p
  = (set_konamiCode (slice_last 10 (konamiCode p ++ [key])) p, Normal undefined).
Proof.
  intros Hne. rewrite konami_keydown_eq.
  unfold jsstring_eqb. by rewrite bool_decide_eq_false_2.
Qed.

Lemma konami_keydown_miss (p : Page) (key : list N) :
  Forall comma_free (konamiCode p) → comma_free key →
  slice_last 10 (konamiCode p ++ [key]) ≠ konamiSequence →
  konami_keydown key p
  = (set_konamiCode (slice_last 10 (konamiCode p ++ [key])) p, Normal undefined).
Proof.
  intros Hbuf Hkey Hne. apply konami_keydown_other. intros Heq. apply Hne.
  apply join_comma_inj; [| |  |done|done].
  - apply slice_last_comma_free, Forall_app. split; [done|]. by apply Forall_singleton.
  - apply konamiSequence_comma_free.
  - intros Hnil. apply (f_equal length) in Hnil.
    rewrite slice_last_length, length_app in Hnil. cbn [length] in Hnil. lia.
Qed.

(** X18.  The egg fires exactly when the last ten keys are the
    sequence.  With keys whose names hold no comma, the listener fires
    the easter egg (and empties the buffer) if and only if the last ten
    keys pressed, the new one included, are the Konami sequence;
    otherwise it only records the key, keeping the last ten. *)
Theorem X18_egg_fires_on_the_last_ten_keys (p : Page) (key : list N) :
  Forall comma_free (konamiCode p) → comma_free key →
  (slice_last 10 (konamiCode p ++ [key]) = konamiSequence →
   konami_keydown key p = (egg_fired p, Normal undefined))
  ∧ (slice_last 10 (konamiCode p ++ [key]) ≠ konamiSequence →
     konami_keydown key p
     = (set_konamiCode (slice_last 10 (konamiCode p ++ [key])) p, Normal undefined)).
Proof.
  intros Hbuf Hkey. split; [apply konami_keydown_hit|].
  by apply konami_keydown_miss.
Qed.

Lemma X18_witness :
  konami_keydown (str "a") (set_konamiCode (take 9 konamiSequence) sample_page)
  = (egg_fired (set_konamiCode (take 9 konamiSequence) sample_page), Normal undefined)
  ∧ konami_keydown (str "b") (set_konamiCode (take 9 konamiSequence) sample_page)
    = (set_konamiCode
         (slice_last 10 (take 9 konamiSequence ++ [str "b"]))
         (set_konamiCode (take 9 konamiSequence) sample_page), Normal undefined).
Proof.
  assert (Forall comma_free (take 9 konamiSequence)) as Hbuf
    by apply Forall_take, konamiSequence_comma_free.
  split.
  - refine (proj1 (X18_egg_fires_on_the_last_ten_keys
                     (set_konamiCode (take 9 konamiSequence) sample_page) (str "a")
                     Hbuf _) _).
    + unfold comma_free. intros H.
      repeat (apply elem_of_cons in H as [H|H]; [discriminate|]).
      by apply elem_of_nil in H.
    + reflexivity.
  - refine (proj2 (X18_egg_fires_on_the_last_ten_keys
                     (set_konamiCode (take 9 konamiSequence) sample_page) (str "b")
                     Hbuf _) _).
    + unfold comma_free. intros H.
      repeat (apply elem_of_cons in H as [H|H]; [discriminate|]).
      by apply elem_of_nil in H.
    + discriminate.
Defined.

Lemma type_keys_cons (key : list N) (keys : list (list N)) (p : Page) :
  type_keys (key :: keys) p
  = match konami_keydown key p with
    | (p', Normal _) => type_keys keys p'
    | (p', Throw e) => (p', Throw e)
    end.
Proof. reflexivity. Qed.

(** X19.  At most one egg per ten keys.  For keys whose names hold no
    comma, any number of key presses is handled without an exception,
    the buffer never holds more than ten keys once it holds at most ten,
    and ten times the number of new activations is at most the number
    of keys pressed plus the keys that were in the buffer. *)
Theorem X19_at_most_one_egg_per_ten_keys (keys : list (list N)) (p : Page) :
  Forall comma_free (konamiCode p) → Forall comma_free keys →
  ∃ p', type_keys keys p = (p', Normal undefined)
        ∧ Forall comma_free (konamiCode p')
        ∧ 10 * egg_activations p' + length (konamiCode p')
          ≤ 10 * egg_activations p + length (konamiCode p) + length keys
        ∧ (length (konamiCode p) ≤ 10 → length (konamiCode p') ≤ 10).
Proof.
  revert p. induction keys as [|key keys IH]; intros p Hbuf Hkeys.
  - exists p. split_and!; [done | done | cbn; lia | done].
  - apply Forall_cons in Hkeys as [Hkey Hkeys].
    assert (Forall comma_free (slice_last 10 (konamiCode p ++ [key]))) as Hcode.
    { apply slice_last_comma_free, Forall_app. split; [done|].
      by apply Forall_singleton. }
    pose proof (slice_last_length 10 (konamiCode p ++ [key])) as Hlen.
    rewrite length_app in Hlen. cbn [length] in Hlen.
    rewrite type_keys_cons.
    destruct (decide (slice_last 10 (konamiCode p ++ [key]) = konamiSequence))
      as [Heq|Hne].
    + rewrite konami_keydown_hit by done.
      destruct (IH (egg_fired p)) as (p' & Hrun & Hfree & Hcount & Hten);
        [apply Forall_nil_2 | done |].
      rewrite Heq in Hlen. change (length konamiSequence) with 10 in Hlen.
      change (egg_activations (egg_fired p)) with (S (egg_activations p)) in Hcount.
      change (konamiCode (egg_fired p)) with (@nil (list N)) in Hcount, Hten.
      cbn [length] in Hcount, Hten.
      exists p'. split_and!; [done | done | cbn [length]; lia | ].
      intros _. apply Hten. lia.
    + rewrite konami_keydown_miss by done.
      destruct (IH (set_konamiCode (slice_last 10 (konamiCode p ++ [key])) p))
        as (p' & Hrun & Hfree & Hcount & Hten); [done | done |].
      change (konamiCode (set_konamiCode ?c ?q)) with c in Hcount, Hten.
      change (egg_activations (set_konamiCode ?c ?q)) with (egg_activations q) in Hcount.
      exists p'. split_and!; [done | done | cbn [length]; lia | ].
      intros _. apply Hten. lia.
Qed.

Lemma X19_witness :
  ∃ p', type_keys (konamiSequence ++ konamiSequence) sample_page = (p', Normal undefined)
        ∧ Forall comma_free (konamiCode p')
        ∧ 10 * egg_activations p' + length (konamiCode p')
          ≤ 10 * egg_activations sample_page + length (konamiCode sample_page)
            + length (konamiSequence ++ konamiSequence)
        ∧ (length (konamiCode sample_page) ≤ 10 → length (konamiCode p') ≤ 10).
Proof.
  apply (X19_at_most_one_egg_per_ten_keys (konamiSequence ++ konamiSequence) sample_page).
  - apply Forall_nil_2.
  - apply Forall_app. split; apply konamiSequence_comma_free.
Defined.

Lemma join_comma_snoc_last (l : list (list N)) (k : list N) :
  k ≠ [] → last (join_comma (l ++ [k])) = last k.
Proof.
  intros Hk. induction l as [|x l IH]; [done|].
  cbn [app]. destruct (l ++ [k]) as [|y l'] eqn:E; [by destruct l|].
  rewrite join_comma_cons, last_app, last_cons, IH.
  destruct (last k) eqn:Hlast; [done|]. by apply last_None in Hlast.
Qed.

Lemma konami_keydown_not_last (p : Page) (key : list N) :
  key ≠ [] → last key ≠ Some 97%N →
  konami_keydown key p
  = (set_konamiCode (slice_last 10 (konamiCode p ++ [key])) p, Normal undefined).
Proof.
  intros Hkey Hlast. apply konami_keydown_other. intros Heq. apply Hlast.
  apply (f_equal last) in Heq.
  rewrite slice_last_snoc, join_comma_snoc_last in Heq by (done || lia).
  by rewrite Heq.
Qed.

Lemma slice_last_app_all {A} (l k : list A) : slice_last (length k) (l ++ k) = k.
Proof.
  unfold slice_last. rewrite length_app.
  replace (length l + length k - length k) with (length l) by lia.
  by rewrite drop_app_length.
Qed.

(** X20.  Typing the sequence always works.  In every state of the
    page, whatever keys are in the buffer, pressing the ten keys of the
    Konami sequence one after the other fires the easter egg exactly
    once, on the last key: the body gets the rainbow animation, one
    timer of 5000 ms is set to clear it, and the buffer is left
    empty. *)
Theorem X20_typing_the_sequence_fires_once (p : Page) :
  type_keys konamiSequence p = (egg_fired p, Normal undefined).
Proof.
  unfold konamiSequence.
  do 9 (rewrite type_keys_cons, konami_keydown_not_last
          by (vm_compute; discriminate)).
  rewrite type_keys_cons, konami_keydown_hit; [reflexivity|].
  repeat change (konamiCode (set_konamiCode ?c ?q)) with c.
  repeat (rewrite slice_last_pushed, <- app_assoc; cbn [app]).
  apply (slice_last_app_all (konamiCode p) konamiSequence).
Qed.
